(** * pysb: the Sobol sensitivity pipeline of [gabi_sampling.py]

    A shallow embedding of the sampling-matrix construction, the ODE
    evaluation environment, the data comparator, the sensitivity
    evaluator and the sensitivity estimator, followed by the properties
    that the specification states about them.

    Numbers are IEEE 754 binary64 values ([spec_float] at precision 53),
    the parameter buffer holds binary32 values (ctypes [c_float]), Python
    exceptions are values of an error monad, and the environment that
    [odesolve] mutates is threaded explicitly. *)

From Stdlib Require Import ZArith List Bool Lia String Ascii.
From Stdlib Require Import Floats.SpecFloat.
From Stdlib Require DecimalString.
From stdpp Require Import base tactics option list.

Local Open Scope nat_scope.

(** ** Python exceptions *)

Inductive exn : Type :=
| IndexError
| ValueError
| TypeError
| NameError
| UnboundLocalError.

Inductive res (A : Type) : Type :=
| Ok (a : A)
| Raise (e : exn).
Arguments Ok {A} a.
Arguments Raise {A} e.

Definition rbind {A B : Type} (m : res A) (k : A -> res B) : res B :=
  match m with
  | Ok a => k a
  | Raise e => Raise e
  end.

#[global] Instance res_ret : MRet res := fun A a => Ok a.
#[global] Instance res_bind : MBind res := fun A B k m => rbind m k.

Fixpoint mapR {A B : Type} (f : A -> res B) (l : list A) : res (list B) :=
  match l with
  | [] => Ok []
  | x :: xs => y ← f x; ys ← mapR f xs; Ok (y :: ys)
  end.

Fixpoint foldR {A B : Type} (f : A -> B -> res A) (a : A) (l : list B) : res A :=
  match l with
  | [] => Ok a
  | x :: xs => a' ← f a x; foldR f a' xs
  end.

(** [l[i]] for a non-negative index. *)
Definition index {A : Type} (l : list A) (i : nat) : res A :=
  match l !! i with
  | Some x => Ok x
  | None => Raise IndexError
  end.

(** ** binary64 arithmetic *)

Module F64.
Definition float : Type := spec_float.
Definition prec : Z := 53.
Definition emax : Z := 1024.

Definition add : float -> float -> float := SFadd prec emax.
Definition sub : float -> float -> float := SFsub prec emax.
Definition mul : float -> float -> float := SFmul prec emax.
Definition div : float -> float -> float := SFdiv prec emax.

(** Conversion of a Python integer. *)
Definition of_Z (z : Z) : float := binary_normalize prec emax z 0 false.
Definition of_nat (n : nat) : float := of_Z (Z.of_nat n).

Definition zero : float := S754_zero false.
Definition one : float := of_Z 1.
Definition two : float := of_Z 2.
(** The literal [.1]: the binary64 value nearest to one tenth. *)
Definition tenth : float := div one (of_Z 10).
(** A decimal literal [m * 10^-k] whose digits [m] and power of ten are
    exact in binary64: the quotient is then the nearest binary64 value. *)
Definition lit (m : Z) (k : nat) : float := div (of_Z m) (of_Z (10 ^ Z.of_nat k)).
(** The literal [1e-100], [0x1.bff2ee48e0530p-333]. *)
Definition tiny : float := S754_finite false 7880401239278896 (-385).

Definition isinf (x : float) : bool :=
  match x with S754_infinity _ => true | _ => false end.
Definition isnan (x : float) : bool :=
  match x with S754_nan => true | _ => false end.
Definition square (x : float) : float := mul x x.

(** [numpy.maximum] and [numpy.minimum]: a NaN operand is returned. *)
Definition maximum (a b : float) : float :=
  if isnan a then a else if isnan b then b
  else if SFltb a b then b else a.
Definition minimum (a b : float) : float :=
  if isnan a then a else if isnan b then b
  else if SFltb b a then b else a.
End F64.

Abbreviation float := F64.float.

#[global] Instance float_inhabited : Inhabited float := populate F64.zero.

Arguments F64.add : simpl never.
Arguments F64.sub : simpl never.
Arguments F64.mul : simpl never.
Arguments F64.div : simpl never.
Arguments F64.of_Z : simpl never.
Arguments F64.of_nat : simpl never.
Arguments F64.one : simpl never.
Arguments F64.two : simpl never.
Arguments F64.tenth : simpl never.
Arguments F64.tiny : simpl never.
Arguments F64.lit : simpl never.
Arguments F64.square : simpl never.

(** ** numpy arrays

    A one-dimensional array is a list, a two-dimensional array a list of
    rows, a three-dimensional one a list of matrices.  [shape[1]] is read
    off the first row, so an array with no rows has no columns here. *)

Abbreviation matrix A := (list (list A)).

Definition nrows {A : Type} (M : matrix A) : nat := length M.
Definition ncols {A : Type} (M : matrix A) : nat :=
  match M with
  | [] => 0
  | r :: _ => length r
  end.

Definition is_matrix {A : Type} (n p : nat) (M : matrix A) : Prop :=
  length M = n /\ Forall (fun r => length r = p) M.

Module Np.
(** Elementwise combination of two one-axis operands under numpy's
    broadcasting rule: equal lengths, or one operand of length one. *)
Definition broadcast {A B C : Type} (f : A -> B -> res C)
    (a : list A) (b : list B) : res (list C) :=
  if decide (length a = length b)
  then mapR (fun xy => f xy.1 xy.2) (zip a b)
  else match a, b with
       | [x], _ => mapR (f x) b
       | _, [y] => mapR (fun x => f x y) a
       | _, _ => Raise ValueError
       end.

(** Vector with vector. *)
Definition ewise {A : Type} (f : A -> A -> A) : list A -> list A -> res (list A) :=
  broadcast (fun x y => Ok (f x y)).
(** Matrix with matrix. *)
Definition ewise2 {A : Type} (f : A -> A -> A) : matrix A -> matrix A -> res (matrix A) :=
  broadcast (ewise f).
(** Matrix with vector: the vector is a matrix of one row. *)
Definition ewise_mv {A : Type} (f : A -> A -> A) (M : matrix A) (v : list A) : res (matrix A) :=
  ewise2 f M [v].
Definition ewise_vm {A : Type} (f : A -> A -> A) (v : list A) (M : matrix A) : res (matrix A) :=
  ewise2 f [v] M.

(** [M[:, i]] *)
Definition getcol {A : Type} (M : matrix A) (i : nat) : res (list A) :=
  mapR (fun r => index r i) M.

(** [M[:, i] = col] *)
Definition setcol {A : Type} (M : matrix A) (i : nat) (col : list A) : res (matrix A) :=
  _ ← mapR (fun r => index r i) M;
  if decide (length col = length M)
  then Ok (zip_with (fun r x => <[i := x]> r) M col)
  else match col with
       | [x] => Ok (map (fun r => <[i := x]> r) M)
       | _ => Raise ValueError
       end.

(** [M[i] = row] for a matrix of [w] columns. *)
Definition setrow {A : Type} (w : nat) (M : matrix A) (i : nat) (row : list A) : res (matrix A) :=
  _ ← index M i;
  if decide (length row = w) then Ok (<[i := row]> M)
  else match row with
       | [x] => Ok (<[i := replicate w x]> M)
       | _ => Raise ValueError
       end.

(** [M.T]; a rectangular array is never read out of range. *)
Definition transpose {A : Type} `{Inhabited A} (M : matrix A) : matrix A :=
  map (fun c => map (fun r : list A => r !!! c) M) (seq 0 (ncols M)).

(** [a.sum()] of a one-axis array, accumulated from [0.] in index order
    (numpy adds a long array up in blocks; the specification speaks of
    "the sum" and fixes no order). *)
Definition sum (l : list float) : float := fold_left F64.add l F64.zero.

(** [M.sum(axis=0)]: the rows are added up into a row of zeros. *)
Definition sum0 (M : matrix float) : list float :=
  fold_left (zip_with F64.add) M (replicate (ncols M) F64.zero).

(** [M.sum(1)] *)
Definition sum1 (M : matrix float) : list float := map sum M.

(** [numpy.average(M, axis=0)] *)
Definition average0 (M : matrix float) : list float :=
  map (fun s => F64.div s (F64.of_nat (nrows M))) (sum0 M).

(** [numpy.var(M, axis=0, ddof=1)]: the mean is subtracted from every
    row, the squares are summed and divided by [max(n - ddof, 0)]. *)
Definition var0_ddof1 (M : matrix float) : res (list float) :=
  x ← ewise_mv F64.sub M (average0 M);
  x2 ← ewise2 F64.mul x x;
  Ok (map (fun s => F64.div s (F64.of_nat (Nat.max (nrows M - 1) 0))) (sum0 x2)).

(** [numpy.max(M, axis=1)], [numpy.min(M, axis=1)]: a reduction without
    identity, which refuses an empty row. *)
Definition reduce1 (f : float -> float -> float) (row : list float) : res float :=
  match row with
  | [] => Raise ValueError
  | x :: xs => Ok (fold_left f xs x)
  end.
Definition max1 (M : matrix float) : res (list float) := mapR (reduce1 F64.maximum) M.
Definition min1 (M : matrix float) : res (list float) := mapR (reduce1 F64.minimum) M.
End Np.

(** ** Parameter sampler: the C matrices *)

Section GenCmtx.
Context {A : Type}.

(** One turn of the loop [sobmtxC[i,:,i] = sobmtxA[:,i]]. *)
Definition genCmtx_step (sobmtxA : matrix A) (sobmtxC : list (matrix A)) (i : nat)
    : res (list (matrix A)) :=
  colA ← Np.getcol sobmtxA i;
  Ci ← index sobmtxC i;
  Ci' ← Np.setcol Ci i colA;
  Ok (<[i := Ci']> sobmtxC).

Definition genCmtx (sobmtxA sobmtxB : matrix A) : res (list (matrix A)) :=
  let nparams := ncols sobmtxA in
  let sobmtxC := replicate nparams sobmtxB in
  foldR (genCmtx_step sobmtxA) sobmtxC (seq 0 nparams).
(** [B] with column [k] taken from [A], the closed form of one C matrix. *)
Definition swapcol (sobmtxA sobmtxB : matrix A) (k : nat) : matrix A :=
  zip_with (fun rA rB => match rA !! k with
                         | Some x => <[k := x]> rB
                         | None => rB
                         end) sobmtxA sobmtxB.
End GenCmtx.

(** The matrices of the concrete scenario of the specification. *)
Definition scenario_A : matrix float :=
  [[F64.lit 1 1; F64.lit 2 1]; [F64.lit 3 1; F64.lit 4 1];
   [F64.lit 5 1; F64.lit 6 1]; [F64.lit 7 1; F64.lit 8 1]].
Definition scenario_B : matrix float :=
  [[F64.lit 9 1; F64.lit 8 1]; [F64.lit 7 1; F64.lit 6 1];
   [F64.lit 5 1; F64.lit 4 1]; [F64.lit 3 1; F64.lit 2 1]].

(** ** The ctypes parameter buffer

    [UserData.p] is an array of [ctypes.c_float].  A store converts the
    Python float to binary32 (round to nearest even, overflow to an
    infinity); a load widens the stored value back to binary64, which is
    exact.  [c_float x] is the value read back after storing [x]. *)

Module F32.
Definition prec : Z := 24.
Definition emax : Z := 128.
Definition round (x : float) : spec_float :=
  match x with
  | S754_finite s m e => binary_round prec emax s m e
  | _ => x
  end.
Definition widen (x : spec_float) : float :=
  match x with
  | S754_finite s m e => binary_round F64.prec F64.emax s m e
  | _ => x
  end.
End F32.

Definition c_float (x : float) : float := F32.widen (F32.round x).
Arguments c_float : simpl never.

(** [a[i] = x] on an array of fixed length. *)
Definition set_item {A : Type} (l : list A) (i : nat) (x : A) : res (list A) :=
  if decide (i < length l) then Ok (<[i := x]> l) else Raise IndexError.

(** ** The model interface *)

Record Param : Type := { name : string; value : float }.

Record Observable : Type := { species : list nat; coefficients : list float }.

(** A compiled right-hand side [eval(rhs_exprs[i], {'y': y, 'p': data.p})]:
    the species symbols have become [y[N]] and the parameter names [p[j]],
    so its value is a function of the two locals [y] and [p]. *)
Definition rhs_code : Type := list float -> list float -> float.

(** What the pipeline reads of a model: [initial_conditions] holds the
    pairs [(get_species_index(cplxptrn), ic_param)], and [odes] the
    right-hand sides that [generate_equations] derives, as [odeinit]
    compiles them. *)
Record Model : Type := {
  parameters : list Param;
  initial_conditions : list (nat * Param);
  odes : list rhs_code;
  observables : list Observable;
  observable_patterns : list string
}.

(** ** ODE evaluation environment *)

(** The part of [envlist] that outlives a call: [rhs_exprs], [odesize],
    [data], [nsteps], [yzero], [reltol], [abstol].  [data.p] and [yzero]
    are mutated in place by [odesolve]. *)
Record Env : Type := {
  rhs_exprs : list rhs_code;
  odesize : nat;
  data_p : list float;
  nsteps : nat;
  yzero : list float;
  reltol : float;
  abstol : float
}.

Definition set_data_p (p : list float) (env : Env) : Env :=
  {| rhs_exprs := rhs_exprs env; odesize := odesize env; data_p := p;
     nsteps := nsteps env; yzero := yzero env;
     reltol := reltol env; abstol := abstol env |}.

Definition set_yzero (y : list float) (env : Env) : Env :=
  {| rhs_exprs := rhs_exprs env; odesize := odesize env; data_p := data_p env;
     nsteps := nsteps env; yzero := y;
     reltol := reltol env; abstol := abstol env |}.

(** [f(y, t)]: every right-hand side is evaluated with [p] bound to the
    buffer as it is when the integrator calls. *)
Definition f (env : Env) (y : list float) (t : float) : list float :=
  map (fun code : rhs_code => code y (data_p env)) (rhs_exprs env).

(** [yzero[speci] = ic_param.value] for every initial condition. *)
Definition assign_ics (ics : list (nat * Param)) (yz : list float) : res (list float) :=
  foldR (fun yz (ic : nat * Param) => set_item yz ic.1 (value ic.2)) yz ics.

Definition odeinit (model : Model) (reltol abstol : float) (nsteps : nat)
    : res (Env * list float) :=
  let odesize := length (odes model) in
  yzero ← assign_ics (initial_conditions model) (replicate odesize F64.zero);
  let rhs_exprs := odes model in
  let data_p := map (fun p => c_float (value p)) (parameters model) in
  let paramarray := map value (parameters model) in
  Ok ({| rhs_exprs := rhs_exprs; odesize := odesize; data_p := data_p;
         nsteps := nsteps; yzero := yzero;
         reltol := reltol; abstol := abstol |}, paramarray).

(** Computations that may raise and that mutate the environment; the
    mutations made before an exception stay. *)
Definition ST (A : Type) : Type := Env -> res A * Env.

#[global] Instance ST_ret : MRet ST := fun A a env => (Ok a, env).
#[global] Instance ST_bind : MBind ST := fun A B k m env =>
  match m env with
  | (Ok a, env') => k a env'
  | (Raise e, env') => (Raise e, env')
  end.

Definition lift {A : Type} (r : res A) : ST A := fun env => (r, env).
Definition get_env : ST Env := fun env => (Ok env, env).
Definition modify (g : Env -> Env) : ST unit := fun env => (Ok tt, g env).

Fixpoint foldS {A B : Type} (body : A -> B -> ST A) (a : A) (l : list B) : ST A :=
  match l with
  | [] => mret a
  | x :: xs => a' ← body a x; foldS body a' xs
  end.

Definition forS {B : Type} (l : list B) (body : B -> ST unit) : ST unit :=
  foldS (fun _ x => body x) tt l.

(** [data.p[j] = v] *)
Definition store_p (j : nat) (v : float) : ST unit :=
  env ← get_env;
  p ← lift (set_item (data_p env) j (c_float v));
  modify (set_data_p p).

(** [yzero[speci] = v] on the array of the environment. *)
Definition store_yzero (speci : nat) (v : float) : ST unit :=
  env ← get_env;
  yz ← lift (set_item (yzero env) speci v);
  modify (set_yzero yz).

(** Lines 125-128 of [odesolve]: the initial conditions are written into
    [yzero] one after the other, in place, so that the assignments made
    before one that fails stay. *)
Definition reset_ics (ics : list (nat * Param)) : ST unit :=
  forS ics (fun ic => store_yzero ic.1 (value ic.2)).

(** Lines 109-116 of [odesolve]. *)
Definition write_params (params : list float) (useparams : option (list nat)) : ST unit :=
  match useparams with
  | None =>
      forS (seq 0 (length params)) (fun i =>
        v ← lift (index params i);
        store_p i v)
  | Some useparams =>
      forS (seq 0 (length useparams)) (fun i =>
        v ← lift (index params i);
        j ← lift (index useparams i);
        store_p j v)
  end.

(** [numpy.linspace(start, stop, num)] *)
Definition linspace (start stop : float) (num : nat) : list float :=
  match num with
  | 0 => []
  | 1 => [start]
  | _ =>
      let step := F64.div (F64.sub stop start) (F64.of_nat (num - 1)) in
      <[num - 1 := stop]>
        (map (fun i => F64.add (F64.mul (F64.of_nat i) step) start) (seq 0 num))
  end.

(** [yobs[i] = (yout[:, specs] * coeffs).sum(1)] *)
Definition observe (yout : matrix float) (obs : Observable) : res (list float) :=
  sel ← mapR (fun row => mapR (index row) (species obs)) yout;
  prod ← Np.ewise_mv F64.mul sel (coefficients obs);
  Ok (Np.sum1 prod).

Record Solution : Type := {
  xyobs : matrix float;
  xout : list float;
  yout : matrix float;
  yobs : matrix float
}.

Section Pipeline.
(** [scipy.integrate.odeint(f, y0, t)] *)
Variable odeint : (list float -> float -> list float) -> list float -> list float -> matrix float.
(** [scipy.interpolate.splrep(t, y)], the cubic B-spline through
    [(t, y)], and [scipy.interpolate.splev(x, tck)], its values at the
    points [x].  [splrep] refuses data it cannot fit (fewer than four
    points, a time row that does not increase), so the fit can raise. *)
Context {spline : Type}.
Variable splrep : list float -> list float -> res spline.
Variable splev : list float -> spline -> res (list float).

Definition odesolve (model : Model) (tfinal : float) (params : list float)
    (useparams : option (list nat)) (tinit : float) (ic : bool) : ST Solution :=
  _ ← write_params params useparams;
  _ ← (if ic then reset_ics (initial_conditions model) else mret tt);
  env ← get_env;
  let xout := linspace tinit tfinal (nsteps env) in
  let yout := odeint (f env) (yzero env) xout in
  let yobs0 := replicate (length (observables model)) (replicate (nsteps env) F64.zero) in
  yobs ← lift (foldR (fun yobs (io : nat * Observable) =>
                        row ← observe yout io.2;
                        Np.setrow (nsteps env) yobs io.1 row)
                     yobs0 (imap pair (observables model)));
  mret {| xyobs := xout :: yobs; xout := xout; yout := yout; yobs := yobs |}.

(** ** Data comparator *)

(** The guard of lines 220-224. *)
Definition clamp (x : float) : float :=
  if F64.isinf x || F64.isnan x then F64.tiny else x.

(** One turn of the loop over [xspairlist].  The divisions cannot raise:
    numpy's error state is ['warn'] for an invalid operation and is set
    to ['ignore'] for a division by zero, so a quotient by zero is the
    IEEE infinity or NaN. *)
Definition compare_pair (xparray simarray : matrix float) (vardata : bool)
    (pair : nat * nat) : res float :=
  let xparrayaxis := pair.1 in
  let simarrayaxis := pair.2 in
  simt ← index simarray 0;
  simy ← index simarray simarrayaxis;
  tck ← splrep simt simy;
  xpt ← index xparray 0;
  ipsimarray ← splev xpt tck;
  xprow ← index xparray xparrayaxis;
  diffarray ← Np.ewise F64.sub ipsimarray xprow;
  diffsqarray ← Np.ewise F64.mul diffarray diffarray;
  xparrayvar ← (if vardata
                then index xparray (xparrayaxis + 1)
                else let xparrayvar := map (fun x => F64.mul x F64.tenth) xprow in
                     Np.ewise F64.mul xparrayvar xparrayvar);
  let xparrayvar := map (fun x => F64.mul x F64.two) xparrayvar in
  objarray ← Np.ewise F64.div diffsqarray xparrayvar;
  let objarray := map clamp objarray in
  Ok (Np.sum objarray).

(** The pairings are pairs of row indices, which is what the two
    assertions of the loop check. *)
Definition compare_data (xparray simarray : matrix float)
    (xspairlist : list (nat * nat)) (vardata : bool) : res (list float) :=
  mapR (compare_pair xparray simarray vardata) xspairlist.

(** ** Sensitivity evaluator *)

(** Lines 371-374: min-max scaling of every row of the solver output,
    then the time row is put back. *)
Definition normalize (out : matrix float) : res (matrix float) :=
  datamax ← Np.max1 out;
  datamin ← Np.min1 out;
  num ← Np.ewise_mv F64.sub (Np.transpose out) datamin;
  den ← Np.ewise F64.sub datamax datamin;
  quo ← Np.ewise_mv F64.div num den;
  let outlistnorm := Np.transpose quo in
  time ← index out 0;
  Np.setrow (ncols outlistnorm) outlistnorm 0 time.

(** A local variable of [parmeval] that may not have been assigned. *)
Definition read_local {A : Type} (v : option A) : res A :=
  match v with
  | Some a => Ok a
  | None => Raise UnboundLocalError
  end.

(** [True] and [False] where a number is expected. *)
Definition float_of_bool (b : bool) : float := if b then F64.one else F64.zero.

Section Parmeval.
Variables (model : Model) (time : float) (xpdata : matrix float)
  (xspairlist : list (nat * nat)) (ic vardata : bool)
  (useparams : option (list nat)).

(** [odesolve(model, time, envlist, row, useparams, ic)]: the sixth
    positional argument of [odesolve] is [tinit], so [ic] lands there
    and [odesolve]'s own [ic] keeps its default. *)
Definition solve_row (row : list float) : ST Solution :=
  odesolve model time row useparams (float_of_bool ic) true.

(** Loop body of the [norm is True] branch (the same for A, B and C):
    it returns the new value of the local [outlistnorm] and the
    objective vector. *)
Definition body_norm (row : list float) : ST (matrix float * list float) :=
  outlist ← solve_row row;
  outlistnorm ← lift (normalize (xyobs outlist));
  y ← lift (compare_data xpdata outlistnorm xspairlist vardata);
  mret (outlistnorm, y).

(** Loop body for matrix A when [norm] is not [True]. *)
Definition body_raw_A (row : list float) : ST (list float) :=
  outlist ← solve_row row;
  lift (compare_data xpdata (xyobs outlist) xspairlist vardata).

(** Loop body for matrices B and C when [norm] is not [True]: the
    second argument of [compare_data] is the local [outlistnorm]. *)
Definition body_raw_BC (outlistnorm : option (matrix float)) (row : list float)
    : ST (list float) :=
  outlist ← solve_row row;
  on ← lift (read_local outlistnorm);
  lift (compare_data xpdata on xspairlist vardata).

(** One turn of a loop over the rows of a design matrix: [y[i]] is
    filled, and the state of the local [outlistnorm] is carried along. *)
Definition rows_body (norm : bool) (raw : option (matrix float) -> list float -> ST (list float))
    (nobs : nat) (mtx : matrix float)
    (acc : matrix float * option (matrix float)) (i : nat)
    : ST (matrix float * option (matrix float)) :=
  row ← lift (index mtx i);
  if norm
  then r ← body_norm row;
       y' ← lift (Np.setrow nobs acc.1 i r.2);
       mret (y', Some r.1)
  else r ← raw acc.2 row;
       y' ← lift (Np.setrow nobs acc.1 i r);
       mret (y', acc.2).

Definition rows_loop (norm : bool) (raw : option (matrix float) -> list float -> ST (list float))
    (nobs : nat) (mtx : matrix float)
    (acc : matrix float * option (matrix float))
    : ST (matrix float * option (matrix float)) :=
  foldS (rows_body norm raw nobs mtx) acc (seq 0 (nrows mtx)).

(** The progress output ([print], [spinner]) is left out.  [fileobj]
    tells whether a file object was passed.  The inner loop over
    [range(sobmtxC.shape[1])] runs over the rows of [sobmtxC[i]], which
    all have that many rows in a three-axis array. *)
Definition parmeval (sobmtxA sobmtxB : matrix float) (sobmtxC : list (matrix float))
    (norm : bool) (fileobj : bool)
    : ST (matrix float * matrix float * list (matrix float)) :=
  let nobs := length (observable_patterns model) in
  let yA := replicate (nrows sobmtxA) (replicate nobs F64.zero) in
  let yB := replicate (nrows sobmtxB) (replicate nobs F64.zero) in
  let nsamplesC := match sobmtxC with [] => 0 | C0 :: _ => nrows C0 end in
  let yC := replicate (length sobmtxC) (replicate nsamplesC (replicate nobs F64.zero)) in
  a ← rows_loop norm (fun _ => body_raw_A) nobs sobmtxA (yA, None);
  b ← rows_loop norm body_raw_BC nobs sobmtxB (yB, a.2);
  c ← foldS (fun (acc : list (matrix float) * option (matrix float)) i =>
               Ci ← lift (index sobmtxC i);
               yCi ← lift (index acc.1 i);
               r ← rows_loop norm body_raw_BC nobs Ci (yCi, acc.2);
               mret (<[i := r.1]> acc.1, r.2))
            (yC, b.2) (seq 0 (length sobmtxC));
  (* [writetofile(fileobj, params, ...)]: [params] is not a name of this
     function or of the module. *)
  _ ← (if fileobj then lift (Raise NameError) else mret tt);
  mret (a.1, b.1, c.1).
End Parmeval.
End Pipeline.

(** ** Parameter sampler: the log-uniform mapping *)

Inductive ndarray : Type :=
| Arr1 (v : list float)
| Arr2 (M : matrix float).

Section Getlog.
(** C's [pow], behind [**] on float arrays and behind Python's [pow] on
    a negative integer exponent. *)
Variable power : float -> float -> float.

(** [pow(10, m)] as the float it becomes in a product with a float.  For
    [m] above 308 the integer [10 ** m] is beyond the floats and its
    conversion is an error in Python; here it is the infinity, so the
    bounds are meant for magnitudes below that. *)
Definition pow10 (m : Z) : float :=
  if (0 <=? m)%Z then F64.of_Z (10 ^ m) else power (F64.of_Z 10) (F64.of_Z m).

(** Lines 281-287: the bounds [(ub[i], lb[i])]. *)
Definition getlog_bounds (params : list float) (omag : Z) (useparams : list nat)
    (usemag : option Z) : res (list (float * float)) :=
  mapR (fun ip : nat * float =>
          if decide (ip.1 ∈ useparams)
          then match usemag with
               | Some usemag =>
                   Ok (F64.mul ip.2 (pow10 usemag), F64.div ip.2 (pow10 usemag))
               | None => Raise TypeError
               end
          else Ok (F64.mul ip.2 (pow10 omag), F64.div ip.2 (pow10 omag)))
       (imap pair params).

Definition getlog (sobolarr : ndarray) (params : list float) (omag : Z)
    (useparams : list nat) (usemag : option Z) : res ndarray :=
  bounds ← getlog_bounds params omag useparams usemag;
  let ub := bounds.*1 in
  let lb := bounds.*2 in
  ratio ← Np.ewise F64.div ub lb;
  match sobolarr with
  | Arr1 u =>
      pw ← Np.ewise power ratio u;
      r ← Np.ewise F64.mul lb pw;
      Ok (Arr1 r)
  | Arr2 U =>
      pw ← Np.ewise_vm power ratio U;
      r ← Np.ewise_vm F64.mul lb pw;
      Ok (Arr2 r)
  end.
End Getlog.

(** ** Sensitivity estimator *)

(** One turn of the loop of lines 479-481. *)
Definition getvarsens_step (yA yB : matrix float) (yC : list (matrix float))
    (nsamples nobs : nat) (varyA varyB E_s E_st : list float)
    (acc : matrix float * matrix float) (i : nat) : res (matrix float * matrix float) :=
  yCi ← index yC i;
  yAyC ← Np.ewise2 F64.mul yA yCi;
  let U := map (fun s => F64.div s (F64.sub (F64.of_nat nsamples) F64.one))
               (Np.sum0 yAyC) in
  d ← Np.ewise F64.sub U E_s;
  q ← Np.ewise F64.div d varyA;
  Sens' ← Np.setrow nobs acc.1 i q;
  yByC ← Np.ewise2 F64.mul yB yCi;
  let UT := map (fun s => F64.div s (F64.sub (F64.of_nat nsamples) F64.one))
                (Np.sum0 yByC) in
  dT ← Np.ewise F64.sub UT E_st;
  qT ← Np.ewise F64.div dT varyB;
  SensT' ← Np.setrow nobs acc.2 i (map (F64.sub F64.one) qT);
  Ok (Sens', SensT').

Definition getvarsens (yA yB : matrix float) (yC : list (matrix float))
    : res (matrix float * matrix float) :=
  let nparms := length yC in
  let nsamples := match yC with [] => 0 | C0 :: _ => nrows C0 end in
  let nobs := match yC with [] => 0 | C0 :: _ => ncols C0 end in
  varyA ← Np.var0_ddof1 yA;
  varyB ← Np.var0_ddof1 yB;
  yAyB ← Np.ewise2 F64.mul yA yB;
  let E_s := Np.average0 yAyB in
  let E_st := map F64.square (Np.average0 yB) in
  let Sens := replicate nparms (replicate nobs F64.zero) in
  let SensT := replicate nparms (replicate nobs F64.zero) in
  foldR (getvarsens_step yA yB yC nsamples nobs varyA varyB E_s E_st)
        (Sens, SensT) (seq 0 nparms).

(** ** The simulation-record log *)

Definition nl : string := String "010"%char EmptyString.

(** ['{}'.format(n)] for a non-negative integer. *)
Definition show_nat (n : nat) : string :=
  DecimalString.NilEmpty.string_of_uint (Nat.to_uint n).

Section Writetofile.
Context {V : Type}.
(** ['{}'.format(x)] *)
Variable fmt : V -> string.

(** One of the two value loops: [vals[i]] is written, then a line break
    if [(i != 0 and i % k == 0) or i == n - 1], else a comma. *)
Definition write_values (k : nat) (vals : list V) : list string :=
  let n := length vals in
  flat_map (fun iv : nat * V =>
              [fmt iv.2;
               if (negb (iv.1 =? 0) && (iv.1 mod k =? 0)) || (iv.1 =? n - 1)
               then nl else ", "%string])
           (imap pair vals).

(** The strings handed to [fout.write], in order. *)
Definition writetofile (simparms : list V) (simdata : matrix V) (temperature : V)
    : list string :=
  let imax := nrows simdata in
  let jmax := ncols simdata in
  let nparms := length simparms in
  [("# TEMPERATURE" ++ nl ++ fmt temperature ++ nl)%string;
   ("# PARAMETERS (" ++ show_nat (length simparms) ++ ")" ++ nl)%string]
  ++ write_values 5 simparms
  ++ [("# SIMDATA (" ++ show_nat imax ++ "," ++ show_nat jmax ++ ")" ++ nl)%string]
  ++ flat_map (fun ir : nat * list V =>
                 ("# " ++ show_nat ir.1 ++ nl)%string :: write_values 10 (take jmax ir.2))
              (imap pair simdata)
  ++ [("#-------------------------------------------------------------------------------------------------" ++ nl)%string].

(** What ends up in the file. *)
Definition file_text (writes : list string) : string :=
  fold_right String.append EmptyString writes.
End Writetofile.


(** ** Closed forms used by the properties *)

(** The buffer after the stores [p[j] = v] for the pairs [(j, v)] of [l],
    in order. *)
Definition stores (l : list (nat * float)) (p : list float) : list float :=
  fold_left (fun p (jv : nat * float) => <[jv.1 := c_float jv.2]> p) l p.

(** A value that a [c_float] cell can hold. *)
Definition is_single (x : float) : Prop := exists v, x = c_float v.

(** [m] run from [env] leaves an environment related to [env] by [R],
    whether it returns or raises. *)
Definition stable (R : Env -> Env -> Prop) {A : Type} (m : ST A) : Prop :=
  forall env, R env (m env).2.

(** Only the buffer changes under a store. *)
Definition same_but_p (env env' : Env) : Prop :=
  rhs_exprs env' = rhs_exprs env /\ odesize env' = odesize env
  /\ nsteps env' = nsteps env /\ yzero env' = yzero env
  /\ length (data_p env') = length (data_p env).

(** The buffer entry [j] is untouched. *)
Definition p_kept_at (j : nat) (env env' : Env) : Prop :=
  data_p env' !! j = data_p env !! j.

(** The whole buffer is untouched. *)
Definition p_kept (env env' : Env) : Prop := data_p env' = data_p env.

(** The buffer keeps holding single-precision values. *)
Definition single_kept (env env' : Env) : Prop :=
  Forall is_single (data_p env) -> Forall is_single (data_p env').

(** The environments that a caller can hold: the one [odeinit] returns,
    and the one any call of [odesolve] on such an environment leaves,
    whether the call returned or raised. *)
Inductive reachable
  (odeint : (list float -> float -> list float) -> list float -> list float -> matrix float)
  (model : Model) : Env -> Prop :=
| reach_init reltol abstol nsteps env paramarray :
  odeinit model reltol abstol nsteps = Ok (env, paramarray) ->
  reachable odeint model env
| reach_solve env tfinal params useparams tinit ic :
  reachable odeint model env ->
  reachable odeint model (odesolve odeint model tfinal params useparams tinit ic env).2.

(** ** A small model for the examples: [dy/dt = -k * y]

    One species, the parameters [k = 0.1] and [y0 = 1], one observable
    that is the species itself, and a fixed-step explicit Euler scheme
    standing for the integrator. *)

Definition decay_rhs : rhs_code := fun y p =>
  match p !! 0, y !! 0 with
  | Some k, Some y0 => F64.mul (SFopp k) y0
  | _, _ => S754_nan
  end.

Definition decay_model : Model :=
  {| parameters := [ {| name := "k"; value := F64.tenth |};
                     {| name := "y0"; value := F64.one |} ];
     initial_conditions := [ (0, {| name := "y0"; value := F64.one |}) ];
     odes := [decay_rhs];
     observables := [ {| species := [0]; coefficients := [F64.one] |} ];
     observable_patterns := ["y"%string] |}.

Fixpoint euler_steps (rhs : list float -> float -> list float) (y : list float)
    (t : float) (ts : list float) : matrix float :=
  match ts with
  | [] => []
  | t' :: ts' =>
      let y' := zip_with (fun yi di => F64.add yi (F64.mul (F64.sub t' t) di)) y (rhs y t) in
      y' :: euler_steps rhs y' t' ts'
  end.

Definition euler (rhs : list float -> float -> list float) (y0 : list float)
    (ts : list float) : matrix float :=
  match ts with
  | [] => []
  | t0 :: ts' => y0 :: euler_steps rhs y0 t0 ts'
  end.

(** A resampler that is exact at the knots: the value of the series at
    the time point equal to [x], NaN when [x] is not a time point. *)
Definition at_knots (t y x : list float) : list float :=
  map (fun xi => match list_find (fun ty : float * float => SFeqb ty.1 xi = true) (zip t y) with
                 | Some (_, ty) => ty.2
                 | None => S754_nan
                 end) x.

(** The same as a fit and an evaluation.  Like [splrep] with its default
    degree 3, the fit raises [TypeError] for fewer than four points and
    for series of different lengths. *)
Definition knots_splrep (t y : list float) : res (list float * list float) :=
  if decide (length t <= 3) then Raise TypeError
  else if decide (length t = length y) then Ok (t, y)
  else Raise TypeError.

Definition knots_splev (x : list float) (tck : list float * list float) : res (list float) :=
  Ok (at_knots tck.1 tck.2 x).

Definition decay_env : Env :=
  match odeinit decay_model (F64.lit 1 3) (F64.lit 1 3) 5 with
  | Ok (env, _) => env
  | Raise _ =>
      {| rhs_exprs := []; odesize := 0; data_p := []; nsteps := 0; yzero := [];
         reltol := F64.zero; abstol := F64.zero |}
  end.

(** ** The objective as the specification words it *)

(** [(resampled_sim - experimental)^2 / (2 * variance)] at one time point. *)
Definition spec_term (sim xp var : float) : float :=
  F64.div (F64.square (F64.sub sim xp)) (F64.mul F64.two var).

(** The variance series: the row after [exp_row] when variances are
    given, [(0.1 * experimental[exp_row])^2] otherwise. *)
Definition spec_variance (xparray : matrix float) (vardata : bool) (exp_row : nat)
    : list float :=
  if vardata then xparray !!! (exp_row + 1)
  else map (fun x => F64.square (F64.mul F64.tenth x)) (xparray !!! exp_row).

(** The terms of one pairing, one per experimental time point, for the
    resampled simulation [resampled]. *)
Definition spec_terms (resampled : list float) (xparray : matrix float) (vardata : bool)
    (exp_row : nat) : list float :=
  zip_with (fun (sx : float * float) var => spec_term sx.1 sx.2 var)
           (zip resampled (xparray !!! exp_row))
           (spec_variance xparray vardata exp_row).

(** The objective of a pairing as the sum of its terms. *)
Definition spec_objective (resampled : list float) (xparray : matrix float) (vardata : bool)
    (exp_row : nat) : float :=
  Np.sum (spec_terms resampled xparray vardata exp_row).

(** The same with the numerical guard: a term that is infinite or NaN
    counts as [1e-100]. *)
Definition guarded_objective (resampled : list float) (xparray : matrix float)
    (vardata : bool) (exp_row : nat) : float :=
  Np.sum (map clamp (spec_terms resampled xparray vardata exp_row)).

Section SpecObjective.
Context {spline : Type}.
Variable splrep : list float -> list float -> res spline.
Variable splev : list float -> spline -> res (list float).

(** The simulated row of a pairing on the experimental time points, when
    the spline fit and its evaluation return. *)
Definition resampled_sim (xparray simarray : matrix float) (pair : nat * nat)
    : res (list float) :=
  tck ← splrep (simarray !!! 0) (simarray !!! pair.2);
  splev (xparray !!! 0) tck.
End SpecObjective.

(** The pairing reads rows that exist. *)
Definition pair_ok (k : nat) (simarray : matrix float) (vardata : bool)
    (pair : nat * nat) : Prop :=
  pair.1 < k /\ (vardata = true -> pair.1 + 1 < k) /\ pair.2 < length simarray.

Definition is_zero (x : float) : Prop :=
  match x with S754_zero _ => True | _ => False end.

(** An experimental data set whose measured row is all zeros, and a
    simulation that is constantly one on the same time grid. *)
Definition zero_xpdata : matrix float :=
  [[F64.zero; F64.one; F64.two; F64.of_Z 3]; [F64.zero; F64.zero; F64.zero; F64.zero]].
Definition ones_simdata : matrix float :=
  [[F64.zero; F64.one; F64.two; F64.of_Z 3]; [F64.one; F64.one; F64.one; F64.one]].

(** A positive finite binary64 number of at most [2^107] units of
    [2^-385], the exponent of [1e-100]. *)
Definition small_sum (s : float) : Prop :=
  exists m e, s = S754_finite false m e /\ (-385 <= e)%Z /\ (Zpos m * 2 ^ (e + 385) <= 2 ^ 107)%Z.


(** The reduction of a non-empty row by [f], from its first element. *)
Definition fold1 (f : float -> float -> float) (row : list float) : float :=
  match row with
  | [] => F64.zero
  | x :: xs => fold_left f xs x
  end.

(** A row scaled by its own minimum and maximum. *)
Definition minmax_scaled (row : list float) : list float :=
  map (fun x => F64.div (F64.sub x (fold1 F64.minimum row))
                        (F64.sub (fold1 F64.maximum row) (fold1 F64.minimum row)))
      row.

(** One row of the evaluator on the decay model: the parameters
    [k = 0.3], [y0 = 1] solved up to [t = 4]. *)
Definition decay_row : list float := [F64.lit 3 1; F64.one].

Definition decay_solution : Solution :=
  match (solve_row euler decay_model (F64.of_Z 4) true None decay_row decay_env).1 with
  | Ok sol => sol
  | Raise _ => {| xyobs := []; xout := []; yout := []; yobs := [] |}
  end.

Definition decay_env_after : Env :=
  (solve_row euler decay_model (F64.of_Z 4) true None decay_row decay_env).2.

(** ** The sensitivity indices as the specification words them *)

(** The values of column [c], one per sample. *)
Definition col (c : nat) (M : matrix float) : list float :=
  map (fun r : list float => r !!! c) M.

Definition spec_mean (l : list float) : float :=
  F64.div (Np.sum l) (F64.of_nat (length l)).

(** The variance with Bessel's correction. *)
Definition spec_var (l : list float) : float :=
  F64.div (Np.sum (map (fun x => F64.square (F64.sub x (spec_mean l))) l))
          (F64.of_nat (length l - 1)).

(** [n - 1] as the estimator computes it, [nsamples - 1.]. *)
Definition samples_minus_one (n : nat) : float := F64.sub (F64.of_nat n) F64.one.

(** [S[k] = (sum(yA * yC[k]) / (n-1) - mean(yA * yB)) / var(yA)] for one
    observable, given its columns of [yA], [yB] and [yC[k]]. *)
Definition spec_S (a b ck : list float) : float :=
  F64.div (F64.sub (F64.div (Np.sum (zip_with F64.mul a ck)) (samples_minus_one (length a)))
                   (spec_mean (zip_with F64.mul a b)))
          (spec_var a).

(** [ST[k] = 1 - (sum(yB * yC[k]) / (n-1) - mean(yB)^2) / var(yB)] *)
Definition spec_ST (b ck : list float) : float :=
  F64.sub F64.one
    (F64.div (F64.sub (F64.div (Np.sum (zip_with F64.mul b ck)) (samples_minus_one (length b)))
                      (F64.square (spec_mean b)))
             (spec_var b)).

(** Row [k] of [S] and of [ST], one entry per observable. *)
Definition Sens_row (yA yB yCk : matrix float) (m : nat) : list float :=
  map (fun c => spec_S (col c yA) (col c yB) (col c yCk)) (seq 0 m).
Definition SensT_row (yB yCk : matrix float) (m : nat) : list float :=
  map (fun c => spec_ST (col c yB) (col c yCk)) (seq 0 m).

(** ** The log-uniform mapping as the specification words it *)

Section SpecGetlog.
Variable power : float -> float -> float.

(** The order of magnitude that applies to parameter [i]. *)
Definition spec_mag (omag : Z) (useparams : list nat) (usemag : option Z) (i : nat)
    : option Z :=
  if decide (i ∈ useparams) then usemag else Some omag.

Definition spec_ub (x : float) (m : Z) : float := F64.mul x (pow10 power m).
Definition spec_lb (x : float) (m : Z) : float := F64.div x (pow10 power m).

(** [lb * (ub / lb) ^ u] *)
Definition spec_loguniform (x : float) (m : Z) (u : float) : float :=
  F64.mul (spec_lb x m) (power (F64.div (spec_ub x m) (spec_lb x m)) u).
End SpecGetlog.

(** C's [pow] at the exponents 0, 1/2 and 1, where its value is the
    correctly rounded one; NaN stands for the values not tabulated. *)
Definition pow_table (x y : float) : float :=
  if SFeqb y F64.zero then F64.one
  else if SFeqb y F64.one then x
  else if SFeqb y (F64.lit 5 1) then SFsqrt F64.prec F64.emax x
  else S754_nan.

(** * Further code of [gabi_sampling.py] *)

(** ** Closed forms for the stores of [odeinit] and [odesolve] *)

(** The array after the assignments [a[j] = v] for the pairs [(j, v)] of
    [l], in order. *)
Definition inserts {A : Type} (l : list (nat * A)) (a : list A) : list A :=
  fold_left (fun a (jv : nat * A) => <[jv.1 := jv.2]> a) l a.

(** The species indices and values of the initial conditions. *)
Definition ic_values (ics : list (nat * Param)) : list (nat * float) :=
  map (fun ic : nat * Param => (ic.1, value ic.2)) ics.

(** What [M[i] = row] stores in a row of [w] entries: the row itself, or
    its only element repeated. *)
Definition fit {A : Type} (w : nat) (row : list A) : list A :=
  if decide (length row = w) then row
  else match row with
       | [x] => replicate w x
       | _ => row
       end.

(** The first turn of the loop over [useparams] that cannot be carried
    out: [params[i]] does not exist or [useparams[i]] is not an index of
    the buffer. *)
Definition write_fails (numparams : nat) (params : list float) (useparams : list nat)
    (i : nat) : Prop :=
  i < length useparams
  /\ (length params <= i \/ exists j, useparams !! i = Some j /\ numparams <= j)
  /\ forall i', i' < i ->
       i' < length params /\ exists j, useparams !! i' = Some j /\ j < numparams.


(** The stores [(index, value)] that lines 109-116 of [odesolve] carry
    out when none fails. *)
Definition write_targets (useparams : option (list nat)) (params : list float)
    : list (nat * float) :=
  match useparams with
  | None => zip (seq 0 (length params)) params
  | Some useparams => zip useparams params
  end.

(** ** Parameter sampler: the linear mapping *)

(** Lines 311-317 of [getlin]: the bounds [(ub[i], lb[i])]. *)
Definition getlin_bounds (params : list float) (CV : float) (useparams : list nat)
    (useCV : option float) : res (list (float * float)) :=
  mapR (fun ip : nat * float =>
          if decide (ip.1 ∈ useparams)
          then match useCV with
               | Some useCV =>
                   Ok (F64.add ip.2 (F64.mul ip.2 useCV), F64.sub ip.2 (F64.mul ip.2 useCV))
               | None => Raise TypeError
               end
          else Ok (F64.add ip.2 (F64.mul ip.2 CV), F64.sub ip.2 (F64.mul ip.2 CV)))
       (imap pair params).

(** [(u*(ub-lb)) + lb] for a one-axis [u]. *)
Definition getlin_row (ub lb u : list float) : res (list float) :=
  w ← Np.ewise F64.sub ub lb;
  x ← Np.ewise F64.mul u w;
  Np.ewise F64.add x lb.

(** A one-axis array is mapped as a whole; a two-axis array row by row
    into [numpy.zeros_like(sobolarr)].  An array of another rank, for
    which the code prints a message and returns the zeros, is not an
    [ndarray] here. *)
Definition getlin (sobolarr : ndarray) (params : list float) (CV : float)
    (useparams : list nat) (useCV : option float) : res ndarray :=
  bounds ← getlin_bounds params CV useparams useCV;
  let ub := bounds.*1 in
  let lb := bounds.*2 in
  match sobolarr with
  | Arr1 u =>
      r ← getlin_row ub lb u;
      Ok (Arr1 r)
  | Arr2 U =>
      r ← foldR (fun sobprmarr (iu : nat * list float) =>
                   row ← getlin_row ub lb iu.2;
                   Np.setrow (ncols U) sobprmarr iu.1 row)
                (replicate (nrows U) (replicate (ncols U) F64.zero))
                (imap pair U);
      Ok (Arr2 r)
  end.

(** The coefficient of variation that applies to parameter [i]. *)
Definition lin_cv (CV : float) (useparams : list nat) (useCV : option float) (i : nat)
    : option float :=
  if decide (i ∈ useparams) then useCV else Some CV.

Definition lin_ub (x cv : float) : float := F64.add x (F64.mul x cv).
Definition lin_lb (x cv : float) : float := F64.sub x (F64.mul x cv).

(** [u * (ub - lb) + lb] *)
Definition lin_value (x cv u : float) : float :=
  F64.add (F64.mul u (F64.sub (lin_ub x cv) (lin_lb x cv))) (lin_lb x cv).

(** ** Signs *)

(** A float that is zero, finite or infinite with the sign bit clear:
    not NaN, not negative and not the negative zero. *)
Definition nonneg (x : float) : Prop :=
  match x with
  | S754_zero false | S754_infinity false | S754_finite false _ _ => True
  | _ => False
  end.

(** An environment from which [parmeval] solves every row of [p] values
    as it solves it from [env]. *)
Definition solves_alike
    (odeint : (list float -> float -> list float) -> list float -> list float -> matrix float)
    (model : Model) (time : float) (ic : bool) (useparams : option (list nat))
    (p : nat) (env e : Env) : Prop :=
  forall row, length row = p ->
    solve_row odeint model time ic useparams row e
    = solve_row odeint model time ic useparams row env.

(** The evaluator on the decay model: two rows in A, one in B, one C
    matrix of one row. *)
Definition decay_parmeval
    : res (matrix float * matrix float * list (matrix float)) * Env :=
  parmeval euler knots_splrep knots_splev decay_model (F64.of_Z 4) zero_xpdata [(1, 1)] true false None
    [decay_row; [F64.tenth; F64.two]] [decay_row] [[decay_row]] true false decay_env.

Definition decay_yA : matrix float :=
  match decay_parmeval.1 with Ok r => r.1.1 | Raise _ => [] end.
Definition decay_yB : matrix float :=
  match decay_parmeval.1 with Ok r => r.1.2 | Raise _ => [] end.
Definition decay_yC : list (matrix float) :=
  match decay_parmeval.1 with Ok r => r.2 | Raise _ => [] end.
(** * Properties *)

(** ** The error monad and the array primitives *)

Lemma mapR_pure {A B : Type} (g : A -> B) (l : list A) :
  mapR (fun x => Ok (g x)) l = Ok (map g l).
Proof.
  induction l as [|x l IH]; simpl; [done|].
  now rewrite IH.
Qed.

Lemma mapR_ext_Forall {A B : Type} (g h : A -> res B) (l : list A) :
  Forall (fun x => g x = h x) l -> mapR g l = mapR h l.
Proof.
  induction 1 as [|x l Hx _ IH]; simpl; [done|].
  now rewrite Hx, IH.
Qed.

Lemma mapR_length {A B : Type} (g : A -> res B) (l : list A) (l' : list B) :
  mapR g l = Ok l' -> length l' = length l.
Proof.
  revert l'. induction l as [|x l IH]; simpl; intros l' H.
  - now inversion H.
  - destruct (g x) as [y|]; simpl in H; [|done].
    destruct (mapR g l) as [ys|]; simpl in H; [|done].
    inversion H; subst. simpl. now rewrite (IH ys).
Qed.

Lemma index_lt {A : Type} (l : list A) (i : nat) :
  i < length l -> exists x, index l i = Ok x /\ l !! i = Some x.
Proof.
  intros Hi. unfold index.
  destruct (lookup_lt_is_Some_2 l i Hi) as [x Hx].
  exists x. now rewrite Hx.
Qed.

Lemma ewise_same_length {A : Type} (g : A -> A -> A) (a b : list A) :
  length a = length b -> Np.ewise g a b = Ok (zip_with g a b).
Proof.
  intros H. unfold Np.ewise, Np.broadcast.
  destruct (decide (length a = length b)) as [_|Hn]; [|done].
  rewrite (mapR_pure (fun xy : A * A => g xy.1 xy.2)).
  f_equal. clear H. revert b.
  induction a as [|x a IH]; intros [|y b]; simpl; [done..|].
  now rewrite IH.
Qed.

Lemma is_matrix_cons {A : Type} (n p : nat) (r : list A) (M : matrix A) :
  is_matrix (S n) p (r :: M) <-> length r = p /\ is_matrix n p M.
Proof.
  unfold is_matrix. simpl. rewrite Forall_cons. intuition lia.
Qed.

Lemma is_matrix_ncols {A : Type} (n p : nat) (M : matrix A) :
  is_matrix n p M -> 1 <= n -> ncols M = p.
Proof.
  intros [Hn HM] Hpos. destruct M as [|r M]; simpl in *; [lia|].
  now inversion HM.
Qed.

Lemma is_matrix_lookup {A : Type} (n p : nat) (M : matrix A) (i : nat) (r : list A) :
  is_matrix n p M -> M !! i = Some r -> length r = p.
Proof.
  intros [_ HM] Hi. rewrite Forall_lookup in HM. eauto.
Qed.

(** ** C1: the C matrices *)

Section GenCmtxProps.
Context {A : Type}.
Implicit Types (M sobmtxA sobmtxB : matrix A) (r : list A).

Lemma getcol_ok n p M i :
  is_matrix n p M -> i < p ->
  exists col, Np.getcol M i = Ok col /\ length col = n
              /\ Forall2 (fun r x => r !! i = Some x) M col.
Proof.
  revert n. induction M as [|r M IH]; intros n HM Hi.
  - exists []. destruct HM as [<- _]. now repeat split.
  - destruct n as [|n]; [destruct HM; discriminate|].
    apply is_matrix_cons in HM as [Hr HM].
    destruct (IH n HM Hi) as (col & Hcol & Hlen & Hall).
    destruct (index_lt r i) as (x & Hx & Hrx); [lia|].
    exists (x :: col). unfold Np.getcol in *. simpl.
    rewrite Hx, Hcol. simpl. repeat split; [now f_equal|].
    now constructor.
Qed.

Lemma setcol_swap n p sobmtxA sobmtxB k col :
  is_matrix n p sobmtxA -> is_matrix n p sobmtxB -> k < p ->
  Np.getcol sobmtxA k = Ok col ->
  Np.setcol sobmtxB k col = Ok (swapcol sobmtxA sobmtxB k).
Proof.
  intros HA HB Hk Hcol.
  destruct (getcol_ok n p sobmtxA k HA Hk) as (col' & Hcol' & Hlen & Hall).
  rewrite Hcol in Hcol'. inversion Hcol'; subst col'. clear Hcol'.
  destruct (getcol_ok n p sobmtxB k HB Hk) as (colB & HcolB & _ & _).
  unfold Np.setcol. unfold Np.getcol in HcolB. rewrite HcolB. simpl.
  destruct HB as [HnB _]. destruct HA as [HnA _].
  destruct (decide (length col = length sobmtxB)) as [_|Hne]; [|lia].
  f_equal. unfold swapcol. clear Hcol HcolB colB Hlen HnA.
  revert n sobmtxB HnB. induction Hall as [|rA x MA col Hx _ IH]; intros n [|rB MB] HnB; simpl; [done..|].
  rewrite Hx. f_equal. destruct n; [discriminate|]. apply (IH n). simpl in HnB. lia.
Qed.

Lemma swapcol_is_matrix n p sobmtxA sobmtxB k :
  is_matrix n p sobmtxA -> is_matrix n p sobmtxB ->
  is_matrix n p (swapcol sobmtxA sobmtxB k).
Proof.
  unfold swapcol. revert n sobmtxB.
  induction sobmtxA as [|rA MA IH]; intros n [|rB MB] HA HB; simpl;
    try (destruct HA as [<- _]; destruct HB as [HB _]; simpl in HB; try discriminate; now split).
  destruct n as [|n]; [destruct HA; discriminate|].
  apply is_matrix_cons in HA as [HrA HA]. apply is_matrix_cons in HB as [HrB HB].
  apply is_matrix_cons. split; [|now apply IH].
  destruct (rA !! k); [now rewrite length_insert|done].
Qed.

Lemma swapcol_getcol_same n p sobmtxA sobmtxB k :
  is_matrix n p sobmtxA -> is_matrix n p sobmtxB -> k < p ->
  Np.getcol (swapcol sobmtxA sobmtxB k) k = Np.getcol sobmtxA k.
Proof.
  unfold swapcol, Np.getcol. revert n sobmtxB.
  induction sobmtxA as [|rA MA IH]; intros n [|rB MB] HA HB Hk; simpl;
    try (destruct HA as [<- _]; destruct HB as [HB _]; simpl in HB; try discriminate; done).
  destruct n as [|n]; [destruct HA; discriminate|].
  apply is_matrix_cons in HA as [HrA HA]. apply is_matrix_cons in HB as [HrB HB].
  rewrite (IH n MB HA HB Hk).
  destruct (index_lt rA k) as (x & Hx & Hrx); [lia|].
  rewrite Hrx, Hx. unfold index. rewrite list_lookup_insert_eq by lia. done.
Qed.

Lemma swapcol_getcol_other n p sobmtxA sobmtxB k j :
  is_matrix n p sobmtxA -> is_matrix n p sobmtxB -> j <> k ->
  Np.getcol (swapcol sobmtxA sobmtxB k) j = Np.getcol sobmtxB j.
Proof.
  unfold swapcol, Np.getcol. revert n sobmtxB.
  induction sobmtxA as [|rA MA IH]; intros n [|rB MB] HA HB Hk; simpl;
    try (destruct HA as [<- _]; destruct HB as [HB _]; simpl in HB; try discriminate; done).
  destruct n as [|n]; [destruct HA; discriminate|].
  apply is_matrix_cons in HA as [HrA HA]. apply is_matrix_cons in HB as [HrB HB].
  rewrite (IH n MB HA HB Hk).
  destruct (rA !! k); [|done].
  unfold index. rewrite list_lookup_insert_ne by done. done.
Qed.

Lemma genCmtx_step_ok n p sobmtxA sobmtxB (sobmtxC : list (matrix A)) i :
  is_matrix n p sobmtxA -> is_matrix n p sobmtxB -> i < p ->
  sobmtxC !! i = Some sobmtxB ->
  genCmtx_step sobmtxA sobmtxC i = Ok (<[i := swapcol sobmtxA sobmtxB i]> sobmtxC).
Proof.
  intros HA HB Hi HC.
  destruct (getcol_ok n p sobmtxA i HA Hi) as (col & Hcol & _ & _).
  unfold genCmtx_step. rewrite Hcol. simpl.
  unfold index. rewrite HC. simpl.
  now rewrite (setcol_swap n p sobmtxA sobmtxB i col).
Qed.

Lemma genCmtx_loop n p sobmtxA sobmtxB d i :
  is_matrix n p sobmtxA -> is_matrix n p sobmtxB -> i + d = p ->
  foldR (genCmtx_step sobmtxA)
        (map (swapcol sobmtxA sobmtxB) (seq 0 i) ++ replicate d sobmtxB) (seq i d)
  = Ok (map (swapcol sobmtxA sobmtxB) (seq 0 p)).
Proof.
  intros HA HB. revert i. induction d as [|d IH]; intros i Hp; simpl.
  - rewrite app_nil_r. do 3 f_equal. lia.
  - assert (Hlen : length (map (swapcol sobmtxA sobmtxB) (seq 0 i)) = i)
      by now rewrite length_map, length_seq.
    rewrite (genCmtx_step_ok n p sobmtxA sobmtxB); [|done|done|lia|].
    2:{ rewrite lookup_app_r by lia. now rewrite Hlen, Nat.sub_diag. }
    simpl. rewrite insert_app_r_alt by lia. rewrite Hlen, Nat.sub_diag. simpl.
    specialize (IH (S i)). rewrite seq_S, map_app in IH. simpl in IH.
    rewrite <- app_assoc in IH. simpl in IH. apply IH. lia.
Qed.

Lemma genCmtx_closed n p sobmtxA sobmtxB :
  is_matrix n p sobmtxA -> is_matrix n p sobmtxB -> 1 <= n ->
  genCmtx sobmtxA sobmtxB = Ok (map (swapcol sobmtxA sobmtxB) (seq 0 p)).
Proof.
  intros HA HB Hn. unfold genCmtx.
  rewrite (is_matrix_ncols n p sobmtxA HA Hn).
  apply (genCmtx_loop n p sobmtxA sobmtxB p 0 HA HB). lia.
Qed.

(** C1. For matrices A and B of shape (n, p) with n, p >= 1, [genCmtx]
    returns C of shape (p, n, p); column k of C[k] is column k of A and
    every other column j of C[k] is column j of B. *)
Theorem genCmtx_columns (n p : nat) (sobmtxA sobmtxB : matrix A) :
  1 <= n -> 1 <= p ->
  is_matrix n p sobmtxA -> is_matrix n p sobmtxB ->
  exists C, genCmtx sobmtxA sobmtxB = Ok C
    /\ length C = p
    /\ forall k Ck, C !! k = Some Ck ->
         is_matrix n p Ck
         /\ Np.getcol Ck k = Np.getcol sobmtxA k
         /\ forall j, j <> k -> Np.getcol Ck j = Np.getcol sobmtxB j.
Proof.
  intros Hn Hp HA HB. eexists. split; [now apply (genCmtx_closed n p)|].
  split; [now rewrite length_map, length_seq|].
  intros k Ck Hk. apply list_lookup_fmap_Some in Hk as (k' & -> & Hk').
  apply lookup_seq in Hk' as [-> Hlt]. simpl.
  split; [now apply swapcol_is_matrix|].
  split; [now apply (swapcol_getcol_same n p)|].
  intros j Hj. now apply (swapcol_getcol_other n p).
Qed.
End GenCmtxProps.

Lemma genCmtx_columns_witness :
  exists C, genCmtx scenario_A scenario_B = Ok C
    /\ length C = 2
    /\ forall k Ck, C !! k = Some Ck ->
         is_matrix 4 2 Ck
         /\ Np.getcol Ck k = Np.getcol scenario_A k
         /\ forall j, j <> k -> Np.getcol Ck j = Np.getcol scenario_B j.
Proof.
  apply (genCmtx_columns 4 2 scenario_A scenario_B); [lia | lia | | ];
    (split; [reflexivity | repeat constructor]).
Defined.

(** The scenario computed: C[0] is B with the first column of A, C[1] is
    B with the second column of A. *)
Example genCmtx_scenario :
  genCmtx scenario_A scenario_B
  = Ok [ [[F64.lit 1 1; F64.lit 8 1]; [F64.lit 3 1; F64.lit 6 1];
          [F64.lit 5 1; F64.lit 4 1]; [F64.lit 7 1; F64.lit 2 1]];
         [[F64.lit 9 1; F64.lit 2 1]; [F64.lit 7 1; F64.lit 4 1];
          [F64.lit 5 1; F64.lit 6 1]; [F64.lit 3 1; F64.lit 8 1]] ].
Proof. vm_compute. reflexivity. Qed.

(** ** The state monad of the environment *)

Section Stable.
Variable R : Env -> Env -> Prop.
Hypothesis R_refl : forall env, R env env.
Hypothesis R_trans : forall e1 e2 e3, R e1 e2 -> R e2 e3 -> R e1 e3.

Lemma stable_ret {A : Type} (a : A) : stable R (mret a).
Proof. intros env. apply R_refl. Qed.

Lemma stable_lift {A : Type} (r : res A) : stable R (lift r).
Proof. intros env. apply R_refl. Qed.

Lemma stable_get : stable R get_env.
Proof. intros env. apply R_refl. Qed.

Lemma stable_bind {A B : Type} (m : ST A) (k : A -> ST B) :
  stable R m -> (forall a, stable R (k a)) -> stable R (m ≫= k).
Proof.
  intros Hm Hk env. unfold mbind, ST_bind.
  specialize (Hm env). destruct (m env) as [[a|e] env1]; simpl in *; [|done].
  apply (R_trans _ env1); [done|]. apply Hk.
Qed.

Lemma stable_after {A B : Type} (m : ST A) (k : A -> ST B) (env : Env) :
  (forall a, stable R (k a)) -> R (m env).2 ((m ≫= k) env).2.
Proof.
  intros Hk. unfold mbind, ST_bind.
  destruct (m env) as [[a|e] env1]; simpl; [apply Hk|apply R_refl].
Qed.

Lemma stable_foldS {A B : Type} (body : A -> B -> ST A) (l : list B) :
  (forall a x, stable R (body a x)) -> forall a, stable R (foldS body a l).
Proof.
  intros Hb. induction l as [|x l IH]; intros a; simpl.
  - apply stable_ret.
  - apply stable_bind; [apply Hb|apply IH].
Qed.

Lemma stable_forS {B : Type} (l : list B) (body : B -> ST unit) :
  (forall x, stable R (body x)) -> stable R (forS l body).
Proof. intros Hb. apply stable_foldS. intros _ x. apply Hb. Qed.
End Stable.

Lemma bind_Ok_run {A B : Type} (m : ST A) (k : A -> ST B) (env env1 : Env) (a : A) :
  m env = (Ok a, env1) -> (m ≫= k) env = k a env1.
Proof. intros H. unfold mbind, ST_bind. now rewrite H. Qed.

Lemma bind_Raise_run {A B : Type} (m : ST A) (k : A -> ST B) (env env1 : Env) (e : exn) :
  m env = (Raise e, env1) -> (m ≫= k) env = (Raise e, env1).
Proof. intros H. unfold mbind, ST_bind. now rewrite H. Qed.

(** ** C7, C10: the parameter buffer *)

Lemma store_p_run (j : nat) (v : float) (env : Env) :
  store_p j v env =
  if decide (j < length (data_p env))
  then (Ok tt, set_data_p (<[j := c_float v]> (data_p env)) env)
  else (Raise IndexError, env).
Proof.
  unfold store_p, mbind, ST_bind, get_env, lift, modify, set_item. simpl.
  now destruct (decide (j < length (data_p env))).
Qed.

Lemma store_yzero_run (speci : nat) (v : float) (env : Env) :
  store_yzero speci v env =
  if decide (speci < length (yzero env))
  then (Ok tt, set_yzero (<[speci := v]> (yzero env)) env)
  else (Raise IndexError, env).
Proof.
  unfold store_yzero, mbind, ST_bind, get_env, lift, modify, set_item. simpl.
  now destruct (decide (speci < length (yzero env))).
Qed.

(** The loop over the initial conditions returns when the assignments
    are all in range, and then leaves the array they produce; in every
    case only [yzero] has changed. *)
Lemma reset_ics_run (ics : list (nat * Param)) (env : Env) :
  exists yz',
    reset_ics ics env
    = (match assign_ics ics (yzero env) with Ok _ => Ok tt | Raise e => Raise e end,
       set_yzero yz' env)
    /\ forall yz, assign_ics ics (yzero env) = Ok yz -> yz' = yz.
Proof.
  unfold reset_ics, forS, assign_ics.
  revert env. induction ics as [|ic ics IH]; intros env.
  - exists (yzero env). simpl. split; [now destruct env|]. intros yz H. now inversion H.
  - simpl. unfold mbind at 1, ST_bind at 1. rewrite store_yzero_run. unfold set_item.
    destruct (decide (ic.1 < length (yzero env))) as [Hlt|Hge]; simpl.
    + destruct (IH (set_yzero (<[ic.1 := value ic.2]> (yzero env)) env)) as (yz' & Hrun & Hok).
      simpl in Hrun, Hok. exists yz'. split; [|exact Hok].
      rewrite Hrun. done.
    + exists (yzero env). split; [now destruct env|]. discriminate.
Qed.

Lemma same_but_p_refl env : same_but_p env env.
Proof. now repeat split. Qed.

Lemma same_but_p_trans e1 e2 e3 : same_but_p e1 e2 -> same_but_p e2 e3 -> same_but_p e1 e3.
Proof. unfold same_but_p. intros (?&?&?&?&?) (?&?&?&?&?). repeat split; congruence. Qed.

Lemma store_p_same_but_p j v : stable same_but_p (store_p j v).
Proof.
  intros env. rewrite store_p_run. destruct (decide _); simpl.
  - repeat split. simpl. apply length_insert.
  - apply same_but_p_refl.
Qed.

Lemma store_p_frame j j' v : j' <> j -> stable (p_kept_at j) (store_p j' v).
Proof.
  intros Hne env. rewrite store_p_run. unfold p_kept_at.
  destruct (decide _); simpl; [|done].
  now apply list_lookup_insert_ne.
Qed.

Lemma store_p_single j v : stable single_kept (store_p j v).
Proof.
  intros env. rewrite store_p_run. unfold single_kept.
  destruct (decide _); simpl; [|done].
  intros Hall. apply Forall_insert; [done|]. now exists v.
Qed.

Lemma p_kept_at_refl j env : p_kept_at j env env.
Proof. done. Qed.

Lemma p_kept_at_trans j e1 e2 e3 : p_kept_at j e1 e2 -> p_kept_at j e2 e3 -> p_kept_at j e1 e3.
Proof. unfold p_kept_at. congruence. Qed.

Lemma single_kept_refl env : single_kept env env.
Proof. now intros H. Qed.

Lemma single_kept_trans e1 e2 e3 : single_kept e1 e2 -> single_kept e2 e3 -> single_kept e1 e3.
Proof. unfold single_kept. auto. Qed.

Lemma p_kept_refl env : p_kept env env.
Proof. done. Qed.

Lemma p_kept_trans e1 e2 e3 : p_kept e1 e2 -> p_kept e2 e3 -> p_kept e1 e3.
Proof. unfold p_kept. congruence. Qed.

(** Walks through binds, lifts and loops of a computation whose stores are
    left as goals. *)
Ltac stable_steps Hrefl Htrans leaf :=
  repeat first
    [ leaf
    | apply stable_lift; exact Hrefl
    | apply stable_get; exact Hrefl
    | apply stable_ret; exact Hrefl
    | apply stable_bind; [exact Htrans | | intros ?]
    | apply stable_forS; [exact Hrefl | exact Htrans | intros ?]
    | apply stable_foldS; [exact Hrefl | exact Htrans | intros ? ?] ].

Lemma write_params_frame (params : list float) (us : list nat) (j : nat) :
  j ∉ us -> stable (p_kept_at j) (write_params params (Some us)).
Proof.
  intros Hj. unfold write_params.
  apply stable_forS; [exact (p_kept_at_refl j)|exact (p_kept_at_trans j)|]. intros i.
  apply stable_bind; [exact (p_kept_at_trans j)|
                      apply stable_lift; exact (p_kept_at_refl j)|]. intros v.
  intros env. unfold mbind at 1, ST_bind, lift. unfold index.
  destruct (us !! i) as [j'|] eqn:Hi; simpl; [|done].
  apply store_p_frame. intros ->. apply Hj. eapply list_elem_of_lookup_2, Hi.
Qed.

Lemma write_params_single (params : list float) (useparams : option (list nat)) :
  stable single_kept (write_params params useparams).
Proof.
  destruct useparams as [us|]; simpl;
    stable_steps single_kept_refl single_kept_trans ltac:(apply store_p_single).
Qed.

Lemma write_params_same_but_p (params : list float) (useparams : option (list nat)) :
  stable same_but_p (write_params params useparams).
Proof.
  destruct useparams as [us|]; simpl;
    stable_steps same_but_p_refl same_but_p_trans ltac:(apply store_p_same_but_p).
Qed.

Lemma set_data_p_twice p q env : set_data_p p (set_data_p q env) = set_data_p p env.
Proof. done. Qed.

Lemma set_data_p_id env : set_data_p (data_p env) env = env.
Proof. now destruct env. Qed.

(** When every index is in range and [params] is long enough, the loop
    over [useparams] performs the stores one after the other. *)
Lemma write_loop_run (params : list float) (us : list nat) (n k : nat) (env : Env) :
  k + n = length us -> length us <= length params ->
  Forall (fun j => j < length (data_p env)) us ->
  forS (seq k n) (fun i => v ← lift (index params i);
                           j ← lift (index us i);
                           store_p j v) env
  = (Ok tt, set_data_p (stores (zip (drop k us) (drop k params)) (data_p env)) env).
Proof.
  revert k env. induction n as [|n IH]; intros k env Hk Hlen Hall.
  - rewrite (drop_ge us) by lia. simpl. now rewrite set_data_p_id.
  - simpl. unfold forS in *. simpl.
    destruct (index_lt params k) as (v & Hv & Hpv); [lia|].
    destruct (index_lt us k) as (j & Hj & Huj); [lia|].
    assert (Hjlt : j < length (data_p env)).
    { rewrite Forall_lookup in Hall. eauto. }
    erewrite bind_Ok_run; cycle 1.
    { erewrite bind_Ok_run; [|unfold lift; now rewrite Hv].
      erewrite bind_Ok_run; [|unfold lift; now rewrite Hj].
      rewrite store_p_run. destruct (decide _); [reflexivity|lia]. }
    rewrite IH; [|lia|done|simpl; now rewrite length_insert].
    simpl. rewrite set_data_p_twice.
    rewrite (drop_S us j k Huj), (drop_S params v k Hpv). done.
Qed.

Lemma write_params_run (params : list float) (us : list nat) (env : Env) :
  length us <= length params ->
  Forall (fun j => j < length (data_p env)) us ->
  write_params params (Some us) env
  = (Ok tt, set_data_p (stores (zip us params) (data_p env)) env).
Proof.
  intros Hlen Hall. unfold write_params.
  now rewrite (write_loop_run params us (length us) 0 env).
Qed.

Lemma stores_length l p : length (stores l p) = length p.
Proof.
  revert p. induction l as [|jv l IH]; intros p; simpl; [done|].
  unfold stores in IH. now rewrite IH, length_insert.
Qed.

Lemma stores_frame l p j :
  Forall (fun jv : nat * float => jv.1 <> j) l -> stores l p !! j = p !! j.
Proof.
  revert p. induction l as [|jv l IH]; intros p Hall; simpl; [done|].
  inversion Hall; subst. unfold stores in IH. rewrite IH by done.
  now apply list_lookup_insert_ne.
Qed.

(** The last store to an index decides its value. *)
Lemma stores_last_wins l p i j v :
  l !! i = Some (j, v) -> j < length p ->
  (forall i' jv', i < i' -> l !! i' = Some jv' -> jv'.1 <> j) ->
  stores l p !! j = Some (c_float v).
Proof.
  revert p i. induction l as [|jv l IH]; intros p i Hi Hj Hlater; [done|].
  destruct i as [|i]; simpl in *.
  - inversion Hi; subst jv. simpl.
    fold (stores l (<[j := c_float v]> p)). rewrite stores_frame.
    + now apply list_lookup_insert_eq.
    + apply Forall_lookup. intros i' jv' Hi'. apply (Hlater (S i') jv'); [lia|done].
  - fold (stores l (<[jv.1 := c_float jv.2]> p)).
    apply (IH _ i); [done|now rewrite length_insert|].
    intros i' jv' Hlt Hi'. apply (Hlater (S i') jv'); [lia|done].
Qed.

Section OdesolveProps.
Variable odeint : (list float -> float -> list float) -> list float -> list float -> matrix float.

Lemma reset_ics_p_kept ics : stable p_kept (reset_ics ics).
Proof.
  intros env. destruct (reset_ics_run ics env) as (yz' & Hrun & _). now rewrite Hrun.
Qed.

(** After the stores, [odesolve] does not touch the buffer any more. *)
Lemma odesolve_buffer model tfinal params useparams tinit ic env :
  data_p (odesolve odeint model tfinal params useparams tinit ic env).2
  = data_p (write_params params useparams env).2.
Proof.
  unfold odesolve.
  apply (stable_after p_kept p_kept_refl). intros _.
  stable_steps p_kept_refl p_kept_trans ltac:(apply reset_ics_p_kept).
  destruct ic;
    stable_steps p_kept_refl p_kept_trans ltac:(apply reset_ics_p_kept).
Qed.

(** What the integrator is run on: the right-hand sides read the buffer
    of the environment that the call leaves behind. *)
Lemma odesolve_integrates model tfinal params useparams tinit ic env sol env' :
  odesolve odeint model tfinal params useparams tinit ic env = (Ok sol, env') ->
  xout sol = linspace tinit tfinal (nsteps env')
  /\ yout sol = odeint (fun y t => map (fun code : rhs_code => code y (data_p env'))
                                       (rhs_exprs env'))
                       (yzero env') (xout sol)
  /\ xyobs sol = xout sol :: yobs sol.
Proof.
  unfold odesolve, mbind, ST_bind.
  destruct (write_params params useparams env) as [[[]|e] env1]; [|discriminate].
  destruct ic.
  - destruct (reset_ics_run (initial_conditions model) env1) as (yz' & Hreset & Hyz').
    rewrite Hreset. destruct (assign_ics _ _) as [yz|e]; [|discriminate].
    specialize (Hyz' yz eq_refl). subst yz'.
    unfold get_env at 1, lift, mret, ST_ret.
    destruct (foldR _ _ _) as [yo|e]; [|discriminate].
    intros H. inversion H; subst. simpl. done.
  - unfold mret at 1, ST_ret at 1, get_env at 1, lift, mret, ST_ret.
    destruct (foldR _ _ _) as [yo|e]; [|discriminate].
    intros H. inversion H; subst. simpl. done.
Qed.

(** C7. With [useparams] a list of indices, [odesolve] leaves every
    buffer entry whose index is not in [useparams] as it was, and the
    buffer keeps its length; when the indices are in range and [params]
    has a value for each, the entry [useparams[i]] holds [params[i]] as
    the [c_float] cell stores it, for the last such [i] of an index that
    is listed more than once. *)
Theorem odesolve_subset_frame model tfinal params (useparams : list nat) tinit ic env :
  let env' := (odesolve odeint model tfinal params (Some useparams) tinit ic env).2 in
  length (data_p env') = length (data_p env)
  /\ (forall j, j ∉ useparams -> data_p env' !! j = data_p env !! j)
  /\ (Forall (fun j => j < length (data_p env)) useparams ->
      length useparams <= length params ->
      forall i j v,
        useparams !! i = Some j -> params !! i = Some v ->
        (forall i', i < i' -> useparams !! i' <> Some j) ->
        data_p env' !! j = Some (c_float v)).
Proof.
  intros env'. subst env'. rewrite !odesolve_buffer.
  split; [|split].
  - apply (write_params_same_but_p params (Some useparams) env).
  - intros j Hj. now apply (write_params_frame params useparams j Hj env).
  - intros Hall Hlen i j v Hi Hv Hlast.
    rewrite (write_params_run params useparams env Hlen Hall). simpl.
    apply (stores_last_wins _ _ i).
    + apply lookup_zip_with_Some. eauto.
    + rewrite Forall_lookup in Hall. eauto.
    + intros i' [j' v'] Hlt Hi'. simpl.
      apply lookup_zip_with_Some in Hi' as (? & ? & Heq & Hu & _).
      inversion Heq; subst. intros ->. now apply (Hlast i').
Qed.
End OdesolveProps.

Lemma odesolve_subset_frame_witness :
  let env' := (odesolve euler decay_model (F64.of_Z 4) [F64.lit 3 1] (Some [0])
                 F64.zero true decay_env).2 in
  length (data_p env') = 2
  /\ data_p env' !! 1 = data_p decay_env !! 1
  /\ data_p env' !! 0 = Some (c_float (F64.lit 3 1)).
Proof.
  destruct (odesolve_subset_frame euler decay_model (F64.of_Z 4) [F64.lit 3 1] [0]
              F64.zero true decay_env) as (Hlen & Hframe & Hset).
  split; [exact Hlen|]. split.
  - apply Hframe. intros Hin. apply list_elem_of_singleton in Hin. discriminate.
  - apply (Hset ltac:(repeat constructor) ltac:(simpl; lia) 0 0 (F64.lit 3 1));
      [reflexivity|reflexivity|].
    intros [|i'] Hlt; [lia|discriminate].
Defined.

(** The single-precision cell changes the value of [.1]. *)
Example c_float_rounds : c_float F64.tenth <> F64.tenth.
Proof. vm_compute. discriminate. Qed.

Section BufferProps.
Variable odeint : (list float -> float -> list float) -> list float -> list float -> matrix float.

Lemma odeinit_buffer model reltol abstol nsteps env paramarray :
  odeinit model reltol abstol nsteps = Ok (env, paramarray) ->
  data_p env = map (fun p => c_float (value p)) (parameters model)
  /\ paramarray = map value (parameters model).
Proof.
  unfold odeinit. destruct (assign_ics _ _) as [yz|e]; simpl; [|discriminate].
  intros H. inversion H; subst. done.
Qed.

Lemma reachable_single model env :
  reachable odeint model env -> Forall is_single (data_p env).
Proof.
  induction 1 as [rt at' n env pa Hinit | env tf params up ti ic _ IH].
  - apply odeinit_buffer in Hinit as [-> _].
    apply Forall_fmap, Forall_true. intros p. now exists (value p).
  - rewrite odesolve_buffer. now apply (write_params_single params up env).
Qed.

(** C10. The buffer that [odeinit] fills holds the nominal parameter
    values converted by [c_float]; in every environment a caller can
    hold, and after every call of [odesolve] on it, each buffer entry is
    a value converted by [c_float]; and the right-hand sides that the
    integrator evaluates read their parameters from that buffer. *)
Theorem parameters_pass_through_c_float model env :
  reachable odeint model env ->
  (forall reltol abstol nsteps env0 paramarray,
     odeinit model reltol abstol nsteps = Ok (env0, paramarray) ->
     data_p env0 = map (fun p => c_float (value p)) (parameters model))
  /\ Forall is_single (data_p env)
  /\ forall tfinal params useparams tinit ic sol env',
       odesolve odeint model tfinal params useparams tinit ic env = (Ok sol, env') ->
       Forall is_single (data_p env')
       /\ yout sol = odeint (fun y t => map (fun code : rhs_code => code y (data_p env'))
                                            (rhs_exprs env'))
                            (yzero env') (xout sol).
Proof.
  intros Hreach. split; [|split].
  - intros rt at' n env0 pa Hinit. now apply odeinit_buffer in Hinit as [-> _].
  - now apply (reachable_single model).
  - intros tf params up ti ic sol env' Hrun. split.
    + replace env' with (odesolve odeint model tf params up ti ic env).2
        by now rewrite Hrun.
      apply (reachable_single model). now constructor.
    + now apply odesolve_integrates in Hrun as (_ & Hy & _).
Qed.
End BufferProps.

Lemma decay_env_init :
  odeinit decay_model (F64.lit 1 3) (F64.lit 1 3) 5 = Ok (decay_env, [F64.tenth; F64.one]).
Proof. reflexivity. Qed.

Lemma parameters_pass_through_c_float_witness :
  data_p decay_env = [c_float F64.tenth; c_float F64.one]
  /\ Forall is_single (data_p decay_env).
Proof.
  destruct (parameters_pass_through_c_float euler decay_model decay_env
              (reach_init euler decay_model _ _ _ _ _ decay_env_init))
    as (Hinit & Hsingle & _).
  split; [exact (Hinit _ _ _ _ _ decay_env_init)|exact Hsingle].
Defined.

Section FloatRounding.
Local Open Scope Z_scope.

(** ** Rounding in [SpecFloat] *)

Lemma digits2_pos_size (n : positive) : digits2_pos n = Pos.size n.
Proof. induction n; simpl; congruence. Qed.

Lemma digits2_bounds (n : positive) :
  2 ^ (Zpos (digits2_pos n) - 1) <= Zpos n < 2 ^ Zpos (digits2_pos n).
Proof.
  rewrite digits2_pos_size. split.
  - pose proof (Pos.size_le n) as H.
    assert (H2 : 2 ^ Zpos (Pos.size n) <= 2 * Zpos n).
    { change 2 with (Zpos 2) at 1. rewrite <- Pos2Z.inj_pow. exact H. }
    replace (Zpos (Pos.size n)) with (Z.succ (Zpos (Pos.size n) - 1)) in H2 by lia.
    rewrite Z.pow_succ_r in H2 by lia. lia.
  - pose proof (Pos.size_gt n) as H.
    change 2 with (Zpos 2). rewrite <- Pos2Z.inj_pow. exact H.
Qed.

Lemma digits2_lt (n : positive) (d : Z) :
  0 <= d -> Zpos n < 2 ^ d -> Zpos (digits2_pos n) <= d.
Proof.
  intros Hd Hn. destruct (digits2_bounds n) as [Hlo _].
  destruct (Z_le_gt_dec (Zpos (digits2_pos n)) d) as [|Hgt]; [done|].
  assert (2 ^ d <= 2 ^ (Zpos (digits2_pos n) - 1)) by (apply Z.pow_le_mono_r; lia).
  lia.
Qed.

Lemma digits2_ge (n : positive) (d : Z) :
  2 ^ d <= Zpos n -> d + 1 <= Zpos (digits2_pos n).
Proof.
  intros Hn. destruct (digits2_bounds n) as [_ Hhi].
  destruct (Z_le_gt_dec (d + 1) (Zpos (digits2_pos n))) as [|Hgt]; [done|].
  assert (2 ^ Zpos (digits2_pos n) <= 2 ^ d) by (apply Z.pow_le_mono_r; lia).
  lia.
Qed.

Lemma iter_pos_nat {A : Type} (g : A -> A) (p : positive) (x : A) :
  SpecFloat.iter_pos g p x = Nat.iter (Pos.to_nat p) g x.
Proof.
  revert x. induction p as [p IH|p IH|]; intros x.
  - rewrite Pos2Nat.inj_xI. cbn [SpecFloat.iter_pos]. rewrite !IH.
    replace (2 * Pos.to_nat p)%nat with (Pos.to_nat p + Pos.to_nat p)%nat by lia.
    now rewrite Nat.iter_succ_r, Nat.iter_add.
  - rewrite Pos2Nat.inj_xO. cbn [SpecFloat.iter_pos]. rewrite !IH.
    replace (2 * Pos.to_nat p)%nat with (Pos.to_nat p + Pos.to_nat p)%nat by lia.
    now rewrite Nat.iter_add.
  - reflexivity.
Qed.

Lemma shr_1_m (mrs : shr_record) :
  0 <= shr_m mrs ->
  shr_m (shr_1 mrs) = shr_m mrs / 2 /\ shr_r (shr_1 mrs) = Z.odd (shr_m mrs).
Proof.
  destruct mrs as [m r s]. simpl. intros Hm.
  destruct m as [|[p|p|]|p]; simpl; try lia; split; try reflexivity.
  - now rewrite Pos2Z.inj_xI, Z.mul_comm, Z.div_add_l by lia.
  - now rewrite Pos2Z.inj_xO, Z.mul_comm, Z.div_mul by lia.
Qed.

Lemma iter_shr_1 (n : nat) (mrs : shr_record) :
  0 <= shr_m mrs ->
  shr_m (Nat.iter n shr_1 mrs) = shr_m mrs / 2 ^ Z.of_nat n
  /\ shr_r (Nat.iter (S n) shr_1 mrs) = Z.odd (shr_m mrs / 2 ^ Z.of_nat n).
Proof.
  intros Hm. induction n as [|n [IHm IHr]].
  - simpl. rewrite Z.div_1_r. split; [done|]. now apply shr_1_m.
  - assert (Hpos : 0 <= shr_m (Nat.iter (S n) shr_1 mrs)).
    { simpl. destruct (shr_1_m (Nat.iter n shr_1 mrs)) as [-> _].
      - rewrite IHm. apply Z.div_pos; lia.
      - apply Z.div_pos; [|lia]. rewrite IHm. apply Z.div_pos; lia. }
    assert (Hm' : shr_m (Nat.iter (S n) shr_1 mrs) = shr_m mrs / 2 ^ Z.of_nat (S n)).
    { simpl Nat.iter. destruct (shr_1_m (Nat.iter n shr_1 mrs)) as [-> _].
      - rewrite IHm. apply Z.div_pos; lia.
      - rewrite IHm, Nat2Z.inj_succ, Z.pow_succ_r by lia.
        rewrite Z.div_div by lia. f_equal. lia. }
    split; [exact Hm'|].
    change (Nat.iter (S (S n)) shr_1 mrs) with (shr_1 (Nat.iter (S n) shr_1 mrs)).
    destruct (shr_1_m (Nat.iter (S n) shr_1 mrs) Hpos) as [_ ->]. now rewrite Hm'.
Qed.

Lemma pos_iter_xO (m d : positive) : Zpos (Pos.iter xO m d) = Zpos m * 2 ^ Zpos d.
Proof.
  induction d as [|d IH] using Pos.peano_ind.
  - simpl. lia.
  - rewrite Pos.iter_succ, Pos2Z.inj_xO, IH, Pos2Z.inj_succ, Z.pow_succ_r by lia. lia.
Qed.

Lemma shl_align_value (m : positive) (e e' : Z) :
  e' <= e -> Zpos (shl_align m e e').1 = Zpos m * 2 ^ (e - e').
Proof.
  intros He. unfold shl_align.
  destruct (e' - e) as [|p|p] eqn:Hd; simpl.
  - replace (e - e') with 0 by lia. simpl. lia.
  - lia.
  - rewrite pos_iter_xO. f_equal. f_equal. lia.
Qed.

Lemma shl_align_none (m : positive) (e e' : Z) :
  e <= e' -> shl_align m e e' = (m, e).
Proof.
  intros He. unfold shl_align. destruct (e' - e) as [|p|p] eqn:Hd; try reflexivity. lia.
Qed.

(** The first shift of [binary_round_aux] on an exact positive integer
    of at least 53 bits: the mantissa is cut down to 53 bits and the
    round bit is the last bit shifted out. *)
Lemma shr_fexp_exact (n : positive) (e : Z) :
  let d := Zpos (digits2_pos n) in
  let k := d - 53 in
  53 <= d -> -1074 <= d + e - 53 ->
  exists mrs,
    shr_fexp 53 1024 (Zpos n) e loc_Exact = (mrs, e + k)
    /\ shr_m mrs = Zpos n / 2 ^ k
    /\ (1 <= k -> shr_r mrs = Z.odd (Zpos n / 2 ^ (k - 1)))
    /\ (k = 0 -> loc_of_shr_record mrs = loc_Exact).
Proof.
  intros d k Hd He. unfold shr_fexp, fexp, emin. simpl Zdigits2. fold d.
  assert (Hkd : k = d - 53) by reflexivity. clearbody k d.
  replace (Z.max (d + e - 53) (3 - 1024 - 53) - e) with k by lia.
  unfold shr. simpl shr_record_of_loc.
  destruct k as [|p|p] eqn:Hk; [| |lia].
  - eexists. split; [f_equal; lia|]. simpl. rewrite Z.div_1_r. done.
  - rewrite iter_pos_nat.
    destruct (Pos2Nat.is_succ p) as [j Hj]. rewrite Hj.
    destruct (iter_shr_1 j (Build_shr_record (Zpos n) false false)) as [_ Hr]; [simpl; lia|].
    destruct (iter_shr_1 (S j) (Build_shr_record (Zpos n) false false)) as [Hm _]; [simpl; lia|].
    eexists. split; [reflexivity|]. simpl shr_m in *.
    assert (Hp : Zpos p = Z.of_nat (S j)) by lia.
    rewrite Hp. split; [exact Hm|]. split; [|lia].
    intros _. rewrite Hr. do 3 f_equal. lia.
Qed.

Lemma round_nearest_even_bounds (m : Z) (mrs : shr_record) :
  m <= round_nearest_even m (loc_of_shr_record mrs) <= m + 1
  /\ (shr_r mrs = false -> round_nearest_even m (loc_of_shr_record mrs) = m).
Proof.
  destruct mrs as [m0 [|] [|]]; simpl; repeat split; try lia; try discriminate;
    destruct (Z.even m); lia.
Qed.

(** Rounding an exact positive integer of at least 53 bits to binary64:
    the result is finite, its value is at most the integer cut to 53 bits
    plus one unit in the last place, and it is the cut integer when the
    round bit is clear. *)
Lemma round_aux_exact (n : positive) (e : Z) :
  let d := Zpos (digits2_pos n) in
  let k := d - 53 in
  53 <= d -> -1074 <= d + e - 53 -> e + k + 1 <= 971 ->
  exists m3 e3,
    binary_round_aux 53 1024 false (Zpos n) e loc_Exact = S754_finite false m3 e3
    /\ e <= e3 <= e + k + 1
    /\ Zpos m3 * 2 ^ (e3 - e) <= (Zpos n / 2 ^ k + 1) * 2 ^ k
    /\ (1 <= k -> Z.odd (Zpos n / 2 ^ (k - 1)) = false ->
        Zpos m3 * 2 ^ (e3 - e) = Zpos n / 2 ^ k * 2 ^ k).
Proof.
  intros d k Hd He Hmax.
  destruct (shr_fexp_exact n e Hd He) as (mrs & Hshr & Hm & Hr & _).
  fold d in Hshr, Hm, Hr. fold k in Hshr, Hm, Hr.
  assert (Hk : 0 <= k) by (unfold k; lia).
  destruct (digits2_bounds n) as [Hlo Hhi]. fold d in Hlo, Hhi.
  assert (Hd' : d = 53 + k) by (unfold k; lia).
  assert (Hpk : 0 < 2 ^ k) by (apply Z.pow_pos_nonneg; lia).
  assert (Hm1 : 2 ^ 52 <= shr_m mrs < 2 ^ 53).
  { rewrite Hm. split.
    - apply Z.div_le_lower_bound; [lia|].
      replace (d - 1) with (k + 52) in Hlo by lia.
      rewrite Z.pow_add_r in Hlo by lia. lia.
    - apply Z.div_lt_upper_bound; [lia|].
      rewrite Hd', Z.pow_add_r in Hhi by lia. lia. }
  unfold binary_round_aux. rewrite Hshr.
  destruct (round_nearest_even_bounds (shr_m mrs) mrs) as [Hm2 Hdown].
  set (m2 := round_nearest_even (shr_m mrs) (loc_of_shr_record mrs)) in *.
  assert (Hm2pos : 2 ^ 52 <= m2 <= 2 ^ 53) by lia.
  destruct m2 as [|p2|p2] eqn:Hp2; [simpl in Hm2pos; lia| |simpl in Hm2pos; lia].
  assert (Hd2lo : 53 <= Zpos (digits2_pos p2)) by (apply (digits2_ge p2 52); lia).
  assert (Hd2hi : Zpos (digits2_pos p2) <= 54).
  { apply digits2_lt; [lia|]. change (2 ^ 54) with (2 * 2 ^ 53). lia. }
  destruct (shr_fexp_exact p2 (e + k)) as (mrs2 & Hshr2 & Hm3 & _ & _); [lia|lia|].
  rewrite Hshr2.
  set (k2 := Zpos (digits2_pos p2) - 53) in *.
  assert (Hk2 : 0 <= k2 <= 1) by (unfold k2; lia).
  assert (Hpk2 : 0 < 2 ^ k2) by (apply Z.pow_pos_nonneg; lia).
  assert (Hm3pos : 0 < shr_m mrs2).
  { rewrite Hm3. apply Z.div_str_pos. split; [lia|].
    assert (2 ^ k2 <= 2 ^ 1) by (apply Z.pow_le_mono_r; lia).
    change (2 ^ 1) with 2 in *. change (2 ^ 52) with 4503599627370496 in *. lia. }
  destruct (shr_m mrs2) as [|m3|m3] eqn:Hm3eq; [lia| |lia].
  replace (e + k + k2 <=? 1024 - 53) with true by (symmetry; apply Z.leb_le; lia).
  exists m3, (e + k + k2). split; [reflexivity|]. split; [lia|].
  replace (e + k + k2 - e) with (k2 + k) by lia. rewrite Z.pow_add_r by lia.
  assert (Hcut : Zpos m3 * 2 ^ k2 <= Zpos p2).
  { rewrite Hm3, Z.mul_comm. apply Z.mul_div_le. lia. }
  split.
  - rewrite Hm in Hm2. nia.
  - intros Hk1 Hodd. rewrite (Hr Hk1) in Hdown. specialize (Hdown Hodd).
    assert (Hk20 : k2 = 0).
    { unfold k2. assert (Zpos (digits2_pos p2) <= 53); [|lia].
      apply digits2_lt; lia. }
    rewrite Hk20 in *. rewrite Z.pow_0_r, Z.div_1_r in Hm3.
    rewrite Hm3, Hdown, Hm. lia.
Qed.

Lemma tiny_small : small_sum F64.tiny.
Proof. exists 7880401239278896%positive, (-385). repeat split; [lia|]. simpl. lia. Qed.

(** Adding [1e-100] to a sum that is at most [2^107] units of
    [2^-385]: once the sum has reached that size, the addend is less than
    a quarter of a unit in its last place and is absorbed. *)
Lemma add_tiny_small (s : float) : small_sum s -> small_sum (F64.add s F64.tiny).
Proof.
  intros (ms & es & -> & He & HV).
  unfold F64.add, F64.tiny, F64.prec, F64.emax. cbn [SFadd].
  replace (Z.min es (-385)) with (-385) by lia.
  rewrite (shl_align_none 7880401239278896 (-385) (-385)) by lia.
  pose proof (shl_align_value ms es (-385) He) as Hal.
  replace (es - -385) with (es + 385) in Hal by lia.
  set (a := (shl_align ms es (-385)).1) in *.
  cbn [cond_Zopp fst].
  change (Z.pos a + 7880401239278896) with (Zpos (a + 7880401239278896)).
  cbn [binary_normalize].
  set (n := (a + 7880401239278896)%positive).
  assert (Hn : Zpos n = Zpos ms * 2 ^ (es + 385) + 7880401239278896).
  { unfold n. rewrite Pos2Z.inj_add, Hal. reflexivity. }
  assert (Hpos : 0 < Zpos ms * 2 ^ (es + 385)).
  { apply Z.mul_pos_pos; [lia|]. apply Z.pow_pos_nonneg; lia. }
  set (d := Zpos (digits2_pos n)).
  assert (Hdlo : 53 <= d).
  { apply (digits2_ge n 52). change (2 ^ 52) with 4503599627370496. lia. }
  assert (Hdhi : d <= 108).
  { apply digits2_lt; [lia|]. change (2 ^ 108) with (2 * 2 ^ 107).
    change (2 ^ 107) with 162259276829213363391578010288128 in *. lia. }
  unfold binary_round.
  rewrite shl_align_none by (unfold fexp, emin; fold d; lia).
  destruct (round_aux_exact n (-385)) as (m3 & e3 & Hres & He3 & Hval & Hdown);
    fold d; [lia|lia|lia|].
  fold d in He3, Hval, Hdown.
  rewrite Hres. exists m3, e3. split; [reflexivity|]. split; [lia|].
  replace (e3 - -385) with (e3 + 385) in * by lia.
  set (k := d - 53) in *.
  assert (Hk : 0 <= k <= 55) by (unfold k; lia).
  assert (Hpk : 0 < 2 ^ k) by (apply Z.pow_pos_nonneg; lia).
  destruct (digits2_bounds n) as [Hlo Hhi]. fold d in Hlo, Hhi.
  destruct (Z_lt_le_dec (Zpos n) (2 ^ 107)) as [Hlt|Hge].
  - (* below the bound: the cut mantissa plus one is at most 2^53 *)
    assert (Hd107 : d <= 107) by (apply digits2_lt; lia).
    assert (Hq : Zpos n / 2 ^ k < 2 ^ 53).
    { apply Z.div_lt_upper_bound; [lia|].
      replace d with (53 + k) in Hhi by (unfold k; lia).
      rewrite Z.pow_add_r in Hhi by lia. lia. }
    assert (Hk54 : 2 ^ k <= 2 ^ 54) by (apply Z.pow_le_mono_r; unfold k; lia).
    assert (Hq0 : 0 <= Zpos n / 2 ^ k) by (apply Z.div_pos; lia).
    eapply Z.le_trans; [exact Hval|].
    change (2 ^ 107) with (2 ^ 53 * 2 ^ 54).
    apply Z.mul_le_mono_nonneg; lia.
  - (* at the bound: 55 bits are shifted out and the round bit is clear *)
    assert (Hd108 : d = 108).
    { assert (108 <= d); [|lia]. apply (digits2_ge n 107). lia. }
    assert (Hk55 : k = 55) by (unfold k; lia).
    rewrite Hk55 in *.
    assert (Hbit : Zpos n / 2 ^ 54 = 2 ^ 53).
    { symmetry. apply (Z.div_unique_pos _ _ _ (Zpos n - 2 ^ 107)).
      - change (2 ^ 54) with 18014398509481984.
        change (2 ^ 107) with 162259276829213363391578010288128 in *. lia.
      - change (2 ^ 107) with (2 ^ 54 * 2 ^ 53). lia. }
    rewrite Hdown; [|lia|change (55 - 1) with 54; now rewrite Hbit].
    assert (Hcut : Zpos n / 2 ^ 55 = 2 ^ 52).
    { symmetry. apply (Z.div_unique_pos _ _ _ (Zpos n - 2 ^ 107)).
      - change (2 ^ 55) with 36028797018963968.
        change (2 ^ 107) with 162259276829213363391578010288128 in *. lia.
      - change (2 ^ 107) with (2 ^ 55 * 2 ^ 52). lia. }
    rewrite Hcut. change (2 ^ 107) with (2 ^ 52 * 2 ^ 55). lia.
Qed.

Lemma small_sum_finite (s : float) :
  small_sum s -> F64.isinf s = false /\ F64.isnan s = false.
Proof. intros (m & e & -> & _). done. Qed.

Lemma fold_add_tiny_small (n : nat) (s : float) :
  small_sum s -> small_sum (fold_left F64.add (replicate n F64.tiny) s).
Proof.
  revert s. induction n as [|n IH]; intros s Hs; simpl; [done|].
  apply IH. now apply add_tiny_small.
Qed.

(** The sum of any positive number of [1e-100] is a finite number. *)
Lemma sum_tiny_small (n : nat) : small_sum (Np.sum (replicate (S n) F64.tiny)).
Proof.
  unfold Np.sum. simpl. apply fold_add_tiny_small. apply tiny_small.
Qed.
End FloatRounding.

(** ** C4, C5: the data comparator *)

Lemma F64_mul_comm (x y : float) : F64.mul x y = F64.mul y x.
Proof.
  unfold F64.mul.
  destruct x as [sx|sx| |sx mx ex], y as [sy|sy| |sy my ey]; simpl;
    try reflexivity; try (now rewrite xorb_comm).
  now rewrite xorb_comm, Pos.mul_comm, Z.add_comm.
Qed.

Lemma code_terms_spec_terms (ip xp var : list float) :
  zip_with F64.div
    (zip_with F64.mul (zip_with F64.sub ip xp) (zip_with F64.sub ip xp))
    (map (fun x => F64.mul x F64.two) var)
  = zip_with (fun (sx : float * float) v => spec_term sx.1 sx.2 v) (zip ip xp) var.
Proof.
  revert xp var. induction ip as [|a ip IH]; intros [|x xp] [|v var]; simpl; try reflexivity.
  rewrite IH. unfold spec_term, F64.square. now rewrite (F64_mul_comm v).
Qed.

Lemma default_variance_spec (xp : list float) :
  zip_with F64.mul (map (fun x => F64.mul x F64.tenth) xp)
                   (map (fun x => F64.mul x F64.tenth) xp)
  = map (fun x => F64.square (F64.mul F64.tenth x)) xp.
Proof.
  induction xp as [|x xp IH]; simpl; [done|].
  rewrite IH. unfold F64.square. now rewrite (F64_mul_comm x).
Qed.

Lemma index_total {A : Type} `{Inhabited A} (l : list A) (i : nat) :
  i < length l -> index l i = Ok (l !!! i).
Proof.
  intros Hi. destruct (index_lt l i Hi) as (x & Hx & Hl).
  now rewrite Hx, (list_lookup_total_correct l i x Hl).
Qed.

Lemma is_matrix_lookup_total {A : Type} (n p : nat) (M : matrix A) (i : nat) :
  is_matrix n p M -> i < n -> length (M !!! i) = p.
Proof.
  intros HM Hi. destruct (lookup_lt_is_Some_2 M i) as [r Hr]; [destruct HM; lia|].
  rewrite (list_lookup_total_correct M i r Hr). now apply (is_matrix_lookup n p M i).
Qed.

Section CompareProps.
Context {spline : Type}.
Variable splrep : list float -> list float -> res spline.
Variable splev : list float -> spline -> res (list float).
(** [splev] returns one value for each point it is asked about. *)
Hypothesis splev_length : forall x tck r, splev x tck = Ok r -> length r = length x.

Lemma compare_pair_guarded k m xparray simarray vardata pair ip :
  is_matrix k m xparray -> 0 < k -> 0 < length simarray ->
  pair_ok k simarray vardata pair ->
  resampled_sim splrep splev xparray simarray pair = Ok ip ->
  compare_pair splrep splev xparray simarray vardata pair
  = Ok (guarded_objective ip xparray vardata pair.1).
Proof.
  intros HM Hk Hsim (Hp1 & Hp1' & Hp2) Hspline.
  assert (Hlen : length xparray = k) by now destruct HM.
  unfold resampled_sim in Hspline.
  destruct (splrep (simarray !!! 0) (simarray !!! pair.2)) as [tck|e] eqn:Hrep;
    simpl in Hspline; [|discriminate].
  unfold compare_pair, guarded_objective, spec_terms, spec_variance.
  rewrite (index_total simarray 0), (index_total simarray pair.2) by lia. simpl.
  rewrite Hrep. simpl.
  rewrite (index_total xparray 0) by lia. simpl. rewrite Hspline. simpl.
  rewrite (index_total xparray pair.1) by lia. simpl.
  assert (Hip : length ip = m).
  { rewrite (splev_length _ _ _ Hspline). now apply (is_matrix_lookup_total k m). }
  assert (Hrow : length (xparray !!! pair.1) = m) by now apply (is_matrix_lookup_total k m).
  rewrite (ewise_same_length F64.sub) by (now rewrite Hip). simpl.
  destruct vardata.
  - rewrite (ewise_same_length F64.mul) by done. simpl.
    rewrite (index_total xparray (pair.1 + 1)) by (specialize (Hp1' eq_refl); lia). simpl.
    rewrite (ewise_same_length F64.div); cycle 1.
    { pose proof (is_matrix_lookup_total k m xparray (pair.1 + 1) HM (Hp1' eq_refl)) as Hvar.
      rewrite !length_zip_with, length_map. rewrite ?Hip, ?Hrow, ?Hvar. lia. }
    simpl. now rewrite code_terms_spec_terms.
  - rewrite !(ewise_same_length F64.mul) by done. simpl.
    rewrite (ewise_same_length F64.div); cycle 1.
    { rewrite !length_zip_with, !length_map. rewrite ?length_zip_with, ?length_map, ?Hip, ?Hrow. lia. }
    simpl. now rewrite code_terms_spec_terms, default_variance_spec.
Qed.

Lemma compare_data_guarded k m xparray simarray xspairlist vardata ips :
  is_matrix k m xparray -> 0 < k -> 0 < length simarray ->
  Forall (pair_ok k simarray vardata) xspairlist ->
  Forall2 (fun pair ip => resampled_sim splrep splev xparray simarray pair = Ok ip)
          xspairlist ips ->
  compare_data splrep splev xparray simarray xspairlist vardata
  = Ok (zip_with (fun (pair : nat * nat) ip => guarded_objective ip xparray vardata pair.1)
                 xspairlist ips).
Proof.
  intros HM Hk Hsim Hall Hips. unfold compare_data.
  induction Hips as [|pair ip pairs ips Hip _ IH]; simpl; [done|].
  inversion Hall as [|? ? Hpair Hrest]; subst.
  rewrite (compare_pair_guarded k m _ _ _ _ ip) by done. simpl.
  now rewrite IH.
Qed.

(** C5, amended. Where the spline fit returns, [compare_data] returns
    one scalar per pairing, in pairing order; the scalar of a pairing is
    the sum over the experimental time points of (resampled_sim -
    experimental)^2 / (2 * variance), a term that is infinite or NaN
    counting as 1e-100; the variance is the next row of the experimental
    array when [vardata] is true and (0.1 * experimental)^2 otherwise. *)
Theorem compare_data_guarded_objective k m xparray simarray xspairlist vardata ips :
  is_matrix k m xparray -> 0 < k -> 0 < length simarray ->
  Forall (pair_ok k simarray vardata) xspairlist ->
  Forall2 (fun pair ip => resampled_sim splrep splev xparray simarray pair = Ok ip)
          xspairlist ips ->
  exists out,
    compare_data splrep splev xparray simarray xspairlist vardata = Ok out
    /\ length out = length xspairlist
    /\ forall i pair ip, xspairlist !! i = Some pair -> ips !! i = Some ip ->
         out !! i = Some (Np.sum (map clamp (spec_terms ip xparray vardata pair.1))).
Proof.
  intros HM Hk Hsim Hall Hips.
  exists (zip_with (fun (pair : nat * nat) ip => guarded_objective ip xparray vardata pair.1)
                   xspairlist ips).
  split; [now apply (compare_data_guarded k m)|].
  split; [rewrite length_zip_with, <- (Forall2_length _ _ _ Hips); lia|].
  intros i pair ip Hi Hip. now rewrite lookup_zip_with, Hi, Hip.
Qed.

Lemma tenth_finite : F64.tenth = S754_finite false 7205759403792794 (-56).
Proof. reflexivity. Qed.

Lemma two_finite : F64.two = S754_finite false 4503599627370496 (-51).
Proof. reflexivity. Qed.

(** A quotient by zero is an infinity or NaN, whatever the numerator. *)
Lemma div_zero_clamped (x z : float) : is_zero z -> clamp (F64.div x z) = F64.tiny.
Proof. destruct z as [s| | |]; [|done..]. intros _. now destruct x. Qed.

(** The default variance of a zero measurement, doubled, is zero. *)
Lemma zero_default_variance (x : float) :
  is_zero x -> is_zero (F64.mul F64.two (F64.square (F64.mul F64.tenth x))).
Proof.
  destruct x as [s| | |]; [|done..]. intros _.
  rewrite tenth_finite, two_finite. now destruct s.
Qed.

Lemma zero_row_terms (ip xp : list float) :
  Forall is_zero xp -> length ip = length xp ->
  map clamp (zip_with (fun (sx : float * float) v => spec_term sx.1 sx.2 v) (zip ip xp)
                      (map (fun x => F64.square (F64.mul F64.tenth x)) xp))
  = replicate (length xp) F64.tiny.
Proof.
  intros Hz. revert ip. induction Hz as [|x xp Hx _ IH]; intros [|a ip] Hlen;
    simpl in *; try done.
  rewrite IH by lia. f_equal. unfold spec_term.
  apply div_zero_clamped. now apply zero_default_variance.
Qed.

Lemma sum_tiny_finite (n : nat) :
  F64.isinf (Np.sum (replicate n F64.tiny)) = false
  /\ F64.isnan (Np.sum (replicate n F64.tiny)) = false.
Proof.
  destruct n as [|n]; [done|]. apply small_sum_finite, sum_tiny_small.
Qed.

(** C4. When the experimental row of every pairing is all zeros and no
    variances are given, [compare_data] returns wherever the spline fit
    of every pairing returns: every term of every pairing has a zero
    denominator and is replaced by 1e-100, the objective of a pairing is
    the sum of these constants over the time points, and it is neither
    infinite nor NaN. *)
Theorem compare_data_zero_rows k m xparray simarray xspairlist ips :
  is_matrix k m xparray -> 0 < k -> 0 < length simarray ->
  Forall (pair_ok k simarray false) xspairlist ->
  Forall2 (fun pair ip => resampled_sim splrep splev xparray simarray pair = Ok ip)
          xspairlist ips ->
  Forall (fun pair : nat * nat => Forall is_zero (xparray !!! pair.1)) xspairlist ->
  exists out,
    compare_data splrep splev xparray simarray xspairlist false = Ok out
    /\ length out = length xspairlist
    /\ Forall2 (fun (pair : nat * nat) ip =>
                  map clamp (spec_terms ip xparray false pair.1) = replicate m F64.tiny)
               xspairlist ips
    /\ Forall (fun y => y = Np.sum (replicate m F64.tiny)
                        /\ F64.isinf y = false /\ F64.isnan y = false) out.
Proof.
  intros HM Hk Hsim Hok Hips Hzero.
  assert (Hterms : Forall2 (fun (pair : nat * nat) ip =>
                              map clamp (spec_terms ip xparray false pair.1)
                              = replicate m F64.tiny) xspairlist ips).
  { apply Forall2_same_length_lookup. split; [exact (Forall2_length _ _ _ Hips)|].
    intros i pair ip Hi Hip.
    rewrite Forall_lookup in Hok, Hzero. destruct (Hok i pair Hi) as (Hp1 & _ & _).
    pose proof (is_matrix_lookup_total k m xparray pair.1 HM Hp1) as Hrow.
    pose proof (Forall2_lookup_lr _ _ _ _ _ _ Hips Hi Hip) as Hspline.
    unfold resampled_sim in Hspline.
    destruct (splrep _ _) as [tck|e]; simpl in Hspline; [|discriminate].
    unfold spec_terms, spec_variance.
    rewrite zero_row_terms; [now rewrite Hrow|now apply (Hzero i)|].
    rewrite (splev_length _ _ _ Hspline), Hrow.
    apply (is_matrix_lookup_total k m); [done|lia]. }
  exists (zip_with (fun (pair : nat * nat) ip => guarded_objective ip xparray false pair.1)
                   xspairlist ips).
  split; [now apply (compare_data_guarded k m)|].
  split; [rewrite length_zip_with, <- (Forall2_length _ _ _ Hips); lia|].
  split; [exact Hterms|].
  apply Forall_lookup. intros i y Hy.
  apply lookup_zip_with_Some in Hy as (pair & ip & -> & Hi & Hip).
  pose proof (Forall2_lookup_lr _ _ _ _ _ _ Hterms Hi Hip) as Hpair. simpl in Hpair.
  unfold guarded_objective. rewrite Hpair.
  split; [done|]. apply sum_tiny_finite.
Qed.
End CompareProps.

Lemma knots_splev_length (x : list float) (tck : list float * list float) (r : list float) :
  knots_splev x tck = Ok r -> length r = length x.
Proof. unfold knots_splev, at_knots. intros H. inversion H. apply length_map. Qed.

Lemma compare_data_guarded_objective_witness :
  exists out,
    compare_data knots_splrep knots_splev zero_xpdata ones_simdata [(1, 1)] false = Ok out
    /\ length out = 1
    /\ forall i pair ip, [(1, 1)] !! i = Some pair ->
         [[F64.one; F64.one; F64.one; F64.one]] !! i = Some ip ->
         out !! i = Some (Np.sum (map clamp (spec_terms ip zero_xpdata false pair.1))).
Proof.
  apply (compare_data_guarded_objective knots_splrep knots_splev knots_splev_length 2 4);
    [split; [reflexivity|repeat constructor] | lia | simpl; lia | | ].
  - repeat constructor; simpl; try lia; try discriminate.
  - repeat constructor.
Defined.

(** C5 as the specification words it fails on an all-zero row: the
    spline fit returns the simulated ones, the sum of the unguarded terms
    is infinite, the code returns 4e-100. *)
Lemma compare_data_unguarded_counterexample :
  resampled_sim knots_splrep knots_splev zero_xpdata ones_simdata (1, 1)
  = Ok [F64.one; F64.one; F64.one; F64.one]
  /\ compare_data knots_splrep knots_splev zero_xpdata ones_simdata [(1, 1)] false
     <> Ok [spec_objective [F64.one; F64.one; F64.one; F64.one] zero_xpdata false 1].
Proof. split; [reflexivity|]. vm_compute. discriminate. Qed.

Lemma compare_data_zero_rows_witness :
  exists out,
    compare_data knots_splrep knots_splev zero_xpdata ones_simdata [(1, 1)] false = Ok out
    /\ length out = 1
    /\ Forall2 (fun (pair : nat * nat) ip =>
                  map clamp (spec_terms ip zero_xpdata false pair.1) = replicate 4 F64.tiny)
               [(1, 1)] [[F64.one; F64.one; F64.one; F64.one]]
    /\ Forall (fun y => y = Np.sum (replicate 4 F64.tiny)
                        /\ F64.isinf y = false /\ F64.isnan y = false) out.
Proof.
  apply (compare_data_zero_rows knots_splrep knots_splev knots_splev_length 2 4 zero_xpdata
           ones_simdata [(1, 1)] [[F64.one; F64.one; F64.one; F64.one]]);
    [split; [reflexivity|repeat constructor] | lia | simpl; lia | | | ].
  - repeat constructor; simpl; try lia; try discriminate.
  - repeat constructor.
  - repeat constructor.
Defined.

(** ** C6: min-max normalisation *)

Section Transpose.
Context {A : Type} `{Inhabited A}.
Implicit Types (M : matrix A) (l : list A).

Lemma list_as_lookups l : l = map (fun c => l !!! c) (seq 0 (length l)).
Proof.
  apply list_eq. intros i. rewrite list_lookup_fmap.
  destruct (decide (i < length l)) as [Hi|Hi].
  - rewrite lookup_seq_lt by done. simpl.
    destruct (lookup_lt_is_Some_2 l i Hi) as [x Hx].
    now rewrite Hx, (list_lookup_total_correct l i x Hx).
  - rewrite lookup_seq_ge by lia. simpl. apply lookup_ge_None_2. lia.
Qed.

Lemma transpose_is_matrix n p M :
  is_matrix n p M -> 1 <= n -> is_matrix p n (Np.transpose M).
Proof.
  intros HM Hn. unfold Np.transpose. rewrite (is_matrix_ncols n p M HM Hn).
  split; [now rewrite length_map, length_seq|].
  apply Forall_fmap, Forall_true. intros c. simpl. rewrite length_map. now destruct HM.
Qed.

(** Working on the columns of the transpose is working on the rows. *)
Lemma transpose_conj {B : Type} (g : A -> B -> A) n p M (v : list B) :
  is_matrix n p M -> length v = n -> 1 <= n -> 1 <= p ->
  Np.transpose (map (fun xrow => zip_with g xrow v) (Np.transpose M))
  = zip_with (fun row x => map (fun y => g y x) row) M v.
Proof.
  intros HM Hv Hn Hp.
  assert (HlenM : length M = n) by now destruct HM.
  unfold Np.transpose at 2. rewrite (is_matrix_ncols n p M HM Hn).
  rewrite map_map.
  unfold Np.transpose.
  assert (Hcols : ncols (map (fun c => zip_with g (map (fun r : list A => r !!! c) M) v) (seq 0 p)) = n).
  { destruct p as [|p]; [lia|]. simpl. rewrite length_zip_with, length_map. lia. }
  rewrite Hcols. apply list_eq. intros r.
  rewrite list_lookup_fmap, lookup_zip_with.
  destruct (decide (r < n)) as [Hr|Hr].
  - rewrite lookup_seq_lt by done. simpl.
    destruct (lookup_lt_is_Some_2 M r) as [row Hrow]; [lia|].
    destruct (lookup_lt_is_Some_2 v r) as [x Hx]; [lia|].
    rewrite Hrow, Hx. simpl. f_equal.
    rewrite map_map.
    rewrite (list_as_lookups row) at 1.
    rewrite (is_matrix_lookup n p M r row HM Hrow), map_map.
    apply map_ext. intros c.
    apply list_lookup_total_correct.
    rewrite lookup_zip_with, list_lookup_fmap, Hrow, Hx. done.
  - rewrite lookup_seq_ge by lia. simpl.
    rewrite (lookup_ge_None_2 M r) by lia. done.
Qed.
End Transpose.

Lemma reduce1_fold1 (g : float -> float -> float) (row : list float) :
  1 <= length row -> Np.reduce1 g row = Ok (fold1 g row).
Proof. destruct row; simpl; [lia|done]. Qed.

Lemma reduce_rows (g : float -> float -> float) n p (M : matrix float) :
  is_matrix n p M -> 1 <= p -> mapR (Np.reduce1 g) M = Ok (map (fold1 g) M).
Proof.
  intros [_ HM] Hp. rewrite <- mapR_pure. apply mapR_ext_Forall.
  eapply Forall_impl; [exact HM|]. intros row Hrow. simpl in Hrow. apply reduce1_fold1. lia.
Qed.

Lemma broadcast_singleton_r {A B C : Type} (g : A -> B -> res C) (a : list A) (y : B) :
  1 <= length a -> Np.broadcast g a [y] = mapR (fun x => g x y) a.
Proof.
  intros Ha. unfold Np.broadcast.
  destruct (decide (length a = length [y])) as [Heq|Hne].
  - destruct a as [|x [|x' a]]; simpl in *; try lia. done.
  - destruct a as [|x [|x' a]]; simpl in *; try lia. done.
Qed.

(** A matrix combined with a vector along its rows. *)
Lemma ewise_mv_rows (g : float -> float -> float) n p (M : matrix float) (v : list float) :
  is_matrix n p M -> 1 <= n -> length v = p ->
  Np.ewise_mv g M v = Ok (map (fun row => zip_with g row v) M).
Proof.
  intros [Hn HM] Hpos Hv. unfold Np.ewise_mv, Np.ewise2.
  rewrite broadcast_singleton_r by lia.
  rewrite <- mapR_pure. apply mapR_ext_Forall.
  eapply Forall_impl; [exact HM|]. intros row Hrow. simpl in *.
  apply ewise_same_length. lia.
Qed.

Lemma zip_with_nested (a b c : list float) :
  zip_with F64.div (zip_with F64.sub a b) c
  = zip_with (fun x (p : float * float) => F64.div (F64.sub x p.1) p.2) a (zip b c).
Proof.
  revert b c. induction a as [|x a IH]; intros [|y b] [|z c]; simpl; try done.
  now rewrite IH.
Qed.

Lemma setrow_same_width {A : Type} (w : nat) (M : matrix A) (i : nat) (row : list A) :
  i < length M -> length row = w -> Np.setrow w M i row = Ok (<[i := row]> M).
Proof.
  intros Hi Hw. unfold Np.setrow.
  destruct (index_lt M i Hi) as (r & -> & _). simpl.
  now destruct (decide (length row = w)).
Qed.

(** The closed form of [normalize]: every row scaled, then row 0 put back. *)
Lemma normalize_closed n p (out : matrix float) (time : list float) :
  is_matrix n p out -> 1 <= n -> 1 <= p -> out !! 0 = Some time ->
  normalize out = Ok (<[0 := time]> (map minmax_scaled out)).
Proof.
  intros HM Hn Hp Htime.
  assert (Hlen : length out = n) by now destruct HM.
  unfold normalize, Np.max1, Np.min1.
  rewrite (reduce_rows F64.maximum n p), (reduce_rows F64.minimum n p) by done. simpl.
  pose proof (transpose_is_matrix n p out HM Hn) as HT.
  rewrite (ewise_mv_rows F64.sub p n) by (done || now rewrite length_map). simpl.
  rewrite (ewise_same_length F64.sub) by now rewrite !length_map. simpl.
  rewrite (ewise_mv_rows F64.div p n); cycle 1.
  { destruct HT as [HTn HTr]. split; [now rewrite length_map|].
    apply Forall_fmap. eapply Forall_impl; [exact HTr|]. intros row Hrow. simpl in *.
    rewrite length_zip_with, length_map. lia. }
  { done. }
  { rewrite length_zip_with, !length_map. lia. }
  simpl. rewrite map_map.
  rewrite (map_ext _ (fun xrow => zip_with (fun x (q : float * float) => F64.div (F64.sub x q.1) q.2)
                                   xrow
                                   (zip (map (fold1 F64.minimum) out)
                                        (zip_with F64.sub (map (fold1 F64.maximum) out)
                                                          (map (fold1 F64.minimum) out)))))
    by (intros xrow; apply zip_with_nested).
  rewrite (transpose_conj _ n p) by (done || rewrite length_zip_with, length_zip_with, !length_map; lia).
  assert (Hscaled :
    zip_with (fun (row : list float) (x : float * float) =>
                map (fun y => F64.div (F64.sub y x.1) x.2) row) out
             (zip (map (fold1 F64.minimum) out)
                  (zip_with F64.sub (map (fold1 F64.maximum) out) (map (fold1 F64.minimum) out)))
    = map minmax_scaled out).
  { clear. induction out as [|row out IH]; simpl; [done|]. now rewrite IH. }
  rewrite Hscaled.
  unfold index. rewrite Htime. simpl.
  apply setrow_same_width; [rewrite length_map; lia|].
  rewrite (is_matrix_lookup n p out 0 time HM Htime).
  destruct out as [|row out]; simpl in *; [lia|].
  unfold minmax_scaled. rewrite length_map. symmetry.
  now apply (is_matrix_lookup n p (row :: out) 0 row HM).
Qed.

(** C6 on the normalisation itself: the time row of the solver output is
    the time row of the normalised array, every other row is scaled by
    its own minimum and maximum. *)
Lemma normalize_rows n p (out : matrix float) :
  is_matrix n p out -> 1 <= n -> 1 <= p ->
  exists outlistnorm,
    normalize out = Ok outlistnorm
    /\ is_matrix n p outlistnorm
    /\ outlistnorm !! 0 = out !! 0
    /\ forall r row, 1 <= r -> out !! r = Some row ->
         outlistnorm !! r = Some (minmax_scaled row).
Proof.
  intros HM Hn Hp.
  destruct (lookup_lt_is_Some_2 out 0) as [time Htime]; [destruct HM; lia|].
  exists (<[0 := time]> (map minmax_scaled out)).
  split; [now apply (normalize_closed n p)|].
  split; [|split].
  - destruct HM as [Hlen HM]. split; [now rewrite length_insert, length_map|].
    apply Forall_insert.
    + apply Forall_fmap. eapply Forall_impl; [exact HM|].
      intros row Hrow. simpl in *. unfold minmax_scaled. now rewrite length_map.
    + rewrite Forall_lookup in HM. eauto.
  - rewrite Htime. apply list_lookup_insert_eq. rewrite length_map. destruct HM; lia.
  - intros r row Hr Hrow. rewrite list_lookup_insert_ne by lia.
    now rewrite list_lookup_fmap, Hrow.
Qed.

Lemma length_linspace (start stop : float) (num : nat) :
  length (linspace start stop num) = num.
Proof.
  destruct num as [|[|num]]; [done..|].
  unfold linspace. now rewrite length_insert, length_map, length_seq.
Qed.

Lemma setrow_is_matrix {A : Type} n w (M M' : matrix A) i row :
  is_matrix n w M -> Np.setrow w M i row = Ok M' -> is_matrix n w M'.
Proof.
  intros [Hn HM]. unfold Np.setrow.
  destruct (index M i) as [r|e]; simpl; [|discriminate].
  destruct (decide (length row = w)) as [Hw|Hw].
  - intros Heq. inversion Heq; subst M'. split; [now rewrite length_insert|].
    now apply Forall_insert.
  - destruct row as [|x [|x' row]]; try discriminate.
    intros Heq. inversion Heq; subst M'. split; [now rewrite length_insert|].
    apply Forall_insert; [done|]. apply length_replicate.
Qed.

Lemma foldR_setrow_is_matrix {A B : Type} n w (g : B -> res (list A)) (h : B -> nat)
    (l : list B) (M M' : matrix A) :
  is_matrix n w M ->
  foldR (fun M x => row ← g x; Np.setrow w M (h x) row) M l = Ok M' ->
  is_matrix n w M'.
Proof.
  revert M. induction l as [|x l IH]; intros M HM; simpl.
  - intros Heq. now inversion Heq; subst.
  - destruct (g x) as [row|e]; simpl; [|discriminate].
    destruct (Np.setrow w M (h x) row) as [M1|e] eqn:Hset; simpl; [|discriminate].
    apply IH. now apply (setrow_is_matrix n w M M1 (h x) row).
Qed.

Section NormProps.
Variable odeint : (list float -> float -> list float) -> list float -> list float -> matrix float.
Context {spline : Type}.
Variable splrep : list float -> list float -> res spline.
Variable splev : list float -> spline -> res (list float).

(** What [odesolve] returns is a time row followed by one row per
    observable, all of [nsteps] values. *)
Lemma odesolve_shape model tfinal params useparams tinit ic env sol env' :
  odesolve odeint model tfinal params useparams tinit ic env = (Ok sol, env') ->
  is_matrix (S (length (observables model))) (nsteps env') (xyobs sol)
  /\ xyobs sol !! 0 = Some (xout sol).
Proof.
  intros Hrun.
  destruct (odesolve_integrates odeint _ _ _ _ _ _ _ _ _ Hrun) as (Hx & _ & Hxy).
  rewrite Hxy. split; [|done].
  revert Hrun. unfold odesolve, mbind, ST_bind.
  destruct (write_params params useparams env) as [[[]|e] env1]; [|discriminate].
  destruct ic.
  - destruct (reset_ics_run (initial_conditions model) env1) as (yz' & Hreset & Hyz').
    rewrite Hreset. destruct (assign_ics _ _) as [yz|e]; [|discriminate].
    specialize (Hyz' yz eq_refl). subst yz'.
    unfold get_env at 1, lift, mret, ST_ret.
    destruct (foldR _ _ _) as [yo|e] eqn:Hfold; [|discriminate].
    intros Heq. inversion Heq; subst. simpl in *.
    apply is_matrix_cons. split; [apply length_linspace|].
    revert Hfold. apply foldR_setrow_is_matrix.
    split; [apply length_replicate|]. apply Forall_replicate, length_replicate.
  - unfold mret at 1, ST_ret at 1, get_env at 1, lift, mret, ST_ret.
    destruct (foldR _ _ _) as [yo|e] eqn:Hfold; [|discriminate].
    intros Heq. inversion Heq; subst. simpl in *.
    apply is_matrix_cons. split; [apply length_linspace|].
    revert Hfold. apply foldR_setrow_is_matrix.
    split; [apply length_replicate|]. apply Forall_replicate, length_replicate.
Qed.

(** With [norm] true, a turn of any of the three loops of [parmeval] is
    [body_norm] on the row, whose result fills [y[i]]. *)
Lemma rows_body_norm model time xpdata xspairlist ic vardata useparams raw nobs mtx acc i :
  rows_body odeint splrep splev model time xpdata xspairlist ic vardata useparams
    true raw nobs mtx acc i
  = (row ← lift (index mtx i);
     r ← body_norm odeint splrep splev model time xpdata xspairlist ic vardata useparams row;
     y' ← lift (Np.setrow nobs acc.1 i r.2);
     mret (y', Some r.1)).
Proof. reflexivity. Qed.

(** C6. In the [norm is True] branch of [parmeval], the array handed to
    [compare_data] for a row is the normalised solver output: its row 0
    is the time row of the solver output, and each other row is the
    solver's row scaled by that row's own minimum and maximum. *)
Theorem parmeval_norm_keeps_time model time xpdata xspairlist ic vardata useparams
    (row : list float) (env env' : Env) (sol : Solution) :
  solve_row odeint model time ic useparams row env = (Ok sol, env') ->
  1 <= nsteps env' ->
  exists outlistnorm,
    normalize (xyobs sol) = Ok outlistnorm
    /\ body_norm odeint splrep splev model time xpdata xspairlist ic vardata useparams row env
       = (y ← compare_data splrep splev xpdata outlistnorm xspairlist vardata;
          Ok (outlistnorm, y), env')
    /\ outlistnorm !! 0 = Some (xout sol)
    /\ xyobs sol !! 0 = Some (xout sol)
    /\ forall r obsrow, 1 <= r -> xyobs sol !! r = Some obsrow ->
         outlistnorm !! r = Some (minmax_scaled obsrow).
Proof.
  intros Hrun Hsteps.
  assert (Hsolve : odesolve odeint model time row useparams (float_of_bool ic) true env
                   = (Ok sol, env')) by exact Hrun.
  destruct (odesolve_shape _ _ _ _ _ _ _ _ _ Hsolve) as [Hshape Htime].
  destruct (normalize_rows _ _ _ Hshape) as (on & Hnorm & _ & Hrow0 & Hrows); [lia|done|].
  exists on. split; [done|]. split; [|split; [congruence|split; [done|exact Hrows]]].
  unfold body_norm. rewrite (bind_Ok_run _ _ _ _ _ Hrun).
  unfold mbind, ST_bind, lift. rewrite Hnorm.
  destruct (compare_data _ _ _ _ _); done.
Qed.
End NormProps.

Lemma decay_solve_run :
  solve_row euler decay_model (F64.of_Z 4) true None decay_row decay_env
  = (Ok decay_solution, decay_env_after).
Proof. reflexivity. Qed.

Lemma parmeval_norm_keeps_time_witness :
  exists outlistnorm,
    normalize (xyobs decay_solution) = Ok outlistnorm
    /\ body_norm euler knots_splrep knots_splev decay_model (F64.of_Z 4) zero_xpdata [(1, 1)] true false None
         decay_row decay_env
       = (y ← compare_data knots_splrep knots_splev zero_xpdata outlistnorm [(1, 1)] false;
          Ok (outlistnorm, y), decay_env_after)
    /\ outlistnorm !! 0 = Some (xout decay_solution)
    /\ xyobs decay_solution !! 0 = Some (xout decay_solution)
    /\ forall r obsrow, 1 <= r -> xyobs decay_solution !! r = Some obsrow ->
         outlistnorm !! r = Some (minmax_scaled obsrow).
Proof.
  apply (parmeval_norm_keeps_time euler knots_splrep knots_splev decay_model (F64.of_Z 4) zero_xpdata
           [(1, 1)] true false None decay_row decay_env decay_env_after decay_solution
           decay_solve_run).
  vm_compute. lia.
Defined.

(** ** C2: the sensitivity estimator *)

Lemma map_seq_ext {A : Type} (g h : nat -> A) (m : nat) :
  (forall c, c < m -> g c = h c) -> map g (seq 0 m) = map h (seq 0 m).
Proof.
  intros Hext. apply map_ext_in. intros c Hc. apply in_seq in Hc. apply Hext. lia.
Qed.

Lemma zip_with_map_seq {A B C : Type} (g : A -> B -> C) (f1 : nat -> A) (f2 : nat -> B)
    (l : list nat) :
  zip_with g (map f1 l) (map f2 l) = map (fun c => g (f1 c) (f2 c)) l.
Proof. induction l as [|x l IH]; simpl; [done|]. now rewrite IH. Qed.

Lemma col_length c (M : matrix float) : length (col c M) = length M.
Proof. apply length_map. Qed.

Lemma lookup_total_zip_with (g : float -> float -> float) (a b : list float) (c : nat) :
  c < length a -> c < length b ->
  zip_with g a b !!! c = g (a !!! c) (b !!! c).
Proof.
  intros Ha Hb.
  destruct (lookup_lt_is_Some_2 a c Ha) as [x Hx].
  destruct (lookup_lt_is_Some_2 b c Hb) as [y Hy].
  apply list_lookup_total_correct.
  rewrite lookup_zip_with, Hx, Hy. simpl.
  now rewrite (list_lookup_total_correct a c x Hx), (list_lookup_total_correct b c y Hy).
Qed.

(** Adding rows up is summing each column. *)
Lemma fold_rows_cols m (M : matrix float) (acc : list float) :
  Forall (fun r => length r = m) M -> length acc = m ->
  fold_left (zip_with F64.add) M acc
  = map (fun c => fold_left F64.add (col c M) (acc !!! c)) (seq 0 m).
Proof.
  intros HM. revert acc. induction HM as [|r M Hr _ IH]; intros acc Hacc; simpl.
  - rewrite (list_as_lookups acc) at 1. now rewrite Hacc.
  - rewrite IH by (rewrite length_zip_with; lia).
    apply map_seq_ext. intros c Hc.
    now rewrite lookup_total_zip_with by lia.
Qed.

Lemma sum0_cols n m (M : matrix float) :
  is_matrix n m M -> 1 <= n ->
  Np.sum0 M = map (fun c => Np.sum (col c M)) (seq 0 m).
Proof.
  intros HM Hn. unfold Np.sum0. rewrite (is_matrix_ncols n m M HM Hn).
  destruct HM as [_ HM]. rewrite (fold_rows_cols m) by (done || apply length_replicate).
  apply map_seq_ext. intros c Hc. unfold Np.sum. f_equal.
  apply list_lookup_total_correct. now apply lookup_replicate_2.
Qed.

Lemma ewise2_same_shape (g : float -> float -> float) n m (A B : matrix float) :
  is_matrix n m A -> is_matrix n m B ->
  Np.ewise2 g A B = Ok (zip_with (zip_with g) A B).
Proof.
  intros [HnA HA] [HnB HB]. unfold Np.ewise2, Np.broadcast.
  destruct (decide (length A = length B)) as [_|Hne]; [|lia].
  clear HnA HnB. revert B HB. induction HA as [|a A Ha _ IH]; intros [|b B] HB; simpl; try done.
  inversion HB; subst. rewrite (ewise_same_length g a b) by lia. simpl.
  now rewrite (IH B).
Qed.

Lemma zip_rows_is_matrix (g : float -> float -> float) n m (A B : matrix float) :
  is_matrix n m A -> is_matrix n m B -> is_matrix n m (zip_with (zip_with g) A B).
Proof.
  intros [HnA HA] [HnB HB]. split; [rewrite length_zip_with; lia|].
  clear HnA HnB. revert B HB. induction HA as [|a A Ha _ IH]; intros [|b B] HB; simpl; try done.
  inversion HB; subst. constructor; [rewrite length_zip_with; lia|now apply IH].
Qed.

Lemma col_zip_rows (g : float -> float -> float) n m (A B : matrix float) c :
  is_matrix n m A -> is_matrix n m B -> c < m ->
  col c (zip_with (zip_with g) A B) = zip_with g (col c A) (col c B).
Proof.
  intros [HnA HA] [HnB HB] Hc. unfold col.
  clear HnA HnB. revert B HB. induction HA as [|a A Ha _ IH]; intros [|b B] HB; simpl; try done.
  inversion HB; subst. rewrite lookup_total_zip_with by lia. now rewrite (IH B).
Qed.

Lemma col_map_rows (g : float -> float -> float) n m (M : matrix float) (v : list float) c :
  is_matrix n m M -> length v = m -> c < m ->
  col c (map (fun row => zip_with g row v) M) = map (fun x => g x (v !!! c)) (col c M).
Proof.
  intros [_ HM] Hv Hc. unfold col. rewrite !map_map.
  apply map_ext_in. intros row Hrow. rewrite Forall_forall in HM.
  apply lookup_total_zip_with; [|lia].
  apply list_elem_of_In in Hrow. rewrite (HM row Hrow). lia.
Qed.

Lemma lookup_total_map_seq (g : nat -> float) (m c : nat) :
  c < m -> map g (seq 0 m) !!! c = g c.
Proof.
  intros Hc. apply list_lookup_total_correct.
  now rewrite list_lookup_fmap, lookup_seq_lt.
Qed.

Lemma average0_cols n m (M : matrix float) :
  is_matrix n m M -> 1 <= n ->
  Np.average0 M = map (fun c => spec_mean (col c M)) (seq 0 m).
Proof.
  intros HM Hn. unfold Np.average0. rewrite (sum0_cols n m M HM Hn), map_map.
  apply map_seq_ext. intros c Hc. unfold spec_mean. rewrite col_length.
  reflexivity.
Qed.

Lemma zip_with_square (h : float -> float) (l : list float) :
  zip_with F64.mul (map h l) (map h l) = map (fun x => F64.square (h x)) l.
Proof. induction l as [|y l IH]; simpl; [done|]. now rewrite IH. Qed.

Lemma var0_cols n m (M : matrix float) :
  is_matrix n m M -> 1 <= n ->
  Np.var0_ddof1 M = Ok (map (fun c => spec_var (col c M)) (seq 0 m)).
Proof.
  intros HM Hn. unfold Np.var0_ddof1.
  pose proof (average0_cols n m M HM Hn) as Havg.
  assert (Hlavg : length (Np.average0 M) = m) by now rewrite Havg, length_map, length_seq.
  rewrite (ewise_mv_rows F64.sub n m) by done. simpl.
  set (x := map _ M).
  assert (Hx : is_matrix n m x).
  { destruct HM as [HnM HM]. split; [unfold x; now rewrite length_map|].
    apply Forall_fmap. eapply Forall_impl; [exact HM|]. intros row Hrow. simpl in *.
    rewrite length_zip_with. lia. }
  rewrite (ewise2_same_shape F64.mul n m) by done. simpl. f_equal.
  rewrite (sum0_cols n m) by (done || now apply zip_rows_is_matrix).
  rewrite map_map. apply map_seq_ext. intros c Hc.
  rewrite (col_zip_rows F64.mul n m) by done.
  unfold x. rewrite (col_map_rows F64.sub n m) by done.
  rewrite Havg, lookup_total_map_seq by done.
  unfold spec_var. rewrite col_length. destruct HM as [HnM _]. rewrite HnM.
  rewrite Nat.max_0_r. unfold nrows. rewrite HnM. f_equal. f_equal.
  apply zip_with_square.
Qed.

Lemma getvarsens_step_ok n m (yA yB : matrix float) (yC : list (matrix float))
    (acc : matrix float * matrix float) (i : nat) (yCi : matrix float) :
  1 <= n -> is_matrix n m yA -> is_matrix n m yB -> is_matrix n m yCi ->
  yC !! i = Some yCi -> i < length acc.1 -> i < length acc.2 ->
  getvarsens_step yA yB yC n m
    (map (fun c => spec_var (col c yA)) (seq 0 m))
    (map (fun c => spec_var (col c yB)) (seq 0 m))
    (Np.average0 (zip_with (zip_with F64.mul) yA yB))
    (map F64.square (Np.average0 yB)) acc i
  = Ok (<[i := Sens_row yA yB yCi m]> acc.1, <[i := SensT_row yB yCi m]> acc.2).
Proof.
  intros Hn HA HB HC Hi Hl1 Hl2. unfold getvarsens_step, index. rewrite Hi. simpl.
  assert (HlA : length yA = n) by now destruct HA.
  assert (HlB : length yB = n) by now destruct HB.
  rewrite !(ewise2_same_shape F64.mul n m) by done. simpl.
  rewrite !(sum0_cols n m) by (done || now apply zip_rows_is_matrix).
  rewrite !(average0_cols n m) by (done || now apply zip_rows_is_matrix).
  rewrite !map_map.
  repeat first
    [ rewrite (ewise_same_length F64.sub) by (now rewrite !length_map)
    | rewrite (ewise_same_length F64.div) by (now rewrite !length_map)
    | rewrite zip_with_map_seq
    | rewrite setrow_same_width by (done || (rewrite !length_map, length_seq; done))
    | progress simpl ].
  rewrite map_map.
  simpl. f_equal. f_equal.
  - f_equal. apply map_seq_ext. intros c Hc. unfold spec_S, samples_minus_one.
    rewrite !(col_zip_rows F64.mul n m) by done. now rewrite col_length, HlA.
  - f_equal. apply map_seq_ext. intros c Hc. unfold spec_ST, samples_minus_one.
    rewrite !(col_zip_rows F64.mul n m) by done. now rewrite col_length, HlB.
Qed.

Lemma getvarsens_loop n m (yA yB : matrix float) (yC : list (matrix float)) (d i : nat) :
  1 <= n -> is_matrix n m yA -> is_matrix n m yB -> Forall (is_matrix n m) yC ->
  i + d = length yC ->
  foldR (getvarsens_step yA yB yC n m
           (map (fun c => spec_var (col c yA)) (seq 0 m))
           (map (fun c => spec_var (col c yB)) (seq 0 m))
           (Np.average0 (zip_with (zip_with F64.mul) yA yB))
           (map F64.square (Np.average0 yB)))
        (map (fun yCk => Sens_row yA yB yCk m) (take i yC) ++ replicate d (replicate m F64.zero),
         map (fun yCk => SensT_row yB yCk m) (take i yC) ++ replicate d (replicate m F64.zero))
        (seq i d)
  = Ok (map (fun yCk => Sens_row yA yB yCk m) yC, map (fun yCk => SensT_row yB yCk m) yC).
Proof.
  intros Hn HA HB HC. revert i. induction d as [|d IH]; intros i Hid; simpl.
  - rewrite !app_nil_r, take_ge by lia. done.
  - destruct (lookup_lt_is_Some_2 yC i) as [yCi Hi]; [lia|].
    assert (HCi : is_matrix n m yCi) by (rewrite Forall_lookup in HC; eauto).
    assert (Hlen : forall (g : matrix float -> list float), length (map g (take i yC)) = i).
    { intros g. rewrite length_map, length_take. lia. }
    rewrite (getvarsens_step_ok n m yA yB yC _ i yCi); try done;
      try (simpl; rewrite length_app, Hlen; simpl; lia).
    simpl. rewrite !insert_app_r_alt by (rewrite Hlen; lia).
    rewrite !Hlen, Nat.sub_diag. simpl.
    specialize (IH (S i)). rewrite (take_S_r yC i yCi Hi), !map_app in IH. simpl in IH.
    rewrite <- !app_assoc in IH. simpl in IH. apply IH. lia.
Qed.

(** C2. For yA, yB of shape (n, m) and yC of shape (p, n, m),
    [getvarsens] returns S and ST of shape (p, m) with, for every
    parameter k and observable c,
    S[k][c] = (sum(yA * yC[k]) / (n-1) - mean(yA * yB)) / var(yA) and
    ST[k][c] = 1 - (sum(yB * yC[k]) / (n-1) - mean(yB)^2) / var(yB),
    sums, means and variances being taken over the samples of column c,
    the variance with Bessel's correction, yA's for S and yB's for ST. *)
Theorem getvarsens_indices (n m : nat) (yA yB : matrix float) (yC : list (matrix float)) :
  1 <= n -> is_matrix n m yA -> is_matrix n m yB -> Forall (is_matrix n m) yC ->
  exists S ST,
    getvarsens yA yB yC = Ok (S, ST)
    /\ is_matrix (length yC) m S /\ is_matrix (length yC) m ST
    /\ forall k yCk c, yC !! k = Some yCk -> c < m ->
         S !! k ≫= (fun row => row !! c)
           = Some (spec_S (col c yA) (col c yB) (col c yCk))
         /\ ST !! k ≫= (fun row => row !! c)
           = Some (spec_ST (col c yB) (col c yCk)).
Proof.
  intros Hn HA HB HC.
  exists (map (fun yCk => Sens_row yA yB yCk m) yC), (map (fun yCk => SensT_row yB yCk m) yC).
  split; [|split; [|split]].
  - unfold getvarsens.
    rewrite (var0_cols n m yA HA Hn), (var0_cols n m yB HB Hn). simpl.
    rewrite (ewise2_same_shape F64.mul n m yA yB HA HB). simpl.
    destruct yC as [|C0 yC']; [reflexivity|].
    assert (HC0 : is_matrix n m C0) by now inversion HC.
    rewrite (is_matrix_ncols n m C0 HC0 Hn).
    replace (nrows C0) with n by (now destruct HC0).
    apply (getvarsens_loop n m yA yB (C0 :: yC') (length (C0 :: yC')) 0); done.
  - split; [now rewrite length_map|]. apply Forall_fmap, Forall_true.
    intros yCk. simpl. unfold Sens_row. now rewrite length_map, length_seq.
  - split; [now rewrite length_map|]. apply Forall_fmap, Forall_true.
    intros yCk. simpl. unfold SensT_row. now rewrite length_map, length_seq.
  - intros k yCk c Hk Hc. rewrite !list_lookup_fmap, Hk. simpl.
    unfold Sens_row, SensT_row. rewrite !list_lookup_fmap, lookup_seq_lt by done. done.
Qed.

Lemma getvarsens_indices_witness :
  exists S ST,
    getvarsens scenario_A scenario_B [scenario_B; scenario_A] = Ok (S, ST)
    /\ is_matrix 2 2 S /\ is_matrix 2 2 ST
    /\ forall k yCk c, [scenario_B; scenario_A] !! k = Some yCk -> c < 2 ->
         S !! k ≫= (fun row => row !! c)
           = Some (spec_S (col c scenario_A) (col c scenario_B) (col c yCk))
         /\ ST !! k ≫= (fun row => row !! c)
           = Some (spec_ST (col c scenario_B) (col c yCk)).
Proof.
  apply (getvarsens_indices 4 2 scenario_A scenario_B [scenario_B; scenario_A]);
    [lia | | | repeat constructor]; (split; [reflexivity | repeat constructor]).
Defined.

(** ** C3: the rows of B and C when [norm] is not [True] *)

Section ParmevalProps.
Variable odeint : (list float -> float -> list float) -> list float -> list float -> matrix float.
Context {spline : Type}.
Variable splrep : list float -> list float -> res spline.
Variable splev : list float -> spline -> res (list float).
Variables (model : Model) (time : float) (xpdata : matrix float)
  (xspairlist : list (nat * nat)) (ic vardata : bool) (useparams : option (list nat)).

#[local] Abbreviation solve := (solve_row odeint model time ic useparams).
#[local] Abbreviation raw_A :=
  (fun _ : option (matrix float) =>
     body_raw_A odeint splrep splev model time xpdata xspairlist ic vardata useparams).
#[local] Abbreviation raw_BC :=
  (body_raw_BC odeint splrep splev model time xpdata xspairlist ic vardata useparams).
#[local] Abbreviation loop :=
  (rows_loop odeint splrep splev model time xpdata xspairlist ic vardata useparams).
#[local] Abbreviation body :=
  (rows_body odeint splrep splev model time xpdata xspairlist ic vardata useparams).

(** Without normalisation no turn of a loop assigns [outlistnorm]. *)
Lemma rows_body_raw_local raw nobs mtx acc i env r env' :
  body false raw nobs mtx acc i env = (Ok r, env') -> r.2 = acc.2.
Proof.
  unfold rows_body, mbind, ST_bind, lift, mret, ST_ret.
  destruct (index mtx i) as [row|e]; [|discriminate].
  destruct (raw acc.2 row env) as [[y|e] env1]; [|discriminate].
  destruct (Np.setrow nobs acc.1 i y) as [y'|e]; [|discriminate].
  intros Heq. now inversion Heq.
Qed.

Lemma foldS_raw_local raw nobs mtx (l : list nat) acc env r env' :
  foldS (body false raw nobs mtx) acc l env = (Ok r, env') -> r.2 = acc.2.
Proof.
  revert acc env. induction l as [|i l IH]; intros acc env; simpl.
  - unfold mret, ST_ret. intros Heq. now inversion Heq.
  - unfold mbind, ST_bind.
    destruct (body false raw nobs mtx acc i env) as [[a1|e] env1] eqn:Hb; [|discriminate].
    intros Hrest. rewrite (IH _ _ Hrest). now apply (rows_body_raw_local _ _ _ _ _ _ _ _ Hb).
Qed.

(** The first row of B or C when [outlistnorm] has not been assigned:
    the solver runs, then reading the local raises. *)
Lemma raw_BC_unbound row env :
  exists e env', raw_BC None row env = (Raise e, env')
    /\ forall sol env2, solve row env = (Ok sol, env2) ->
         e = UnboundLocalError /\ env' = env2.
Proof.
  unfold body_raw_BC, mbind, ST_bind, lift. simpl.
  destruct (solve row env) as [[sol|e] env1].
  - exists UnboundLocalError, env1. split; [done|]. intros sol' env2 Heq. now inversion Heq.
  - exists e, env1. split; [done|]. intros sol' env2 Heq. discriminate.
Qed.

Lemma rows_loop_unbound nobs (row : list float) (mtx : matrix float) y env :
  exists e env', loop false raw_BC nobs (row :: mtx) (y, None) env = (Raise e, env')
    /\ forall sol env2, solve row env = (Ok sol, env2) ->
         e = UnboundLocalError /\ env' = env2.
Proof.
  destruct (raw_BC_unbound row env) as (e & env1 & Hraise & Hunbound).
  exists e, env1. split; [|exact Hunbound].
  unfold rows_loop. simpl.
  apply bind_Raise_run. unfold rows_body.
  rewrite (bind_Ok_run _ _ env env row) by reflexivity.
  now apply bind_Raise_run.
Qed.

(** C3 fails on the code. With [norm] not [True] and a matrix B that has
    a row, [parmeval] never returns: the call of [compare_data] for the
    first row of B names the local [outlistnorm], which no statement of
    that branch assigns; when matrix A and the solve of that row go
    through, the exception is [UnboundLocalError]. *)
Theorem parmeval_raw_outlistnorm_unbound sobmtxA sobmtxB sobmtxC fileobj env :
  sobmtxB <> [] ->
  (exists e,
     (parmeval odeint splrep splev model time xpdata xspairlist ic vardata useparams
        sobmtxA sobmtxB sobmtxC false fileobj env).1 = Raise e)
  /\ forall a env1 row sol env2,
       loop false raw_A (length (observable_patterns model)) sobmtxA
         (replicate (nrows sobmtxA)
            (replicate (length (observable_patterns model)) F64.zero), None) env
       = (Ok a, env1) ->
       sobmtxB !! 0 = Some row ->
       solve row env1 = (Ok sol, env2) ->
       (parmeval odeint splrep splev model time xpdata xspairlist ic vardata useparams
          sobmtxA sobmtxB sobmtxC false fileobj env).1 = Raise UnboundLocalError.
Proof.
  intros HB. destruct sobmtxB as [|row0 B']; [done|]. clear HB.
  unfold parmeval.
  set (nobs := length (observable_patterns model)).
  destruct (loop false raw_A nobs sobmtxA
              (replicate (nrows sobmtxA) (replicate nobs F64.zero), None) env)
    as [[a|e] env1] eqn:HA.
  - assert (Hloc : a.2 = None).
    { unfold rows_loop in HA. now rewrite (foldS_raw_local _ _ _ _ _ _ _ _ HA). }
    destruct (rows_loop_unbound nobs row0 B'
                (replicate (nrows (row0 :: B')) (replicate nobs F64.zero)) env1)
      as (e & env2 & Hraise & Hunbound).
    rewrite (bind_Ok_run _ _ _ _ _ HA). rewrite Hloc.
    rewrite (bind_Raise_run _ _ _ _ _ Hraise). simpl.
    split; [eauto|].
    intros a' env1' row sol env2' Heq Hrow Hsol.
    inversion Heq; subst. inversion Hrow; subst.
    now destruct (Hunbound sol env2' Hsol) as [-> _].
  - rewrite (bind_Raise_run _ _ _ _ _ HA). simpl.
    split; [eauto|]. intros a env1' row sol env2 Heq. discriminate.
Qed.
End ParmevalProps.

Lemma parmeval_raw_outlistnorm_unbound_witness :
  (parmeval euler knots_splrep knots_splev decay_model (F64.of_Z 4) zero_xpdata [(1, 1)] true false None
     [decay_row] [decay_row] [[decay_row]] false false decay_env).1
  = Raise UnboundLocalError.
Proof.
  destruct (parmeval_raw_outlistnorm_unbound euler knots_splrep knots_splev decay_model (F64.of_Z 4)
              zero_xpdata [(1, 1)] true false None
              [decay_row] [decay_row] [[decay_row]] false decay_env
              ltac:(discriminate)) as [_ Hunbound].
  eapply Hunbound; [vm_compute; reflexivity | reflexivity | vm_compute; reflexivity].
Defined.

(** The same call with [norm=True] returns: the three loops share one body. *)
Example parmeval_norm_returns :
  exists y, (parmeval euler knots_splrep knots_splev decay_model (F64.of_Z 4) zero_xpdata [(1, 1)] true false None
               [decay_row] [decay_row] [[decay_row]] true false decay_env).1 = Ok y.
Proof. eexists. vm_compute. reflexivity. Qed.

(** ** C8: the log-uniform mapping *)

Lemma mapR_Forall2 {A B : Type} (g : A -> res B) (l : list A) (l' : list B) :
  mapR g l = Ok l' <-> Forall2 (fun x y => g x = Ok y) l l'.
Proof.
  revert l'. induction l as [|x l IH]; intros l'; simpl.
  - split; [intros Heq; inversion Heq; constructor|intros Hall; now inversion Hall].
  - split.
    + destruct (g x) as [y|e] eqn:Hx; simpl; [|discriminate].
      destruct (mapR g l) as [ys|e] eqn:Hl; simpl; [|discriminate].
      intros Heq. inversion Heq; subst. constructor; [done|]. now apply IH.
    + intros Hall. inversion Hall as [|x' y l1 ys Hx Hys]; subst.
      rewrite Hx. simpl. apply IH in Hys. now rewrite Hys.
Qed.

Lemma mapR_total {A B : Type} (g : A -> res B) (l : list A) :
  Forall (fun x => exists y, g x = Ok y) l -> exists l', mapR g l = Ok l'.
Proof.
  induction 1 as [|x l [y Hy] _ [l' IH]]; simpl; [now exists []|].
  exists (y :: l'). now rewrite Hy, IH.
Qed.

Lemma broadcast_singleton_l {A B C : Type} (g : A -> B -> res C) (x : A) (b : list B) :
  Np.broadcast g [x] b = mapR (g x) b.
Proof.
  unfold Np.broadcast.
  destruct (decide (length [x] = length b)) as [Heq|Hne]; [|done].
  destruct b as [|y [|y' b]]; simpl in *; try lia. done.
Qed.

Lemma ewise_vm_rows (g : float -> float -> float) n p (v : list float) (M : matrix float) :
  is_matrix n p M -> length v = p ->
  Np.ewise_vm g v M = Ok (map (fun row => zip_with g v row) M).
Proof.
  intros [Hn HM] Hv. unfold Np.ewise_vm, Np.ewise2.
  rewrite broadcast_singleton_l.
  rewrite <- mapR_pure. apply mapR_ext_Forall.
  eapply Forall_impl; [exact HM|]. intros row Hrow. simpl in *.
  apply ewise_same_length. lia.
Qed.

Section GetlogProps.
Variable power : float -> float -> float.
Variables (params : list float) (omag : Z) (useparams : list nat) (usemag : option Z).

#[local] Abbreviation mag := (spec_mag omag useparams usemag).

Lemma getlog_bounds_ok :
  (forall i, i < length params -> is_Some (mag i)) ->
  exists bounds,
    getlog_bounds power params omag useparams usemag = Ok bounds
    /\ length bounds = length params
    /\ forall i x m, params !! i = Some x -> mag i = Some m ->
         bounds !! i = Some (spec_ub power x m, spec_lb power x m).
Proof.
  intros Hmag. unfold getlog_bounds.
  destruct (mapR_total
              (fun ip : nat * float =>
                 if decide (ip.1 ∈ useparams)
                 then match usemag with
                      | Some usemag =>
                          Ok (F64.mul ip.2 (pow10 power usemag), F64.div ip.2 (pow10 power usemag))
                      | None => Raise TypeError
                      end
                 else Ok (F64.mul ip.2 (pow10 power omag), F64.div ip.2 (pow10 power omag)))
              (imap pair params)) as [bounds Hb].
  { apply Forall_lookup. intros i [j x] Hi.
    apply list_lookup_imap_Some in Hi as (x' & Hx & Heq). inversion Heq; subst. simpl.
    destruct (Hmag i) as [m Hm]; [now apply lookup_lt_Some in Hx|].
    unfold spec_mag in Hm. destruct (decide (i ∈ useparams)); [|eauto].
    rewrite Hm. eauto. }
  exists bounds. split; [exact Hb|]. apply mapR_Forall2 in Hb.
  split; [rewrite <- (Forall2_length _ _ _ Hb); apply length_imap|].
  intros i x m Hx Hm.
  assert (Hi : imap pair params !! i = Some (i, x)) by now rewrite list_lookup_imap, Hx.
  destruct (Forall2_lookup_l _ _ _ _ _ Hb Hi) as (y & Hy & Hg). rewrite Hy. f_equal.
  simpl in Hg. unfold spec_mag in Hm. unfold spec_ub, spec_lb.
  destruct (decide (i ∈ useparams)); [rewrite Hm in Hg|]; inversion Hg; congruence.
Qed.

(** One row of the result. *)
Lemma getlog_row (bounds : list (float * float)) (u : list float) i x m ui :
  bounds !! i = Some (spec_ub power x m, spec_lb power x m) -> u !! i = Some ui ->
  zip_with F64.mul bounds.*2 (zip_with power (zip_with F64.div bounds.*1 bounds.*2) u) !! i
  = Some (spec_loguniform power x m ui).
Proof.
  intros Hb Hu. rewrite !lookup_zip_with, !list_lookup_fmap, Hb, Hu. done.
Qed.

(** C8. With bounds ub[i] = params[i] * 10^mag and lb[i] = params[i] /
    10^mag, where mag is [usemag] for an index in [useparams] and [omag]
    otherwise, [getlog] returns lb * (ub / lb) ^ u elementwise, for a
    one-axis and for a two-axis array u; and for a parameter that is zero
    the ratio ub / lb is 0/0, not a number. *)
Theorem getlog_loguniform (p : nat) :
  length params = p ->
  (forall i, i < p -> is_Some (mag i)) ->
  (forall u, length u = p ->
     exists r, getlog power (Arr1 u) params omag useparams usemag = Ok (Arr1 r)
       /\ length r = p
       /\ forall i x m ui, params !! i = Some x -> mag i = Some m -> u !! i = Some ui ->
            r !! i = Some (spec_loguniform power x m ui))
  /\ (forall n U, is_matrix n p U ->
        exists R, getlog power (Arr2 U) params omag useparams usemag = Ok (Arr2 R)
          /\ is_matrix n p R
          /\ forall k i x m urow ui,
               params !! i = Some x -> mag i = Some m ->
               U !! k = Some urow -> urow !! i = Some ui ->
               R !! k ≫= (fun row => row !! i) = Some (spec_loguniform power x m ui))
  /\ (forall x m, is_zero x -> F64.div (spec_ub power x m) (spec_lb power x m) = S754_nan).
Proof.
  intros Hp Hmag. rewrite <- Hp in Hmag.
  destruct (getlog_bounds_ok Hmag) as (bounds & Hb & Hlen & Hlook).
  assert (Hl1 : length bounds.*1 = p) by (rewrite length_fmap; lia).
  assert (Hl2 : length bounds.*2 = p) by (rewrite length_fmap; lia).
  split; [|split].
  - intros u Hu. unfold getlog. rewrite Hb. simpl.
    rewrite (ewise_same_length F64.div) by lia. simpl.
    rewrite (ewise_same_length power) by (rewrite length_zip_with; lia). simpl.
    rewrite (ewise_same_length F64.mul) by (rewrite !length_zip_with; lia). simpl.
    eexists. split; [reflexivity|]. split; [rewrite !length_zip_with; lia|].
    intros i x m ui Hx Hm Hui. apply getlog_row; [now apply Hlook|done].
  - intros n U HU. unfold getlog. rewrite Hb. simpl.
    rewrite (ewise_same_length F64.div) by lia. simpl.
    rewrite (ewise_vm_rows power n p) by (done || rewrite length_zip_with; lia). simpl.
    rewrite (ewise_vm_rows F64.mul n p); [|..|done].
    2:{ destruct HU as [HnU HU]. split; [now rewrite length_map|].
        apply Forall_fmap. eapply Forall_impl; [exact HU|]. intros row Hrow. simpl in *.
        rewrite !length_zip_with. lia. }
    simpl. rewrite map_map.
    eexists. split; [reflexivity|]. split.
    + destruct HU as [HnU HU]. split; [now rewrite length_map|].
      apply Forall_fmap. eapply Forall_impl; [exact HU|]. intros row Hrow. simpl in *.
      rewrite !length_zip_with. lia.
    + intros k i x m urow ui Hx Hm Hk Hui. rewrite list_lookup_fmap, Hk. simpl.
      apply getlog_row; [now apply Hlook|done].
  - intros x m Hx. unfold spec_ub, spec_lb.
    destruct x as [s| | |]; [|done..].
    destruct (pow10 power m) as [s'|s'| |s' m' e']; reflexivity.
Qed.
End GetlogProps.

Lemma getlog_loguniform_witness :
  exists r, getlog pow_table (Arr1 [F64.lit 5 1; F64.zero])
              [F64.lit 2 0; F64.lit 3 0] 1 [1] (Some 2%Z) = Ok (Arr1 r)
    /\ length r = 2
    /\ forall i x m ui, [F64.lit 2 0; F64.lit 3 0] !! i = Some x ->
         spec_mag 1 [1] (Some 2%Z) i = Some m ->
         [F64.lit 5 1; F64.zero] !! i = Some ui ->
         r !! i = Some (spec_loguniform pow_table x m ui).
Proof.
  destruct (getlog_loguniform pow_table [F64.lit 2 0; F64.lit 3 0] 1 [1] (Some 2%Z) 2
              eq_refl) as (H1 & _ & _).
  - intros i Hi. unfold spec_mag. destruct (decide (i ∈ [1])); eauto.
  - apply H1. reflexivity.
Defined.

(** Sampled at the middle of the range, a parameter comes back as itself:
    2 with one order of magnitude either way gives sqrt(20 / 0.2) * 0.2. *)
Example getlog_midpoint :
  getlog pow_table (Arr1 [F64.lit 5 1]) [F64.lit 2 0] 1 [] None = Ok (Arr1 [F64.lit 2 0]).
Proof. vm_compute. reflexivity. Qed.

(** ** C9: the simulation-record log *)

Section WritetofileProps.
Context {V : Type}.
Variable fmt : V -> string.

(** C9 fails on the code. The line break comes after the values of
    index 5, 10, 15, ..., so the first line of the parameter block holds
    six values, not five: after the fifth value a comma is written. *)
Theorem write_values_first_line (v0 v1 v2 v3 v4 v5 : V) (rest : list V) :
  exists tail,
    write_values fmt 5 (v0 :: v1 :: v2 :: v3 :: v4 :: v5 :: rest)
    = [fmt v0; ", "; fmt v1; ", "; fmt v2; ", "; fmt v3; ", "; fmt v4; ", "; fmt v5; nl]%string
      ++ tail.
Proof. eexists. unfold write_values. simpl. reflexivity. Qed.

(** The same slip in a row of [simdata]: eleven values before the first
    line break. *)
Lemma write_values_first_line_simdata (v0 v1 v2 v3 v4 v5 v6 v7 v8 v9 v10 : V) (rest : list V) :
  exists tail,
    write_values fmt 10 (v0 :: v1 :: v2 :: v3 :: v4 :: v5 :: v6 :: v7 :: v8 :: v9 :: v10 :: rest)
    = [fmt v0; ", "; fmt v1; ", "; fmt v2; ", "; fmt v3; ", "; fmt v4; ", "; fmt v5; ", ";
       fmt v6; ", "; fmt v7; ", "; fmt v8; ", "; fmt v9; ", "; fmt v10; nl]%string
      ++ tail.
Proof. eexists. unfold write_values. simpl. reflexivity. Qed.

(** Up to five values the block is one line, as the specification says. *)
Lemma write_values_short (v0 v1 v2 : V) :
  write_values fmt 5 [v0; v1; v2] = [fmt v0; ", "; fmt v1; ", "; fmt v2; nl]%string.
Proof. reflexivity. Qed.
End WritetofileProps.

(** The log of seven parameters and one row of two values. *)
Example writetofile_seven_parameters :
  file_text (writetofile (fun s : string => s)
               ["p0"; "p1"; "p2"; "p3"; "p4"; "p5"; "p6"]%string
               [["x"; "y"]]%string "T"%string)
  = ("# TEMPERATURE" ++ nl ++ "T" ++ nl
     ++ "# PARAMETERS (7)" ++ nl
     ++ "p0, p1, p2, p3, p4, p5" ++ nl
     ++ "p6" ++ nl
     ++ "# SIMDATA (1,2)" ++ nl
     ++ "# 0" ++ nl
     ++ "x, y" ++ nl
     ++ "#-------------------------------------------------------------------------------------------------"
     ++ nl)%string.
Proof. vm_compute. reflexivity. Qed.

(** ** The stores of [odesolve] *)

Lemma inserts_length {A : Type} (l : list (nat * A)) (a : list A) :
  length (inserts l a) = length a.
Proof.
  unfold inserts. revert a. induction l as [|jv l IH]; intros a; simpl; [done|].
  now rewrite IH, length_insert.
Qed.

Lemma inserts_frame {A : Type} (l : list (nat * A)) (a : list A) (j : nat) :
  j ∉ l.*1 -> inserts l a !! j = a !! j.
Proof.
  unfold inserts. revert a. induction l as [|jv l IH]; intros a Hj; simpl; [done|].
  rewrite IH.
  - apply list_lookup_insert_ne. intros Heq. apply Hj. simpl. rewrite Heq. apply list_elem_of_here.
  - intros Hin. apply Hj. simpl. now apply list_elem_of_further.
Qed.

Lemma inserts_last_wins {A : Type} (l : list (nat * A)) (a : list A) i j v :
  l !! i = Some (j, v) -> j < length a ->
  (forall i' jv', i < i' -> l !! i' = Some jv' -> jv'.1 <> j) ->
  inserts l a !! j = Some v.
Proof.
  revert a i. induction l as [|jv l IH]; intros a i Hi Hj Hlater; [done|].
  destruct i as [|i]; unfold inserts; simpl in *.
  - inversion Hi; subst jv. simpl.
    fold (inserts l (<[j := v]> a)). rewrite inserts_frame.
    + now apply list_lookup_insert_eq.
    + intros Hin. apply list_elem_of_fmap in Hin as (jv' & Heq & Hin).
      apply list_elem_of_lookup in Hin as [i' Hi'].
      apply (Hlater (S i') jv'); [lia|done|done].
  - fold (inserts l (<[jv.1 := jv.2]> a)).
    apply (IH _ i); [done|now rewrite length_insert|].
    intros i' jv' Hlt Hi'. apply (Hlater (S i') jv'); [lia|done].
Qed.

Lemma stores_inserts (l : list (nat * float)) (p : list float) :
  stores l p = inserts (map (fun jv : nat * float => (jv.1, c_float jv.2)) l) p.
Proof.
  revert p. induction l as [|jv l IH]; intros p; simpl; [done|].
  unfold stores, inserts in *. simpl. now rewrite IH.
Qed.

Lemma forS_app {B : Type} (l1 l2 : list B) (body : B -> ST unit) (env : Env) :
  forS (l1 ++ l2) body env
  = match forS l1 body env with
    | (Ok _, env1) => forS l2 body env1
    | (Raise e, env1) => (Raise e, env1)
    end.
Proof.
  unfold forS. revert env. induction l1 as [|x l1 IH]; intros env; simpl; [done|].
  unfold mbind, ST_bind. destruct (body x env) as [[[]|e] env1]; [apply IH|done].
Qed.

(** The positional loop, as long as the buffer has room. *)
Lemma write_all_run (params : list float) (n k : nat) (env : Env) :
  k + n <= length params -> k + n <= length (data_p env) ->
  forS (seq k n) (fun i => v ← lift (index params i); store_p i v) env
  = (Ok tt, set_data_p (stores (zip (seq k n) (drop k params)) (data_p env)) env).
Proof.
  revert k env. induction n as [|n IH]; intros k env Hk Hp.
  - simpl. now rewrite set_data_p_id.
  - simpl. unfold forS in *. simpl.
    destruct (index_lt params k) as (v & Hv & Hpv); [lia|].
    erewrite bind_Ok_run; cycle 1.
    { erewrite bind_Ok_run; [|unfold lift; now rewrite Hv].
      rewrite store_p_run. destruct (decide _); [reflexivity|lia]. }
    rewrite IH; [|lia|simpl; rewrite length_insert; lia].
    simpl. rewrite set_data_p_twice.
    rewrite (drop_S params v k Hpv). done.
Qed.

Lemma stores_seq_lookup (vals : list float) (p : list float) (j : nat) :
  length vals <= length p ->
  stores (zip (seq 0 (length vals)) vals) p !! j
  = if decide (j < length vals) then c_float <$> vals !! j else p !! j.
Proof.
  intros Hlen. destruct (decide (j < length vals)) as [Hj|Hj].
  - destruct (lookup_lt_is_Some_2 vals j Hj) as [v Hv]. rewrite Hv. simpl.
    apply (stores_last_wins _ _ j).
    + apply lookup_zip_with_Some. exists j, v. now rewrite lookup_seq_lt.
    + lia.
    + intros i' [j' v'] Hlt Hi'. simpl.
      apply lookup_zip_with_Some in Hi' as (x & y & Heq & Hx & _).
      inversion Heq; subst. apply lookup_seq in Hx as [-> _]. simpl. lia.
  - apply stores_frame. apply Forall_lookup. intros i [j' v'] Hi. simpl.
    apply lookup_zip_with_Some in Hi as (x & y & Heq & Hx & _).
    inversion Heq; subst. apply lookup_seq in Hx as [-> Hlt]. simpl in *. lia.
Qed.

Section OdesolveMore.
Variable odeint : (list float -> float -> list float) -> list float -> list float -> matrix float.

(** X1. Without [useparams], [odesolve] stores [params] positionally:
    when the buffer has room for them, its first entries become the
    values of [params] as [c_float] cells hold them and the entries
    behind stay. *)
Theorem odesolve_positional model tfinal (params : list float) tinit ic env :
  length params <= length (data_p env) ->
  data_p (odesolve odeint model tfinal params None tinit ic env).2
  = map c_float params ++ drop (length params) (data_p env).
Proof.
  intros Hlen. rewrite odesolve_buffer. unfold write_params.
  rewrite (write_all_run params (length params) 0 env) by (simpl; lia).
  simpl. rewrite drop_0. apply list_eq. intros j.
  rewrite stores_seq_lookup by done.
  destruct (decide (j < length params)) as [Hj|Hj].
  - rewrite lookup_app_l by (rewrite length_map; lia). now rewrite list_lookup_fmap.
  - rewrite lookup_app_r by (rewrite length_map; lia).
    rewrite length_map, lookup_drop. f_equal. lia.
Qed.

(** X2. Without [useparams], more values than the model has parameters
    make [odesolve] raise [IndexError]; by then the whole buffer has been
    overwritten with the leading values. *)
Theorem odesolve_positional_overflow model tfinal (params : list float) tinit ic env :
  length (data_p env) < length params ->
  exists env',
    odesolve odeint model tfinal params None tinit ic env = (Raise IndexError, env')
    /\ data_p env' = map c_float (take (length (data_p env)) params)
    /\ yzero env' = yzero env.
Proof.
  intros Hlen. set (N := length (data_p env)).
  assert (Hwrite :
    write_params params None env
    = (Raise IndexError,
       set_data_p (stores (zip (seq 0 N) params) (data_p env)) env)).
  { unfold write_params.
    replace (length params) with (N + S (length params - N - 1)) by lia.
    rewrite seq_app, forS_app.
    rewrite (write_all_run params N 0 env) by (unfold N; simpl; lia).
    rewrite drop_0. simpl. unfold forS. simpl.
    destruct (index_lt params N) as (v & Hv & _); [lia|].
    apply bind_Raise_run.
    erewrite bind_Ok_run; [|unfold lift; now rewrite Hv].
    rewrite store_p_run. simpl.
    rewrite stores_length. fold N. destruct (decide (N < N)); [lia|done]. }
  eexists. split; [|split].
  - unfold odesolve. apply bind_Raise_run. exact Hwrite.
  - simpl. apply list_eq. intros j.
    assert (Hzip : zip (seq 0 N) params
                   = zip (seq 0 (length (take N params))) (take N params)).
    { rewrite length_take, Nat.min_l by lia. clear.
      revert params. generalize 0 as k. induction N as [|N IH]; intros k [|v params];
        simpl; try done. now rewrite IH. }
    rewrite Hzip, stores_seq_lookup by (rewrite length_take; lia).
    rewrite list_lookup_fmap, length_take, Nat.min_l by lia.
    destruct (decide (j < N)) as [Hj|Hj]; [done|].
    rewrite (lookup_ge_None_2 (take N params)) by (rewrite length_take; lia).
    simpl. apply lookup_ge_None_2. fold N. lia.
  - done.
Qed.
End OdesolveMore.

Lemma write_prefix_run (params : list float) (us : list nat) (n k : nat) (env : Env) :
  (forall i, k <= i < k + n ->
     i < length params /\ exists j, us !! i = Some j /\ j < length (data_p env)) ->
  forS (seq k n) (fun i => v ← lift (index params i);
                           j ← lift (index us i);
                           store_p j v) env
  = (Ok tt, set_data_p (stores (zip (take n (drop k us)) (drop k params)) (data_p env)) env).
Proof.
  revert k env. induction n as [|n IH]; intros k env Hok.
  - simpl. now rewrite set_data_p_id.
  - simpl. unfold forS in *. simpl.
    destruct (Hok k) as (Hk & j & Huj & Hj); [lia|].
    destruct (index_lt params k Hk) as (v & Hv & Hpv).
    erewrite bind_Ok_run; cycle 1.
    { erewrite bind_Ok_run; [|unfold lift; now rewrite Hv].
      erewrite bind_Ok_run; [|unfold lift, index; now rewrite Huj].
      rewrite store_p_run. destruct (decide _); [reflexivity|lia]. }
    rewrite IH.
    + simpl. rewrite set_data_p_twice.
      rewrite (drop_S us j k Huj), (drop_S params v k Hpv). done.
    + intros i Hi. simpl. rewrite length_insert. apply Hok. lia.
Qed.

Section OdesolveFailure.
Variable odeint : (list float -> float -> list float) -> list float -> list float -> matrix float.

(** X3. With [useparams], the loop of stores stops at the first turn
    for which [params] has no value or whose index is outside the
    buffer: [odesolve] raises [IndexError], the stores of the turns
    before it stay in the buffer, and nothing else has changed. *)
Theorem odesolve_subset_failure model tfinal params (useparams : list nat) tinit ic env i :
  write_fails (length (data_p env)) params useparams i ->
  odesolve odeint model tfinal params (Some useparams) tinit ic env
  = (Raise IndexError,
     set_data_p (stores (zip (take i useparams) params) (data_p env)) env).
Proof.
  intros (Hi & Hbad & Hgood).
  unfold odesolve. apply bind_Raise_run. unfold write_params.
  replace (length useparams) with (i + S (length useparams - i - 1)) by lia.
  rewrite seq_app, forS_app.
  rewrite (write_prefix_run params useparams i 0 env)
    by (intros i' Hi'; apply Hgood; lia).
  rewrite !drop_0. simpl. unfold forS. simpl.
  apply bind_Raise_run.
  destruct Hbad as [Hshort | (j & Huj & Hj)].
  - apply bind_Raise_run. unfold lift, index.
    now rewrite (lookup_ge_None_2 params i Hshort).
  - destruct (decide (i < length params)) as [Hlt|Hge].
    + destruct (index_lt params i Hlt) as (v & Hv & _).
      erewrite bind_Ok_run; [|unfold lift; now rewrite Hv].
      erewrite bind_Ok_run; [|unfold lift, index; now rewrite Huj].
      rewrite store_p_run. simpl. rewrite stores_length.
      destruct (decide _); [lia|done].
    + apply bind_Raise_run. unfold lift, index.
      rewrite (lookup_ge_None_2 params i); [done|lia].
Qed.
End OdesolveFailure.

(** ** Initial conditions *)

Lemma assign_ics_inv (ics : list (nat * Param)) (yz yz' : list float) :
  assign_ics ics yz = Ok yz' ->
  yz' = inserts (ic_values ics) yz /\ Forall (fun ic : nat * Param => ic.1 < length yz) ics.
Proof.
  unfold assign_ics, inserts, ic_values.
  revert yz. induction ics as [|ic ics IH]; intros yz; simpl.
  - intros Heq. inversion Heq. done.
  - unfold set_item. destruct (decide (ic.1 < length yz)) as [Hlt|Hge]; simpl; [|discriminate].
    intros Hrest. destruct (IH _ Hrest) as [-> Hall]. split; [done|].
    constructor; [done|]. eapply Forall_impl; [exact Hall|].
    intros ic' Hic'. simpl in Hic'. now rewrite length_insert in Hic'.
Qed.

Lemma assign_ics_ok (ics : list (nat * Param)) (yz : list float) :
  Forall (fun ic : nat * Param => ic.1 < length yz) ics ->
  assign_ics ics yz = Ok (inserts (ic_values ics) yz).
Proof.
  unfold assign_ics, inserts, ic_values.
  revert yz. induction ics as [|ic ics IH]; intros yz Hall; simpl; [done|].
  inversion Hall as [|ic' ics' Hic Hrest]; subst.
  unfold set_item. destruct (decide (ic.1 < length yz)); [|lia]. simpl.
  apply IH. eapply Forall_impl; [exact Hrest|].
  intros ic' Hic'. simpl in *. now rewrite length_insert.
Qed.

Lemma reset_ics_ok (ics : list (nat * Param)) (env : Env) :
  Forall (fun ic : nat * Param => ic.1 < length (yzero env)) ics ->
  reset_ics ics env = (Ok tt, set_yzero (inserts (ic_values ics) (yzero env)) env).
Proof.
  intros Hall. destruct (reset_ics_run ics env) as (yz' & Hrun & Hok).
  rewrite (assign_ics_ok ics (yzero env) Hall) in Hrun, Hok.
  now rewrite Hrun, (Hok _ eq_refl).
Qed.

Lemma assign_ics_raise (ics : list (nat * Param)) (yz : list float) :
  Exists (fun ic : nat * Param => length yz <= ic.1) ics ->
  assign_ics ics yz = Raise IndexError.
Proof.
  unfold assign_ics.
  revert yz. induction ics as [|ic ics IH]; intros yz Hex; simpl; [now inversion Hex|].
  unfold set_item. destruct (decide (ic.1 < length yz)) as [Hlt|Hge]; simpl; [|done].
  apply IH. inversion Hex as [? ? Hbad|? ? Hbad]; subst; [lia|].
  eapply Exists_impl; [exact Hbad|]. intros ic' Hic'. simpl in *. now rewrite length_insert.
Qed.

Lemma ic_values_lookup (ics : list (nat * Param)) i s p :
  ics !! i = Some (s, p) -> ic_values ics !! i = Some (s, value p).
Proof. intros Hi. unfold ic_values. now rewrite list_lookup_fmap, Hi. Qed.

Lemma ic_values_fst (ics : list (nat * Param)) : (ic_values ics).*1 = ics.*1.
Proof. unfold ic_values. rewrite <- list_fmap_compose. done. Qed.

Section OdesolveInitial.
Variable odeint : (list float -> float -> list float) -> list float -> list float -> matrix float.

Lemma odesolve_yzero model tfinal params useparams tinit ic env sol env' :
  odesolve odeint model tfinal params useparams tinit ic env = (Ok sol, env') ->
  if ic then assign_ics (initial_conditions model) (yzero env) = Ok (yzero env')
  else yzero env' = yzero env.
Proof.
  unfold odesolve, mbind, ST_bind.
  pose proof (write_params_same_but_p params useparams env) as Hsame.
  destruct (write_params params useparams env) as [[[]|e] env1]; [|discriminate].
  destruct Hsame as (_ & _ & _ & Hyz & _). simpl in Hyz.
  destruct ic.
  - destruct (reset_ics_run (initial_conditions model) env1) as (yz' & Hreset & Hyz').
    rewrite Hreset, Hyz in *. destruct (assign_ics _ _) as [yz|e]; [|discriminate].
    specialize (Hyz' yz eq_refl). subst yz'.
    unfold get_env at 1, lift, mret, ST_ret.
    destruct (foldR _ _ _) as [yo|e]; [|discriminate].
    intros H. inversion H; subst. done.
  - unfold mret at 1, ST_ret at 1, get_env at 1, lift, mret, ST_ret.
    destruct (foldR _ _ _) as [yo|e]; [|discriminate].
    intros H. inversion H; subst. done.
Qed.

(** X4. The initial state of a solve does not come from [params]: when
    [odesolve] returns with [ic] true, every species with an initial
    condition starts from the value of the model's parameter (the last
    entry for a species listed twice) and every other species from the
    value [yzero] held before; with [ic] false [yzero] is what it was. *)
Theorem odesolve_initial_state model tfinal params useparams tinit ic env sol env' :
  odesolve odeint model tfinal params useparams tinit ic env = (Ok sol, env') ->
  length (yzero env') = length (yzero env)
  /\ (ic = false -> yzero env' = yzero env)
  /\ (ic = true ->
      (forall s, s ∉ (initial_conditions model).*1 -> yzero env' !! s = yzero env !! s)
      /\ forall i s p,
           initial_conditions model !! i = Some (s, p) ->
           (forall i' sp', i < i' -> initial_conditions model !! i' = Some sp' -> sp'.1 <> s) ->
           yzero env' !! s = Some (value p)).
Proof.
  intros Hrun. apply odesolve_yzero in Hrun. destruct ic.
  - apply assign_ics_inv in Hrun as [-> Hall].
    split; [apply inserts_length|]. split; [discriminate|]. intros _. split.
    + intros s Hs. apply inserts_frame. now rewrite ic_values_fst.
    + intros i s p Hi Hlast. apply (inserts_last_wins _ _ i).
      * now apply ic_values_lookup.
      * rewrite Forall_lookup in Hall. apply (Hall i (s, p) Hi).
      * intros i' [s' v'] Hlt Hi'. simpl. unfold ic_values in Hi'.
        rewrite list_lookup_fmap in Hi'.
        destruct (initial_conditions model !! i') as [[s'' p'']|] eqn:Hic; [|done].
        simpl in Hi'. inversion Hi'; subst. apply (Hlast i' (s', p'') Hlt Hic).
  - rewrite Hrun. split; [done|]. split; [done|discriminate].
Qed.
End OdesolveInitial.

(** X5. [odeinit] returns when every initial condition names a species
    of the ODE system.  The initial state has one entry per equation:
    zero for a species without initial condition, the parameter's value
    otherwise (the last entry for a species listed twice); the buffer
    holds the nominal values as single-precision cells, [paramarray] the
    values themselves. *)
Theorem odeinit_environment model reltol abstol steps :
  Forall (fun ic : nat * Param => ic.1 < length (odes model)) (initial_conditions model) ->
  exists env,
    odeinit model reltol abstol steps = Ok (env, map value (parameters model))
    /\ length (yzero env) = length (odes model)
    /\ nsteps env = steps
    /\ rhs_exprs env = odes model
    /\ data_p env = map (fun p => c_float (value p)) (parameters model)
    /\ (forall s, s < length (odes model) -> s ∉ (initial_conditions model).*1 ->
          yzero env !! s = Some F64.zero)
    /\ forall i s p,
         initial_conditions model !! i = Some (s, p) ->
         (forall i' sp', i < i' -> initial_conditions model !! i' = Some sp' -> sp'.1 <> s) ->
         yzero env !! s = Some (value p).
Proof.
  intros Hall. unfold odeinit.
  rewrite assign_ics_ok by now rewrite length_replicate.
  simpl. eexists. split; [reflexivity|]. simpl.
  split; [now rewrite inserts_length, length_replicate|].
  do 3 (split; [done|]). split.
  - intros s Hs Hnot. rewrite inserts_frame by now rewrite ic_values_fst.
    now apply lookup_replicate_2.
  - intros i s p Hi Hlast. apply (inserts_last_wins _ _ i).
    + now apply ic_values_lookup.
    + rewrite length_replicate. rewrite Forall_lookup in Hall. apply (Hall i (s, p) Hi).
    + intros i' [s' v'] Hlt Hi'. simpl. unfold ic_values in Hi'.
      rewrite list_lookup_fmap in Hi'.
      destruct (initial_conditions model !! i') as [[s'' p'']|] eqn:Hic; [|done].
      simpl in Hi'. inversion Hi'; subst. apply (Hlast i' (s', p'') Hlt Hic).
Qed.

Lemma odeinit_environment_witness :
  exists env,
    odeinit decay_model (F64.lit 1 3) (F64.lit 1 3) 5
    = Ok (env, map value (parameters decay_model))
    /\ length (yzero env) = 1
    /\ nsteps env = 5
    /\ yzero env !! 0 = Some F64.one.
Proof.
  destruct (odeinit_environment decay_model (F64.lit 1 3) (F64.lit 1 3) 5)
    as (env & Hrun & Hlen & Hsteps & _ & _ & _ & Hics).
  - repeat constructor.
  - exists env. split; [exact Hrun|]. split; [exact Hlen|]. split; [exact Hsteps|].
    apply (Hics 0 0 {| name := "y0"; value := F64.one |}); [reflexivity|].
    intros [|i'] sp' Hlt Hi'; [lia|discriminate].
Defined.

(** ** Observables *)

Lemma setrow_inv {A : Type} (w : nat) (M M' : matrix A) (i : nat) (row : list A) :
  Np.setrow w M i row = Ok M' -> i < length M /\ M' = <[i := fit w row]> M.
Proof.
  unfold Np.setrow, index, fit.
  destruct (M !! i) as [r|] eqn:Hi; simpl; [|discriminate].
  apply lookup_lt_Some in Hi.
  destruct (decide (length row = w)) as [Hw|Hw].
  - intros Heq. inversion Heq. done.
  - destruct row as [|x [|x' row]]; try discriminate.
    intros Heq. inversion Heq. done.
Qed.

Lemma foldR_setrow_rows {A B : Type} (w : nat) (g : nat * B -> res (list A))
    (l : list B) (k : nat) (M M' : matrix A) :
  foldR (fun M (x : nat * B) => row ← g x; Np.setrow w M x.1 row) M
        (imap (fun i b => (k + i, b)) l) = Ok M' ->
  length M' = length M
  /\ (forall j, j < k -> M' !! j = M !! j)
  /\ forall i b, l !! i = Some b ->
       exists row, g (k + i, b) = Ok row /\ M' !! (k + i) = Some (fit w row).
Proof.
  revert k M. induction l as [|b l IH]; intros k M; simpl.
  - intros Heq. inversion Heq; subst. split; [done|]. split; [done|]. intros i b' Hi. done.
  - destruct (g (k + 0, b)) as [row|e] eqn:Hg; simpl; [|discriminate].
    destruct (Np.setrow w M (k + 0) row) as [M1|e] eqn:Hset; simpl; [|discriminate].
    apply setrow_inv in Hset as [Hk ->].
    rewrite (imap_ext _ (fun i b' => (S k + i, b'))) by (intros i x _; simpl; f_equal; lia).
    intros Hrest. destruct (IH (S k) _ Hrest) as (Hlen & Hframe & Hrows).
    rewrite length_insert in Hlen. split; [done|]. split.
    + intros j Hj. rewrite Hframe by lia. apply list_lookup_insert_ne. lia.
    + intros [|i] b' Hi; simpl in Hi.
      * inversion Hi; subst b'. exists row. split; [done|].
        rewrite Hframe by lia. now apply list_lookup_insert_eq.
      * destruct (Hrows i b' Hi) as (row' & Hg' & Hrow'). exists row'.
        replace (k + S i) with (S k + i) by lia. done.
Qed.

Lemma observe_inv (yout : matrix float) (obs : Observable) (r : list float) :
  observe yout obs = Ok r ->
  length (species obs) = length (coefficients obs) ->
  exists sel,
    mapR (fun row => mapR (index row) (species obs)) yout = Ok sel
    /\ r = map (fun vals => Np.sum (zip_with F64.mul vals (coefficients obs))) sel.
Proof.
  unfold observe. intros Hrun Hlen.
  destruct (mapR _ yout) as [sel|e] eqn:Hsel; simpl in Hrun; [|discriminate].
  exists sel. split; [done|].
  assert (Hrows : is_matrix (length sel) (length (coefficients obs)) sel).
  { split; [done|]. apply mapR_Forall2 in Hsel.
    apply Forall_lookup. intros i vals Hi.
    destruct (Forall2_lookup_r _ _ _ _ _ Hsel Hi) as (row & _ & Hrow).
    simpl in Hrow. apply mapR_length in Hrow. lia. }
  destruct sel as [|s0 sel'].
  - simpl in Hrun. inversion Hrun. done.
  - rewrite (ewise_mv_rows F64.mul _ _ _ _ Hrows) in Hrun by (simpl; lia || done).
    simpl in Hrun. inversion Hrun. unfold Np.sum1. now rewrite map_map.
Qed.

Section OdesolveObservables.
Variable odeint : (list float -> float -> list float) -> list float -> list float -> matrix float.

Lemma odesolve_yobs model tfinal params useparams tinit ic env sol env' :
  odesolve odeint model tfinal params useparams tinit ic env = (Ok sol, env') ->
  foldR (fun yobs (io : nat * Observable) =>
           row ← observe (yout sol) io.2; Np.setrow (nsteps env') yobs io.1 row)
        (replicate (length (observables model)) (replicate (nsteps env') F64.zero))
        (imap (fun i b => (0 + i, b)) (observables model))
  = Ok (yobs sol).
Proof.
  unfold odesolve, mbind, ST_bind.
  destruct (write_params params useparams env) as [[[]|e] env1]; [|discriminate].
  destruct ic.
  - destruct (reset_ics_run (initial_conditions model) env1) as (yz' & Hreset & Hyz').
    rewrite Hreset. destruct (assign_ics _ _) as [yz|e]; [|discriminate].
    specialize (Hyz' yz eq_refl). subst yz'.
    unfold get_env at 1, lift, mret, ST_ret.
    destruct (foldR _ _ _) as [yo|e] eqn:Hfold; [|discriminate].
    intros Heq. inversion Heq; subst. simpl in *. exact Hfold.
  - unfold mret at 1, ST_ret at 1, get_env at 1, lift, mret, ST_ret.
    destruct (foldR _ _ _) as [yo|e] eqn:Hfold; [|discriminate].
    intros Heq. inversion Heq; subst. simpl in *. exact Hfold.
Qed.

(** X6. When [odesolve] returns and the integrator has produced one
    state per time point, there is one observable row per observable of
    the model, and the value of observable i at time point t is the sum
    over its species of the species' concentration at t times its
    coefficient. *)
Theorem odesolve_observables model tfinal params useparams tinit ic env sol env' :
  odesolve odeint model tfinal params useparams tinit ic env = (Ok sol, env') ->
  length (yout sol) = nsteps env' ->
  Forall (fun obs => length (species obs) = length (coefficients obs)) (observables model) ->
  length (yobs sol) = length (observables model)
  /\ forall i obs t yrow,
       observables model !! i = Some obs -> yout sol !! t = Some yrow ->
       exists vals,
         mapR (index yrow) (species obs) = Ok vals
         /\ yobs sol !! i ≫= (fun row => row !! t)
            = Some (Np.sum (zip_with F64.mul vals (coefficients obs))).
Proof.
  intros Hrun Hsteps Hobs.
  apply odesolve_yobs in Hrun.
  apply (foldR_setrow_rows (nsteps env')
           (fun io : nat * Observable => observe (yout sol) io.2)) in Hrun
    as (Hlen & _ & Hrows).
  rewrite length_replicate in Hlen. split; [done|].
  intros i obs t yrow Hi Ht.
  destruct (Hrows i obs Hi) as (row & Hrow & Hget). simpl in Hrow, Hget.
  rewrite Forall_lookup in Hobs.
  destruct (observe_inv _ _ _ Hrow (Hobs i obs Hi)) as (sel & Hsel & ->).
  apply mapR_Forall2 in Hsel.
  destruct (Forall2_lookup_l _ _ _ _ _ Hsel Ht) as (vals & Hvals & Hidx).
  exists vals. split; [exact Hidx|].
  rewrite Hget. simpl. unfold fit.
  rewrite length_map, <- (Forall2_length _ _ _ Hsel), Hsteps.
  destruct (decide (nsteps env' = nsteps env')); [|done].
  now rewrite list_lookup_fmap, Hvals.
Qed.
End OdesolveObservables.

Lemma odesolve_positional_witness :
  data_p (odesolve euler decay_model (F64.of_Z 4) [F64.lit 3 1] None F64.zero true decay_env).2
  = map c_float [F64.lit 3 1] ++ drop 1 (data_p decay_env).
Proof.
  apply (odesolve_positional euler decay_model (F64.of_Z 4) [F64.lit 3 1] F64.zero true
           decay_env).
  vm_compute. lia.
Defined.

Lemma odesolve_positional_overflow_witness :
  exists env',
    odesolve euler decay_model (F64.of_Z 4) [F64.lit 3 1; F64.one; F64.two] None F64.zero true
      decay_env
    = (Raise IndexError, env')
    /\ data_p env' = map c_float (take (length (data_p decay_env)) [F64.lit 3 1; F64.one; F64.two])
    /\ yzero env' = yzero decay_env.
Proof.
  apply (odesolve_positional_overflow euler decay_model (F64.of_Z 4)
           [F64.lit 3 1; F64.one; F64.two] F64.zero true decay_env).
  vm_compute. lia.
Defined.

Lemma odesolve_subset_failure_witness :
  odesolve euler decay_model (F64.of_Z 4) [F64.lit 3 1; F64.two] (Some [0; 5]) F64.zero true
    decay_env
  = (Raise IndexError,
     set_data_p (stores (zip (take 1 [0; 5]) [F64.lit 3 1; F64.two]) (data_p decay_env))
       decay_env).
Proof.
  apply (odesolve_subset_failure euler decay_model (F64.of_Z 4) [F64.lit 3 1; F64.two] [0; 5]
           F64.zero true decay_env 1).
  split; [simpl; lia|]. split.
  - right. exists 5. split; [reflexivity|]. vm_compute. lia.
  - intros i' Hi'. assert (i' = 0) as -> by lia.
    split; [simpl; lia|]. exists 0. split; [reflexivity|]. vm_compute. lia.
Defined.

Lemma odesolve_initial_state_witness :
  length (yzero decay_env_after) = length (yzero decay_env)
  /\ yzero decay_env_after !! 0 = Some F64.one.
Proof.
  destruct (odesolve_initial_state euler decay_model (F64.of_Z 4) decay_row None F64.one true
              decay_env decay_solution decay_env_after decay_solve_run)
    as (Hlen & _ & Hic).
  split; [exact Hlen|].
  destruct (Hic eq_refl) as [_ Hset].
  apply (Hset 0 0 {| name := "y0"; value := F64.one |}); [reflexivity|].
  intros [|i'] sp' Hlt Hi'; [lia|discriminate].
Defined.

Lemma odesolve_observables_witness :
  length (yobs decay_solution) = 1
  /\ forall t yrow, yout decay_solution !! t = Some yrow ->
       exists vals,
         mapR (index yrow) [0] = Ok vals
         /\ yobs decay_solution !! 0 ≫= (fun row => row !! t)
            = Some (Np.sum (zip_with F64.mul vals [F64.one])).
Proof.
  destruct (odesolve_observables euler decay_model (F64.of_Z 4) decay_row None F64.one true
              decay_env decay_solution decay_env_after decay_solve_run)
    as (Hlen & Hval).
  - reflexivity.
  - repeat constructor.
  - split; [exact Hlen|]. intros t yrow Ht.
    apply (Hval 0 {| species := [0]; coefficients := [F64.one] |} t yrow); [reflexivity|exact Ht].
Defined.

(** ** One solve after another *)

Lemma inserts_absorb {A : Type} (l : list (nat * A)) (j : nat) (x : A) (a : list A) :
  j ∈ l.*1 -> inserts l (<[j := x]> a) = inserts l a.
Proof.
  unfold inserts. revert a. induction l as [|jv l IH]; intros a Hin; simpl in *.
  - now apply elem_of_nil in Hin.
  - destruct (decide (jv.1 = j)) as [->|Hne].
    + now rewrite list_insert_insert_eq.
    + rewrite list_insert_insert_ne by done. apply IH.
      apply elem_of_cons in Hin as [Heq|Hin]; [congruence|done].
Qed.

Lemma inserts_twice {A : Type} (l1 l2 : list (nat * A)) (a : list A) :
  (forall j, j ∈ l1.*1 -> j ∈ l2.*1) -> inserts l2 (inserts l1 a) = inserts l2 a.
Proof.
  induction l1 as [|x l1 IH] using rev_ind; intros Hsub; [done|].
  unfold inserts at 2. rewrite fold_left_app. simpl.
  fold (inserts l1 a). rewrite inserts_absorb.
  - apply IH. intros j Hj. apply Hsub. rewrite fmap_app. apply elem_of_app. now left.
  - apply Hsub. rewrite fmap_app. apply elem_of_app. right. simpl. apply list_elem_of_here.
Qed.

Lemma stores_twice (l1 l2 : list (nat * float)) (p : list float) :
  l1.*1 = l2.*1 -> stores l2 (stores l1 p) = stores l2 p.
Proof.
  intros Heq. rewrite !stores_inserts. apply inserts_twice.
  intros j. rewrite <- !list_fmap_compose. simpl.
  change (j ∈ l1.*1 -> j ∈ l2.*1). now rewrite Heq.
Qed.

Lemma write_all_inv (params : list float) (n k : nat) (env env' : Env) :
  forS (seq k n) (fun i => v ← lift (index params i); store_p i v) env = (Ok tt, env') ->
  forall i, k <= i < k + n -> i < length params /\ i < length (data_p env).
Proof.
  revert k env. induction n as [|n IH]; intros k env Hrun i Hi; [lia|].
  simpl in Hrun. unfold forS in *. simpl in Hrun.
  unfold mbind at 1, ST_bind at 1 in Hrun.
  destruct ((v ← lift (index params k); store_p k v) env) as [[[]|e] env1] eqn:Hstep;
    [|discriminate].
  unfold mbind, ST_bind, lift, index in Hstep.
  destruct (params !! k) as [v|] eqn:Hk; [|discriminate].
  rewrite store_p_run in Hstep.
  destruct (decide (k < length (data_p env))) as [Hlt|Hge]; [|discriminate].
  inversion Hstep; subst env1. apply lookup_lt_Some in Hk.
  destruct (decide (i = k)) as [->|Hne]; [done|].
  destruct (IH (S k) _ Hrun i) as [H1 H2]; [lia|].
  simpl in H2. now rewrite length_insert in H2.
Qed.

Lemma write_loop_inv (params : list float) (us : list nat) (n k : nat) (env env' : Env) :
  forS (seq k n) (fun i => v ← lift (index params i);
                           j ← lift (index us i);
                           store_p j v) env = (Ok tt, env') ->
  forall i, k <= i < k + n ->
    i < length params /\ exists j, us !! i = Some j /\ j < length (data_p env).
Proof.
  revert k env. induction n as [|n IH]; intros k env Hrun i Hi; [lia|].
  simpl in Hrun. unfold forS in *. simpl in Hrun.
  unfold mbind at 1, ST_bind at 1 in Hrun.
  destruct ((v ← lift (index params k); j ← lift (index us k); store_p j v) env)
    as [[[]|e] env1] eqn:Hstep; [|discriminate].
  unfold mbind, ST_bind, lift, index in Hstep.
  destruct (params !! k) as [v|] eqn:Hk; [|discriminate].
  destruct (us !! k) as [j|] eqn:Hj; [|discriminate].
  rewrite store_p_run in Hstep.
  destruct (decide (j < length (data_p env))) as [Hlt|Hge]; [|discriminate].
  inversion Hstep; subst env1. apply lookup_lt_Some in Hk.
  destruct (decide (i = k)) as [->|Hne]; [split; [done|by exists j]|].
  destruct (IH (S k) _ Hrun i) as [H1 (j' & Hj' & H2)]; [lia|].
  split; [done|]. exists j'. split; [done|].
  simpl in H2. now rewrite length_insert in H2.
Qed.

(** A write that succeeds is the sequence of its stores, and succeeds
    for every other row of the same length. *)
Lemma write_params_inv (params : list float) (useparams : option (list nat)) (env env' : Env) :
  write_params params useparams env = (Ok tt, env') ->
  forall params' envX,
    length params' = length params -> length (data_p envX) = length (data_p env) ->
    write_params params' useparams envX
    = (Ok tt, set_data_p (stores (write_targets useparams params') (data_p envX)) envX)
    /\ (write_targets useparams params').*1 = (write_targets useparams params).*1.
Proof.
  intros Hrun params' envX Hlen Hp. destruct useparams as [us|]; simpl in *.
  - pose proof (write_loop_inv params us _ 0 env env' Hrun) as Hinv. split.
    + apply write_params_run.
      * destruct (decide (length us = 0)) as [->|Hne]; [lia|].
        destruct (Hinv (length us - 1)) as [H1 _]; lia.
      * apply Forall_lookup. intros i j Hi.
        destruct (Hinv i) as [_ (j' & Hj' & Hlt)]; [apply lookup_lt_Some in Hi; lia|].
        rewrite Hi in Hj'. inversion Hj'; subst. lia.
    + assert (Hus : length us <= length params).
      { destruct (decide (length us = 0)) as [->|Hne]; [lia|].
        destruct (Hinv (length us - 1)) as [H1 _]; lia. }
      rewrite !fst_zip by lia. done.
  - pose proof (write_all_inv params _ 0 env env' Hrun) as Hinv. split.
    + rewrite (write_all_run params' (length params') 0 envX).
      * now rewrite drop_0.
      * simpl. lia.
      * simpl. destruct (decide (length params = 0)) as [Hz|Hne]; [lia|].
        destruct (Hinv (length params - 1)) as [_ H2]; lia.
    + rewrite !fst_zip by (rewrite length_seq; lia). now rewrite Hlen.
Qed.

Section OdesolveSequence.
Variable odeint : (list float -> float -> list float) -> list float -> list float -> matrix float.

Lemma odesolve_write model tfinal params useparams tinit ic env sol env' :
  odesolve odeint model tfinal params useparams tinit ic env = (Ok sol, env') ->
  exists e1, write_params params useparams env = (Ok tt, e1)
    /\ env' = if ic then set_yzero (inserts (ic_values (initial_conditions model)) (yzero env)) e1
              else e1.
Proof.
  unfold odesolve, mbind, ST_bind.
  pose proof (write_params_same_but_p params useparams env) as Hsame.
  destruct (write_params params useparams env) as [[[]|e] env1]; [|discriminate].
  destruct Hsame as (_ & _ & _ & Hyz & _). simpl in Hyz.
  exists env1. split; [done|]. revert H. destruct ic.
  - destruct (reset_ics_run (initial_conditions model) env1) as (yz' & Hreset & Hyz').
    rewrite Hreset. destruct (assign_ics _ _) as [yz|e] eqn:Hics; [|discriminate].
    specialize (Hyz' yz eq_refl). subst yz'.
    rewrite Hyz in Hics. apply assign_ics_inv in Hics as [-> _].
    unfold get_env at 1, lift, mret, ST_ret.
    destruct (foldR _ _ _) as [yo|e]; [|discriminate].
    intros Heq. now inversion Heq.
  - unfold mret at 1, ST_ret at 1, get_env at 1, lift, mret, ST_ret.
    destruct (foldR _ _ _) as [yo|e]; [|discriminate].
    intros Heq. now inversion Heq.
Qed.

Lemma odesolve_after_solve model tfinal tinit1 tfinal1 row1 row2 useparams tinit ic
    env sol1 env1 :
  length row1 = length row2 ->
  odesolve odeint model tfinal1 row1 useparams tinit1 ic env = (Ok sol1, env1) ->
  odesolve odeint model tfinal row2 useparams tinit ic env1
  = odesolve odeint model tfinal row2 useparams tinit ic env.
Proof.
  intros Hlen Hrun1.
  pose proof (odesolve_yzero odeint _ _ _ _ _ _ _ _ _ Hrun1) as Hyz1.
  destruct (odesolve_write _ _ _ _ _ _ _ _ _ Hrun1) as (e1 & Hw1 & Henv1).
  pose proof (write_params_inv _ _ _ _ Hw1 row1 env eq_refl eq_refl) as [Hw1' _].
  rewrite Hw1 in Hw1'. inversion Hw1' as [He1]. clear Hw1'.
  assert (Hp1 : length (data_p env1) = length (data_p env)).
  { rewrite Henv1, He1. destruct ic; simpl; apply stores_length. }
  destruct (write_params_inv _ _ _ _ Hw1 row2 env (eq_sym Hlen) eq_refl) as [Hw2 Hidx].
  destruct (write_params_inv _ _ _ _ Hw1 row2 env1 (eq_sym Hlen) Hp1) as [Hw2' _].
  unfold odesolve.
  rewrite (bind_Ok_run _ _ _ _ _ Hw2), (bind_Ok_run _ _ _ _ _ Hw2').
  assert (Hbuf : stores (write_targets useparams row2) (data_p env1)
                 = stores (write_targets useparams row2) (data_p env)).
  { rewrite Henv1, He1. destruct ic; simpl; now apply stores_twice. }
  rewrite Hbuf.
  set (E0 := set_data_p (stores (write_targets useparams row2) (data_p env)) env).
  set (E1 := set_data_p (stores (write_targets useparams row2) (data_p env)) env1).
  destruct ic.
  - apply assign_ics_inv in Hyz1 as [Hyz1 Hrange].
    assert (Hstep : forall e,
      length (yzero e) = length (yzero env) ->
      reset_ics (initial_conditions model) e
      = (Ok tt, set_yzero (inserts (ic_values (initial_conditions model)) (yzero e)) e)).
    { intros e Hy. apply reset_ics_ok.
      eapply Forall_impl; [exact Hrange|]. intros ic' Hic'. simpl in *. lia. }
    rewrite (bind_Ok_run _ _ E0 _ _ (Hstep E0 eq_refl)).
    assert (Hy1 : length (yzero E1) = length (yzero env)).
    { simpl. rewrite Hyz1. apply inserts_length. }
    rewrite (bind_Ok_run _ _ E1 _ _ (Hstep E1 Hy1)).
    f_equal. unfold E0, E1, set_yzero, set_data_p. simpl. rewrite Hyz1.
    rewrite inserts_twice by done.
    rewrite Henv1, He1. simpl. done.
  - assert (HE : E1 = E0); [|now rewrite HE].
    unfold E0, E1. rewrite Henv1, He1. done.
Qed.

(** X7. A solve forgets the parameter row of the solve before it: after
    a call of [odesolve] that returned, a second call with a row of the
    same length (and the same [useparams] and [ic]) gives the result and
    leaves the environment that it would have given and left had the
    first call not taken place. *)
Theorem odesolve_forgets_previous_row model tfinal tinit1 tfinal1 row1 row2 useparams tinit ic
    env sol1 env1 :
  length row1 = length row2 ->
  odesolve odeint model tfinal1 row1 useparams tinit1 ic env = (Ok sol1, env1) ->
  odesolve odeint model tfinal row2 useparams tinit ic env1
  = odesolve odeint model tfinal row2 useparams tinit ic env.
Proof.
  apply odesolve_after_solve.
Qed.
End OdesolveSequence.

Lemma odesolve_forgets_previous_row_witness :
  odesolve euler decay_model (F64.of_Z 4) [F64.tenth; F64.two] None F64.zero true decay_env_after
  = odesolve euler decay_model (F64.of_Z 4) [F64.tenth; F64.two] None F64.zero true decay_env.
Proof.
  apply (odesolve_forgets_previous_row euler decay_model (F64.of_Z 4) F64.one (F64.of_Z 4)
           decay_row [F64.tenth; F64.two] None F64.zero true decay_env decay_solution
           decay_env_after); [reflexivity|exact decay_solve_run].
Defined.

(** ** The C matrices: equal and ill-matched inputs *)

Lemma swapcol_same {A : Type} (M : matrix A) (k : nat) : swapcol M M k = M.
Proof.
  unfold swapcol. induction M as [|r M IH]; simpl; [done|].
  rewrite IH. destruct (r !! k) as [x|] eqn:Hk; [|done].
  now rewrite list_insert_id.
Qed.

(** X8. When the two design matrices are the same matrix, every C
    matrix is that matrix again: [genCmtx] returns as many copies of it
    as it has columns. *)
Theorem genCmtx_same_matrix {A : Type} (n p : nat) (M : matrix A) :
  is_matrix n p M -> 1 <= n ->
  genCmtx M M = Ok (replicate p M).
Proof.
  intros HM Hn. rewrite (genCmtx_closed n p M M HM HM Hn). f_equal.
  transitivity (replicate (length (seq 0 p)) M); [|now rewrite length_seq].
  apply (const_fmap (swapcol M M)). intros i k _. apply swapcol_same.
Qed.

Lemma genCmtx_same_matrix_witness :
  genCmtx scenario_A scenario_A = Ok (replicate 2 scenario_A).
Proof.
  apply (genCmtx_same_matrix 4 2 scenario_A); [|lia].
  split; [reflexivity|]. repeat constructor.
Defined.

(** X9. When [sobmtxB] has another number of rows than [sobmtxA] (and
    [sobmtxA] has at least two, so that its column cannot be broadcast),
    the first column assignment fails: [genCmtx] raises [ValueError]. *)
Theorem genCmtx_row_mismatch {A : Type} (n n' p : nat) (sobmtxA sobmtxB : matrix A) :
  is_matrix n p sobmtxA -> is_matrix n' p sobmtxB ->
  2 <= n -> 1 <= n' -> 1 <= p -> n <> n' ->
  genCmtx sobmtxA sobmtxB = Raise ValueError.
Proof.
  intros HA HB Hn Hn' Hp Hne. unfold genCmtx.
  rewrite (is_matrix_ncols n p sobmtxA HA) by lia.
  destruct p as [|p]; [lia|].
  change (seq 0 (S p)) with (0 :: seq 1 p). cbn [foldR].
  assert (Hstep : genCmtx_step sobmtxA (replicate (S p) sobmtxB) 0 = Raise ValueError);
    [|now rewrite Hstep].
  destruct (getcol_ok n (S p) sobmtxA 0 HA) as (col & Hcol & Hlen & _); [lia|].
  destruct (getcol_ok n' (S p) sobmtxB 0 HB) as (colB & HcolB & _ & _); [lia|].
  unfold genCmtx_step. rewrite Hcol. simpl.
  unfold Np.setcol. unfold Np.getcol in HcolB. rewrite HcolB. simpl.
  destruct HB as [HnB _].
  destruct (decide (length col = length sobmtxB)) as [Heq|_]; [lia|].
  destruct col as [|x [|x' col]]; simpl in *; try lia; done.
Qed.

Lemma genCmtx_row_mismatch_witness :
  genCmtx scenario_A (take 3 scenario_B) = Raise ValueError.
Proof.
  apply (genCmtx_row_mismatch 4 3 2 scenario_A (take 3 scenario_B)); try lia;
    (split; [reflexivity|repeat constructor]).
Defined.

(** ** What can go wrong in the samplers *)

Lemma mapR_Raise_inv {A B : Type} (g : A -> res B) (l : list A) (e : exn) :
  mapR g l = Raise e -> exists x, x ∈ l /\ g x = Raise e.
Proof.
  induction l as [|x l IH]; simpl; [discriminate|].
  destruct (g x) as [y|e'] eqn:Hx; simpl.
  - destruct (mapR g l) as [ys|e'']; simpl; [discriminate|].
    intros Heq. destruct (IH Heq) as (x' & Hin & Hx'). exists x'. split; [|done].
    now apply list_elem_of_further.
  - intros Heq. inversion Heq; subst. exists x. split; [apply list_elem_of_here|done].
Qed.

Lemma mapR_Raise_any {A B : Type} (g : A -> res B) (l : list A) (e : exn) :
  (forall x, x ∈ l -> g x = Raise e \/ exists y, g x = Ok y) ->
  (exists x, x ∈ l /\ g x = Raise e) ->
  mapR g l = Raise e.
Proof.
  induction l as [|x l IH]; intros Hall (x0 & Hin & Hx0); [now apply elem_of_nil in Hin|].
  simpl. destruct (Hall x (list_elem_of_here _ _)) as [Hx|[y Hx]]; rewrite Hx; simpl; [done|].
  rewrite IH; [done| |].
  - intros x' Hx'. apply Hall. now apply list_elem_of_further.
  - apply elem_of_cons in Hin as [->|Hin]; [congruence|]. now exists x0.
Qed.

Lemma foldR_Raise_inv {A B : Type} (g : A -> B -> res A) (a : A) (l : list B) (e : exn) :
  foldR g a l = Raise e -> exists a' x, x ∈ l /\ g a' x = Raise e.
Proof.
  revert a. induction l as [|x l IH]; intros a; simpl; [discriminate|].
  destruct (g a x) as [a1|e'] eqn:Hx; simpl.
  - intros Heq. destruct (IH _ Heq) as (a' & x' & Hin & Hx'). exists a', x'.
    split; [now apply list_elem_of_further|done].
  - intros Heq. inversion Heq; subst. exists a, x. split; [apply list_elem_of_here|done].
Qed.

Lemma broadcast_Raise {A B C : Type} (g : A -> B -> res C) (a : list A) (b : list B) (e : exn) :
  (forall x y e', g x y = Raise e' -> e' = ValueError) ->
  Np.broadcast g a b = Raise e -> e = ValueError.
Proof.
  intros Hg. unfold Np.broadcast.
  destruct (decide (length a = length b)) as [_|_].
  - intros Hr. apply mapR_Raise_inv in Hr as (xy & _ & Hxy). eauto.
  - destruct a as [|x [|x' a]]; destruct b as [|y [|y' b]];
      try (intros Hr; apply mapR_Raise_inv in Hr as (z & _ & Hz); eauto; fail);
      try (intros Hr; now inversion Hr).
Qed.

Lemma ewise_Raise {A : Type} (g : A -> A -> A) (a b : list A) (e : exn) :
  Np.ewise g a b = Raise e -> e = ValueError.
Proof. apply broadcast_Raise. intros x y e' Hr. discriminate. Qed.

Lemma ewise2_Raise {A : Type} (g : A -> A -> A) (M N : matrix A) (e : exn) :
  Np.ewise2 g M N = Raise e -> e = ValueError.
Proof. apply broadcast_Raise. intros x y e'. apply ewise_Raise. Qed.

Lemma setrow_Raise {A : Type} (w : nat) (M : matrix A) (i : nat) (row : list A) (e : exn) :
  Np.setrow w M i row = Raise e -> e = IndexError \/ e = ValueError.
Proof.
  unfold Np.setrow, index. destruct (M !! i) as [r|]; simpl.
  - destruct (decide (length row = w)); [discriminate|].
    destruct row as [|x [|x' row]]; intros Hr; inversion Hr; auto.
  - intros Hr. inversion Hr. auto.
Qed.

Section GetlogErrors.
Variable power : float -> float -> float.

Lemma getlog_bounds_Raise params omag useparams usemag e :
  getlog_bounds power params omag useparams usemag = Raise e ->
  e = TypeError /\ usemag = None /\ exists i, i < length params /\ i ∈ useparams.
Proof.
  unfold getlog_bounds. intros Hr.
  apply mapR_Raise_inv in Hr as ([i x] & Hin & Hx). simpl in Hx.
  apply elem_of_lookup_imap_1 in Hin as (i' & x' & Heq & Hi'). inversion Heq; subst i' x'.
  destruct (decide (i ∈ useparams)) as [Hi|Hi]; [|discriminate].
  destruct usemag; [discriminate|]. inversion Hx. repeat split.
  exists i. split; [now apply lookup_lt_Some in Hi'|done].
Qed.

(** X10. [getlog] raises [TypeError] exactly when [usemag] is left at
    [None] although [useparams] names one of the parameters: the magnitude
    of a featured parameter is then [pow(10, None)].  Indices of
    [useparams] beyond the parameters are never looked at. *)
Theorem getlog_usemag_missing sobolarr params omag useparams :
  getlog power sobolarr params omag useparams None = Raise TypeError
  <-> exists i, i < length params /\ i ∈ useparams.
Proof.
  split.
  - unfold getlog.
    destruct (getlog_bounds power params omag useparams None) as [bounds|e] eqn:Hb; simpl.
    + intros Hr. exfalso.
      destruct (Np.ewise F64.div bounds.*1 bounds.*2) as [ratio|e] eqn:Hratio; simpl in Hr.
      * destruct sobolarr as [u|U].
        -- destruct (Np.ewise power ratio u) as [pw|e] eqn:Hpw; simpl in Hr.
           ++ destruct (Np.ewise F64.mul bounds.*2 pw) as [r|e] eqn:Hmul; simpl in Hr;
                [discriminate|].
              inversion Hr; subst. now apply ewise_Raise in Hmul.
           ++ inversion Hr; subst. now apply ewise_Raise in Hpw.
        -- destruct (Np.ewise_vm power ratio U) as [pw|e] eqn:Hpw; simpl in Hr.
           ++ destruct (Np.ewise_vm F64.mul bounds.*2 pw) as [r|e] eqn:Hmul; simpl in Hr;
                [discriminate|].
              inversion Hr; subst. now apply ewise2_Raise in Hmul.
           ++ inversion Hr; subst. now apply ewise2_Raise in Hpw.
      * inversion Hr; subst. now apply ewise_Raise in Hratio.
    + intros Hr. inversion Hr; subst.
      now apply getlog_bounds_Raise in Hb as (_ & _ & Hex).
  - intros (i & Hi & Hin). unfold getlog, getlog_bounds.
    rewrite (mapR_Raise_any _ _ TypeError); [done| |].
    + intros [j x] _. simpl. destruct (decide (j ∈ useparams)); eauto.
    + destruct (lookup_lt_is_Some_2 params i Hi) as [x Hx]. exists (i, x). split.
      * now apply (elem_of_lookup_imap_2 pair).
      * simpl. now destruct (decide (i ∈ useparams)).
Qed.
End GetlogErrors.

(** ** The linear mapping *)

Lemma foldR_setrow_run {A B : Type} (w : nat) (g : nat * B -> res (list A))
    (h : nat * B -> list A) (l : list B) (k : nat) (M : matrix A) :
  (forall i b, l !! i = Some b -> g (k + i, b) = Ok (h (k + i, b)) /\ length (h (k + i, b)) = w) ->
  k + length l <= length M ->
  foldR (fun M (x : nat * B) => row ← g x; Np.setrow w M x.1 row) M
        (imap (fun i b => (k + i, b)) l)
  = Ok (take k M ++ imap (fun i b => h (k + i, b)) l ++ drop (k + length l) M).
Proof.
  revert k M. induction l as [|b l IH]; intros k M Hg Hlen; simpl.
  - rewrite Nat.add_0_r. now rewrite take_drop.
  - destruct (Hg 0 b eq_refl) as [Hg0 Hw0]. rewrite Hg0. simpl.
    rewrite setrow_same_width by (simpl in Hlen; lia || done). simpl.
    destruct (lookup_lt_is_Some_2 M k) as [r HMr]; [simpl in Hlen; lia|].
    rewrite (imap_ext _ (fun i b' => (S k + i, b'))) by (intros i x _; simpl; f_equal; lia).
    rewrite (IH (S k)).
    + f_equal. rewrite Nat.add_0_r in *.
      rewrite (imap_ext ((fun i b0 => h (k + i, b0)) ∘ S) (fun i b' => h (S k + i, b')))
        by (intros i x _; simpl; do 2 f_equal; lia).
      rewrite take_insert_lt by lia.
      rewrite drop_insert_lt by lia.
      replace (S k + length l) with (k + S (length l)) by lia.
      rewrite (take_S_r M k r HMr).
      apply lookup_lt_Some in HMr.
      rewrite insert_app_r_alt by (rewrite length_take; lia).
      rewrite length_take, Nat.min_l, Nat.sub_diag by lia. simpl.
      now rewrite <- app_assoc.
    + intros i b' Hi. replace (S k + i) with (k + S i) by lia. apply (Hg (S i) b' Hi).
    + rewrite length_insert. simpl in Hlen. lia.
Qed.

Section GetlinProps.
Variables (params : list float) (CV : float) (useparams : list nat) (useCV : option float).

#[local] Abbreviation cv_at := (lin_cv CV useparams useCV).

Lemma getlin_bounds_ok :
  (forall i, i < length params -> is_Some (cv_at i)) ->
  exists bounds,
    getlin_bounds params CV useparams useCV = Ok bounds
    /\ length bounds = length params
    /\ forall i x cv, params !! i = Some x -> cv_at i = Some cv ->
         bounds !! i = Some (lin_ub x cv, lin_lb x cv).
Proof.
  intros Hcv. unfold getlin_bounds.
  destruct (mapR_total
              (fun ip : nat * float =>
                 if decide (ip.1 ∈ useparams)
                 then match useCV with
                      | Some useCV =>
                          Ok (F64.add ip.2 (F64.mul ip.2 useCV),
                              F64.sub ip.2 (F64.mul ip.2 useCV))
                      | None => Raise TypeError
                      end
                 else Ok (F64.add ip.2 (F64.mul ip.2 CV), F64.sub ip.2 (F64.mul ip.2 CV)))
              (imap pair params)) as [bounds Hb].
  { apply Forall_lookup. intros i [j x] Hi.
    apply list_lookup_imap_Some in Hi as (x' & Hx & Heq). inversion Heq; subst. simpl.
    destruct (Hcv i) as [m Hm]; [now apply lookup_lt_Some in Hx|].
    unfold lin_cv in Hm. destruct (decide (i ∈ useparams)); [|eauto].
    rewrite Hm. eauto. }
  exists bounds. split; [exact Hb|]. apply mapR_Forall2 in Hb.
  split; [rewrite <- (Forall2_length _ _ _ Hb); apply length_imap|].
  intros i x m Hx Hm.
  assert (Hi : imap pair params !! i = Some (i, x)) by now rewrite list_lookup_imap, Hx.
  destruct (Forall2_lookup_l _ _ _ _ _ Hb Hi) as (y & Hy & Hg). rewrite Hy. f_equal.
  simpl in Hg. unfold lin_cv in Hm. unfold lin_ub, lin_lb.
  destruct (decide (i ∈ useparams)); [rewrite Hm in Hg|]; inversion Hg; congruence.
Qed.

Lemma getlin_row_ok (bounds : list (float * float)) (u : list float) :
  length u = length bounds ->
  getlin_row bounds.*1 bounds.*2 u
  = Ok (zip_with F64.add
          (zip_with F64.mul u (zip_with F64.sub bounds.*1 bounds.*2)) bounds.*2).
Proof.
  intros Hu. unfold getlin_row.
  rewrite (ewise_same_length F64.sub) by now rewrite !length_fmap. simpl.
  rewrite (ewise_same_length F64.mul) by (rewrite length_zip_with, !length_fmap; lia). simpl.
  rewrite (ewise_same_length F64.add) by (rewrite !length_zip_with, !length_fmap; lia).
  done.
Qed.

Lemma getlin_row_lookup (bounds : list (float * float)) (u : list float) i x cv ui :
  bounds !! i = Some (lin_ub x cv, lin_lb x cv) -> u !! i = Some ui ->
  zip_with F64.add (zip_with F64.mul u (zip_with F64.sub bounds.*1 bounds.*2)) bounds.*2 !! i
  = Some (lin_value x cv ui).
Proof.
  intros Hb Hu. rewrite !lookup_zip_with, !list_lookup_fmap, Hb, Hu. done.
Qed.

(** X11. With bounds ub = p + p*cv and lb = p - p*cv, where cv is
    [useCV] for an index in [useparams] and [CV] otherwise, [getlin]
    returns u*(ub - lb) + lb elementwise: for a one-axis array of as many
    samples as parameters, and row by row for a two-axis array of that
    width, whatever its number of rows. *)
Theorem getlin_linear (p : nat) :
  length params = p ->
  (forall i, i < p -> is_Some (cv_at i)) ->
  (forall u, length u = p ->
     exists r, getlin (Arr1 u) params CV useparams useCV = Ok (Arr1 r)
       /\ length r = p
       /\ forall i x cv ui, params !! i = Some x -> cv_at i = Some cv -> u !! i = Some ui ->
            r !! i = Some (lin_value x cv ui))
  /\ (forall n U, is_matrix n p U ->
        exists R, getlin (Arr2 U) params CV useparams useCV = Ok (Arr2 R)
          /\ is_matrix n p R
          /\ forall k i x cv urow ui,
               params !! i = Some x -> cv_at i = Some cv ->
               U !! k = Some urow -> urow !! i = Some ui ->
               R !! k ≫= (fun row => row !! i) = Some (lin_value x cv ui)).
Proof.
  intros Hp Hcv. rewrite <- Hp in Hcv.
  destruct (getlin_bounds_ok Hcv) as (bounds & Hb & Hlen & Hlook).
  split.
  - intros u Hu. unfold getlin. rewrite Hb. simpl.
    rewrite getlin_row_ok by lia. simpl.
    eexists. split; [reflexivity|].
    split; [rewrite !length_zip_with, !length_fmap; lia|].
    intros i x cv ui Hx Hm Hui. apply getlin_row_lookup; [now apply Hlook|done].
  - intros n U HU. unfold getlin. rewrite Hb. simpl.
    pose (h := fun iu : nat * list float =>
                 zip_with F64.add
                   (zip_with F64.mul iu.2 (zip_with F64.sub bounds.*1 bounds.*2)) bounds.*2).
    change (imap pair U) with (imap (fun i (b : list float) => (0 + i, b)) U).
    rewrite (foldR_setrow_run (ncols U)
               (fun iu : nat * list float => getlin_row bounds.*1 bounds.*2 iu.2) h).
    + simpl. rewrite drop_ge by (rewrite length_replicate; unfold nrows; lia).
      rewrite app_nil_r.
      eexists. split; [reflexivity|]. split.
      * destruct HU as [HnU HU]. split; [now rewrite length_imap|].
        apply Forall_lookup. intros k row Hk.
        apply list_lookup_imap_Some in Hk as (urow & Hk & ->).
        rewrite Forall_lookup in HU. specialize (HU k urow Hk). simpl in HU.
        unfold h. simpl. rewrite !length_zip_with, !length_fmap. lia.
      * intros k i x cv urow ui Hx Hm Hk Hui.
        rewrite list_lookup_imap, Hk. simpl. unfold h. simpl.
        apply getlin_row_lookup; [now apply Hlook|done].
    + intros i urow Hi. simpl.
      assert (Hrow : length urow = p) by apply (is_matrix_lookup n p U i urow HU Hi).
      split; [apply getlin_row_ok; lia|].
      unfold h. simpl. rewrite !length_zip_with, !length_fmap.
      rewrite (is_matrix_ncols n p U HU); [lia|].
      apply lookup_lt_Some in Hi. destruct HU. lia.
    + simpl. rewrite length_replicate. unfold nrows. lia.
Qed.

(** X12. [getlin] raises [TypeError] exactly when [useCV] is left at
    [None] although [useparams] names one of the parameters. *)
Theorem getlin_useCV_missing sobolarr :
  getlin sobolarr params CV useparams None = Raise TypeError
  <-> exists i, i < length params /\ i ∈ useparams.
Proof.
  split.
  - unfold getlin.
    destruct (getlin_bounds params CV useparams None) as [bounds|e] eqn:Hb; simpl.
    + intros Hr. exfalso.
      assert (Hrow : forall u e, getlin_row bounds.*1 bounds.*2 u = Raise e -> e = ValueError).
      { intros u e. unfold getlin_row.
        destruct (Np.ewise F64.sub _ _) as [w|e'] eqn:Hw; simpl;
          [|intros Hr'; inversion Hr'; subst; now apply ewise_Raise in Hw].
        destruct (Np.ewise F64.mul _ _) as [x|e'] eqn:Hx; simpl;
          [|intros Hr'; inversion Hr'; subst; now apply ewise_Raise in Hx].
        apply ewise_Raise. }
      destruct sobolarr as [u|U].
      * destruct (getlin_row bounds.*1 bounds.*2 u) as [r|e] eqn:Hu; simpl in Hr;
          [discriminate|].
        inversion Hr; subst. now apply Hrow in Hu.
      * destruct (foldR _ _ _) as [r|e] eqn:Hfold; simpl in Hr; [discriminate|].
        inversion Hr; subst.
        apply foldR_Raise_inv in Hfold as (M & iu & _ & Hstep).
        destruct (getlin_row bounds.*1 bounds.*2 iu.2) as [row|e] eqn:Hu; simpl in Hstep.
        -- apply setrow_Raise in Hstep as [?|?]; discriminate.
        -- inversion Hstep; subst. now apply Hrow in Hu.
    + intros Hr. inversion Hr; subst.
      unfold getlin_bounds in Hb.
      apply mapR_Raise_inv in Hb as ([i x] & Hin & Hx). simpl in Hx.
      apply elem_of_lookup_imap_1 in Hin as (i' & x' & Heq & Hi'). inversion Heq; subst i' x'.
      destruct (decide (i ∈ useparams)) as [Hi|Hi]; [|discriminate].
      exists i. split; [now apply lookup_lt_Some in Hi'|done].
  - intros (i & Hi & Hin). unfold getlin, getlin_bounds.
    rewrite (mapR_Raise_any _ _ TypeError); [done| |].
    + intros [j x] _. simpl. destruct (decide (j ∈ useparams)); eauto.
    + destruct (lookup_lt_is_Some_2 params i Hi) as [x Hx]. exists (i, x). split.
      * now apply (elem_of_lookup_imap_2 pair).
      * simpl. now destruct (decide (i ∈ useparams)).
Qed.
End GetlinProps.

Lemma getlin_linear_witness :
  exists r, getlin (Arr1 [F64.lit 5 1; F64.zero]) [F64.lit 2 0; F64.lit 3 0] (F64.lit 25 2)
              [1] (Some F64.tenth) = Ok (Arr1 r)
    /\ length r = 2
    /\ forall i x cv ui, [F64.lit 2 0; F64.lit 3 0] !! i = Some x ->
         lin_cv (F64.lit 25 2) [1] (Some F64.tenth) i = Some cv ->
         [F64.lit 5 1; F64.zero] !! i = Some ui ->
         r !! i = Some (lin_value x cv ui).
Proof.
  destruct (getlin_linear [F64.lit 2 0; F64.lit 3 0] (F64.lit 25 2) [1] (Some F64.tenth) 2
              eq_refl) as (H1 & _).
  - intros i Hi. unfold lin_cv. destruct (decide (i ∈ [1])); eauto.
  - apply H1. reflexivity.
Defined.

Lemma setrow_wide {A : Type} (w : nat) (M : matrix A) (i : nat) (row : list A) :
  i < length M -> length row <> w -> 2 <= length row ->
  Np.setrow w M i row = Raise ValueError.
Proof.
  intros Hi Hw Hrow. unfold Np.setrow.
  destruct (index_lt M i Hi) as (r & -> & _). simpl.
  destruct (decide (length row = w)); [done|].
  destruct row as [|x [|x' row]]; simpl in *; try lia; done.
Qed.

(** X13. The two samplers treat a sample matrix of one column
    differently when there are two or more parameters: [getlog] (with
    its default [useparams]) broadcasts it against the bounds and returns
    one column per parameter, [getlin] cannot store the rows it computes
    in the one-column result array and raises [ValueError]. *)
Theorem getlin_one_column (power : float -> float -> float) (params : list float)
    (CV : float) (omag : Z) (n p : nat) (U : matrix float) :
  is_matrix n 1 U -> 1 <= n -> length params = p -> 2 <= p ->
  getlin (Arr2 U) params CV [] None = Raise ValueError
  /\ exists R, getlog power (Arr2 U) params omag [] None = Ok (Arr2 R) /\ is_matrix n p R.
Proof.
  intros HU Hn Hp Hp2. split.
  - destruct (getlin_bounds_ok params CV [] None) as (bounds & Hb & Hlen & _).
    { intros i _. unfold lin_cv. destruct (decide (i ∈ [])) as [Hin|_]; [|eauto].
      now apply elem_of_nil in Hin. }
    unfold getlin. rewrite Hb. cbn [mbind res_bind rbind].
    destruct U as [|u0 U']; [destruct HU; simpl in *; lia|].
    destruct n as [|n']; [lia|]. apply is_matrix_cons in HU as [Hu0 _].
    destruct u0 as [|x [|x' u0]]; simpl in Hu0; try lia.
    assert (Hrow : getlin_row bounds.*1 bounds.*2 [x]
                   = Ok (zip_with F64.add
                           (map (F64.mul x) (zip_with F64.sub bounds.*1 bounds.*2))
                           bounds.*2)).
    { unfold getlin_row.
      rewrite (ewise_same_length F64.sub) by now rewrite !length_fmap.
      cbn [mbind res_bind rbind].
      assert (Hm : forall w, Np.ewise F64.mul [x] w = Ok (map (F64.mul x) w))
        by (intros w; unfold Np.ewise; rewrite broadcast_singleton_l; apply mapR_pure).
      rewrite Hm. cbn [mbind res_bind rbind].
      rewrite (ewise_same_length F64.add)
        by (rewrite length_map, length_zip_with, !length_fmap; lia).
      done. }
    cbn [imap foldR]. simpl fst. simpl snd.
    change (pair 0 [x]).2 with [x]. rewrite Hrow. simpl.
    rewrite setrow_wide; [done|simpl; lia| |];
      rewrite length_zip_with, length_map, length_zip_with, !length_fmap; lia.
  - destruct (getlog_bounds_ok power params omag [] None) as (bounds & Hb & Hlen & _).
    { intros i _. unfold spec_mag. destruct (decide (i ∈ [])) as [Hin|_]; [|eauto].
      now apply elem_of_nil in Hin. }
    unfold getlog. rewrite Hb. simpl.
    rewrite (ewise_same_length F64.div) by now rewrite !length_fmap. simpl.
    set (ratio := zip_with F64.div bounds.*1 bounds.*2).
    assert (Hratio : length ratio = p)
      by (unfold ratio; rewrite length_zip_with, !length_fmap; lia).
    assert (Hpw : Np.ewise_vm power ratio U
                  = Ok (map (fun u : list float =>
                               map (fun x => power x (u !!! 0)) ratio) U)).
    { unfold Np.ewise_vm, Np.ewise2. rewrite broadcast_singleton_l.
      rewrite <- mapR_pure. apply mapR_ext_Forall.
      destruct HU as [_ HU]. eapply Forall_impl; [exact HU|].
      intros u Hu. simpl in Hu. destruct u as [|y [|y' u]]; simpl in Hu; try lia.
      unfold Np.ewise. rewrite broadcast_singleton_r by lia. now rewrite mapR_pure. }
    rewrite Hpw. simpl.
    assert (HM : is_matrix n p (map (fun u : list float =>
                                       map (fun x => power x (u !!! 0)) ratio) U)).
    { destruct HU as [HnU _]. split; [now rewrite length_map|].
      apply Forall_fmap, Forall_forall. intros u _. simpl. now rewrite length_map. }
    rewrite (ewise_vm_rows F64.mul n p _ _ HM) by (rewrite length_fmap; lia). simpl.
    eexists. split; [reflexivity|].
    destruct HM as [HnM HM]. split; [now rewrite length_map|].
    apply Forall_fmap. eapply Forall_impl; [exact HM|]. intros row Hrow. simpl in *.
    rewrite length_zip_with, length_fmap. lia.
Qed.

Lemma getlin_one_column_witness :
  getlin (Arr2 [[F64.lit 5 1]]) [F64.lit 2 0; F64.lit 3 0] (F64.lit 25 2) [] None
  = Raise ValueError
  /\ exists R, getlog pow_table (Arr2 [[F64.lit 5 1]]) [F64.lit 2 0; F64.lit 3 0] 1 [] None
               = Ok (Arr2 R)
       /\ is_matrix 1 2 R.
Proof.
  apply (getlin_one_column pow_table [F64.lit 2 0; F64.lit 3 0] (F64.lit 25 2) 1 1 2
           [[F64.lit 5 1]]); try lia; try reflexivity.
  split; [reflexivity|repeat constructor].
Defined.

(** ** The data comparator: signs and the variance row *)

Section FloatSigns.
Local Open Scope Z_scope.

Lemma round_aux_cases sx mx ex lx :
  binary_round_aux 53 1024 sx mx ex lx = S754_nan
  \/ binary_round_aux 53 1024 sx mx ex lx = S754_zero sx
  \/ binary_round_aux 53 1024 sx mx ex lx = S754_infinity sx
  \/ exists m e, binary_round_aux 53 1024 sx mx ex lx = S754_finite sx m e.
Proof.
  unfold binary_round_aux.
  destruct (shr_fexp 53 1024 mx ex lx) as [mrs' e'].
  destruct (shr_fexp 53 1024 _ e' loc_Exact) as [mrs'' e''].
  destruct (shr_m mrs'') as [|m|m]; [auto|..|auto].
  destruct (e'' <=? 1024 - 53); eauto 6.
Qed.

Lemma shr_1_nonneg mrs : 0 <= shr_m mrs -> 0 <= shr_m (shr_1 mrs).
Proof.
  destruct mrs as [m r s]. simpl. destruct m as [|[p|p|]|p]; simpl; lia.
Qed.

Lemma shr_nonneg mrs e n : 0 <= shr_m mrs -> 0 <= shr_m (shr mrs e n).1.
Proof.
  intros Hm. unfold shr. destruct n as [|p|p]; simpl; [done| |done].
  rewrite iter_pos_nat. induction (Pos.to_nat p) as [|k IH]; simpl; [done|].
  now apply shr_1_nonneg.
Qed.

Lemma shr_fexp_nonneg m e l : 0 <= m -> 0 <= shr_m (shr_fexp 53 1024 m e l).1.
Proof.
  intros Hm. unfold shr_fexp. apply shr_nonneg.
  destruct l as [|[| |]]; simpl; lia.
Qed.

Lemma round_nearest_even_nonneg m l : 0 <= m -> 0 <= round_nearest_even m l.
Proof.
  intros Hm. unfold round_nearest_even. destruct l as [|[| |]]; try lia.
  destruct (Z.even m); lia.
Qed.

(** Rounding a non-negative mantissa never gives NaN. *)
Lemma round_aux_not_nan sx mx ex lx :
  0 <= mx -> binary_round_aux 53 1024 sx mx ex lx <> S754_nan.
Proof.
  intros Hm. unfold binary_round_aux.
  pose proof (shr_fexp_nonneg mx ex lx Hm) as H1.
  destruct (shr_fexp 53 1024 mx ex lx) as [mrs' e']. simpl in H1.
  pose proof (shr_fexp_nonneg _ e' loc_Exact
                (round_nearest_even_nonneg _ (loc_of_shr_record mrs') H1)) as H2.
  destruct (shr_fexp 53 1024 _ e' loc_Exact) as [mrs'' e'']. simpl in H2.
  destruct (shr_m mrs'') as [|m|m]; [done| |lia].
  now destruct (e'' <=? 1024 - 53).
Qed.
End FloatSigns.

Lemma mul_self_sign (x : float) : F64.mul x x = S754_nan \/ nonneg (F64.mul x x).
Proof.
  unfold F64.mul, F64.prec, F64.emax. destruct x as [s|s| |s m e]; cbn [SFmul].
  - right. now destruct s.
  - right. now destruct s.
  - now left.
  - rewrite xorb_nilpotent.
    destruct (round_aux_cases false (Zpos (m * m)) (e + e) loc_Exact)
      as [H|[H|[H|(m' & e' & H)]]]; rewrite H; auto; now right.
Qed.

Lemma mul_two_sign (x : float) :
  x = S754_nan \/ nonneg x -> F64.mul x F64.two = S754_nan \/ nonneg (F64.mul x F64.two).
Proof.
  rewrite two_finite. unfold F64.mul, F64.prec, F64.emax.
  intros [->|Hx]; [now left|].
  destruct x as [[]|[]| |[] m e]; try done; cbn [SFmul xorb]; try (now right).
  destruct (round_aux_cases false (Zpos (m * 4503599627370496)) (e + -51) loc_Exact)
    as [H|[H|[H|(m' & e' & H)]]]; rewrite H; auto; now right.
Qed.

Lemma div_sign (a b : float) :
  a = S754_nan \/ nonneg a -> b = S754_nan \/ nonneg b ->
  F64.div a b = S754_nan \/ nonneg (F64.div a b).
Proof.
  unfold F64.div, F64.prec, F64.emax.
  intros [->|Ha]; [now left|]. intros [->|Hb]; [left; now destruct a|].
  destruct a as [[]|[]| |[] ma ea]; try done;
    destruct b as [[]|[]| |[] mb eb]; try done; cbn [SFdiv xorb]; auto; try (now right).
  destruct (SFdiv_core_binary 53 1024 (Zpos ma) ea (Zpos mb) eb) as [[mz ez] lz].
  destruct (round_aux_cases false mz ez lz) as [H|[H|[H|(m' & e' & H)]]]; rewrite H; auto;
    now right.
Qed.

Lemma clamp_sign (x : float) :
  x = S754_nan \/ nonneg x -> nonneg (clamp x).
Proof.
  intros [->|Hx]; [done|]. unfold clamp. now destruct x as [[]|[]| |[] m e].
Qed.

Lemma add_nonneg (a b : float) : nonneg a -> nonneg b -> nonneg (F64.add a b).
Proof.
  unfold F64.add, F64.prec, F64.emax.
  destruct a as [[]|[]| |[] ma ea]; try done;
    destruct b as [[]|[]| |[] mb eb]; try done; intros _ _.
  cbn [SFadd cond_Zopp]. set (ez := Z.min ea eb).
  change (Zpos (shl_align ma ea ez).1 + Zpos (shl_align mb eb ez).1)%Z
    with (Zpos ((shl_align ma ea ez).1 + (shl_align mb eb ez).1)).
  cbn [binary_normalize]. unfold binary_round.
  destruct (shl_align _ _ _) as [mz ez'].
  pose proof (round_aux_not_nan false (Zpos mz) ez' loc_Exact ltac:(lia)) as Hnan.
  destruct (round_aux_cases false (Zpos mz) ez' loc_Exact) as [H|[H|[H|(m' & e' & H)]]];
    rewrite H in *; done.
Qed.

Lemma sum_nonneg (l : list float) : Forall nonneg l -> nonneg (Np.sum l).
Proof.
  unfold Np.sum. assert (Hz : nonneg F64.zero) by done. revert Hz.
  generalize F64.zero. induction l as [|x l IH]; intros acc Hacc Hall; simpl; [done|].
  inversion Hall; subst. apply IH; [|done]. now apply add_nonneg.
Qed.

Lemma broadcast_elems {A B C : Type} (g : A -> B -> res C) (a : list A) (b : list B)
    (r : list C) (R : C -> Prop) :
  Np.broadcast g a b = Ok r ->
  (forall x y z, x ∈ a -> y ∈ b -> g x y = Ok z -> R z) ->
  Forall R r.
Proof.
  intros Hrun Hg. unfold Np.broadcast in Hrun.
  assert (Hzip : mapR (fun xy : A * B => g xy.1 xy.2) (zip a b) = Ok r -> Forall R r).
  { intros Hm. apply mapR_Forall2 in Hm. apply Forall_lookup. intros i z Hi.
    destruct (Forall2_lookup_r _ _ _ _ _ Hm Hi) as ([x y] & Hxy & Hz). simpl in Hz.
    apply lookup_zip_with_Some in Hxy as (x' & y' & Heq & Hx & Hy). inversion Heq; subst.
    apply (Hg x' y' z); [by eapply list_elem_of_lookup_2..|done]. }
  assert (Hleft : forall x, a = [x] -> mapR (g x) b = Ok r -> Forall R r).
  { intros x -> Hm. apply mapR_Forall2 in Hm. apply Forall_lookup. intros i z Hi.
    destruct (Forall2_lookup_r _ _ _ _ _ Hm Hi) as (y & Hy & Hz).
    apply (Hg x y z); [apply list_elem_of_here|by eapply list_elem_of_lookup_2|done]. }
  assert (Hright : forall y, b = [y] -> mapR (fun x => g x y) a = Ok r -> Forall R r).
  { intros y -> Hm. apply mapR_Forall2 in Hm. apply Forall_lookup. intros i z Hi.
    destruct (Forall2_lookup_r _ _ _ _ _ Hm Hi) as (x & Hx & Hz).
    apply (Hg x y z); [by eapply list_elem_of_lookup_2|apply list_elem_of_here|done]. }
  destruct (decide (length a = length b)); [auto|].
  destruct a as [|x [|x' a]]; destruct b as [|y [|y' b]]; try discriminate; eauto.
Qed.

Lemma ewise_elems {A : Type} (g : A -> A -> A) (a b r : list A) (P Q R : A -> Prop) :
  Np.ewise g a b = Ok r -> Forall P a -> Forall Q b ->
  (forall x y, P x -> Q y -> R (g x y)) -> Forall R r.
Proof.
  intros Hrun Ha Hb Hg. apply (broadcast_elems _ _ _ _ R Hrun).
  intros x y z Hx Hy Hz. inversion Hz; subst.
  rewrite Forall_forall in Ha, Hb. auto.
Qed.

Lemma ewise_self {A : Type} (g : A -> A -> A) (a : list A) :
  Np.ewise g a a = Ok (map (fun x => g x x) a).
Proof.
  rewrite ewise_same_length by done. f_equal.
  induction a as [|x a IH]; simpl; [done|]. now rewrite IH.
Qed.

Section CompareMore.
Context {spline : Type}.
Variable splrep : list float -> list float -> res spline.
Variable splev : list float -> spline -> res (list float).

(** X14. Without variance data the objective cannot be negative or NaN:
    whenever [compare_data] returns with [vardata] false, every entry of
    its result is zero, a positive number or plus infinity, whatever the
    arrays hold and whatever the spline evaluation returned. *)
Theorem compare_data_default_variance_sign xparray simarray xspairlist out :
  compare_data splrep splev xparray simarray xspairlist false = Ok out ->
  Forall nonneg out.
Proof.
  unfold compare_data. intros Hrun. apply mapR_Forall2 in Hrun.
  apply Forall_lookup. intros i y Hi.
  destruct (Forall2_lookup_r _ _ _ _ _ Hrun Hi) as (pair & _ & Hy).
  clear Hrun Hi. unfold compare_pair in Hy.
  destruct (index simarray 0) as [simt|]; simpl in Hy; [|discriminate].
  destruct (index simarray pair.2) as [simy|]; simpl in Hy; [|discriminate].
  destruct (splrep simt simy) as [tck|]; simpl in Hy; [|discriminate].
  destruct (index xparray 0) as [xpt|]; simpl in Hy; [|discriminate].
  destruct (splev xpt tck) as [ipsimarray|]; simpl in Hy; [|discriminate].
  destruct (index xparray pair.1) as [xprow|]; simpl in Hy; [|discriminate].
  destruct (Np.ewise F64.sub _ xprow) as [diffarray|]; simpl in Hy; [|discriminate].
  rewrite !ewise_self in Hy. simpl in Hy.
  destruct (Np.ewise F64.div _ _) as [objarray|] eqn:Hobj; simpl in Hy; [|discriminate].
  inversion Hy; subst y. apply sum_nonneg, Forall_fmap.
  eapply Forall_impl; [|intros x Hx; apply clamp_sign; exact Hx].
  pose (NN := fun x : float => x = S754_nan \/ nonneg x).
  apply (ewise_elems _ _ _ _ NN NN NN Hobj).
  - apply Forall_fmap, Forall_forall. intros d _. simpl. apply mul_self_sign.
  - apply Forall_fmap, Forall_fmap, Forall_fmap, Forall_forall. intros x _. simpl.
    apply mul_two_sign, mul_self_sign.
  - intros a b Ha Hb. now apply div_sign.
Qed.
End CompareMore.

Lemma compare_data_default_variance_sign_witness :
  Forall nonneg [Np.sum (replicate 4 F64.tiny)].
Proof.
  apply (compare_data_default_variance_sign knots_splrep knots_splev zero_xpdata ones_simdata [(1, 1)]).
  vm_compute. reflexivity.
Defined.

Section CompareVariance.
Context {spline : Type}.
Variable splrep : list float -> list float -> res spline.
Variable splev : list float -> spline -> res (list float).
Hypothesis splev_length : forall x tck r, splev x tck = Ok r -> length r = length x.

Lemma compare_pair_last_row k m xparray simarray (pair : nat * nat) ip :
  is_matrix k m xparray -> 0 < length simarray ->
  pair.1 + 1 = k -> pair.2 < length simarray ->
  resampled_sim splrep splev xparray simarray pair = Ok ip ->
  compare_pair splrep splev xparray simarray true pair = Raise IndexError.
Proof.
  intros HM Hsim Hp1 Hp2 Hspline.
  assert (Hlen : length xparray = k) by now destruct HM.
  unfold resampled_sim in Hspline.
  destruct (splrep (simarray !!! 0) (simarray !!! pair.2)) as [tck|e] eqn:Hrep;
    simpl in Hspline; [|discriminate].
  unfold compare_pair.
  rewrite (index_total simarray 0), (index_total simarray pair.2) by lia. simpl.
  rewrite Hrep. simpl.
  rewrite (index_total xparray 0) by lia. simpl. rewrite Hspline. simpl.
  rewrite (index_total xparray pair.1) by lia. simpl.
  assert (Hip : length ip = m).
  { rewrite (splev_length _ _ _ Hspline). apply (is_matrix_lookup_total k m); [done|lia]. }
  assert (Hrow : length (xparray !!! pair.1) = m)
    by (apply (is_matrix_lookup_total k m); [done|lia]).
  rewrite (ewise_same_length F64.sub) by (now rewrite Hip). simpl.
  rewrite (ewise_same_length F64.mul) by done. simpl.
  unfold index. rewrite lookup_ge_None_2 by lia. done.
Qed.

(** X15. With [vardata] true the variances of a measurement row are
    read from the row after it, so the last row of the experimental array
    cannot be a measurement row: if a pairing names it (all pairings
    naming rows that exist, and the spline fit of every pairing
    returning), [compare_data] raises [IndexError]. *)
Theorem compare_data_variance_row_missing k m xparray simarray xspairlist ips :
  is_matrix k m xparray -> 0 < length simarray ->
  Forall (fun pair : nat * nat => pair.1 < k /\ pair.2 < length simarray) xspairlist ->
  Forall2 (fun pair ip => resampled_sim splrep splev xparray simarray pair = Ok ip)
          xspairlist ips ->
  Exists (fun pair : nat * nat => pair.1 + 1 = k) xspairlist ->
  compare_data splrep splev xparray simarray xspairlist true = Raise IndexError.
Proof.
  intros HM Hsim Hall Hips Hex. unfold compare_data.
  assert (Hip : forall pair, pair ∈ xspairlist ->
            exists ip, resampled_sim splrep splev xparray simarray pair = Ok ip).
  { intros pair Hin. apply list_elem_of_lookup in Hin as [i Hi].
    destruct (Forall2_lookup_l _ _ _ _ _ Hips Hi) as (ip & _ & Hspline). eauto. }
  apply mapR_Raise_any.
  - intros pair Hin. rewrite Forall_forall in Hall. destruct (Hall pair Hin) as [Hp1 Hp2].
    destruct (Hip pair Hin) as [ip Hspline].
    destruct (decide (pair.1 + 1 = k)) as [Hlast|Hnot].
    + left. now apply (compare_pair_last_row k m _ _ _ ip).
    + right. eexists. apply (compare_pair_guarded splrep splev splev_length k m _ _ _ _ ip);
        [done|lia|done| |done]. split; [done|]. split; [intros _; lia|done].
  - apply Exists_exists in Hex as (pair & Hin & Hlast).
    exists pair. split; [done|].
    rewrite Forall_forall in Hall. destruct (Hall pair Hin) as [Hp1 Hp2].
    destruct (Hip pair Hin) as [ip Hspline].
    now apply (compare_pair_last_row k m _ _ _ ip).
Qed.
End CompareVariance.

Lemma compare_data_variance_row_missing_witness :
  compare_data knots_splrep knots_splev zero_xpdata ones_simdata [(1, 1)] true
  = Raise IndexError.
Proof.
  apply (compare_data_variance_row_missing knots_splrep knots_splev knots_splev_length 2 4
           zero_xpdata ones_simdata [(1, 1)] [[F64.one; F64.one; F64.one; F64.one]]).
  - split; [reflexivity|repeat constructor].
  - simpl. lia.
  - repeat constructor; simpl; lia.
  - repeat constructor.
  - constructor. reflexivity.
Defined.

(** ** Normalisation of a row that does not move *)

Lemma maximum_same (c : float) : F64.maximum c c = c.
Proof. unfold F64.maximum. destruct (F64.isnan c); [done|]. now destruct (SFltb c c). Qed.

Lemma minimum_same (c : float) : F64.minimum c c = c.
Proof. unfold F64.minimum. destruct (F64.isnan c); [done|]. now destruct (SFltb c c). Qed.

Lemma fold1_constant (g : float -> float -> float) (c : float) (p : nat) :
  g c c = c -> 1 <= p -> fold1 g (replicate p c) = c.
Proof.
  intros Hg Hp. destruct p as [|p]; [lia|]. simpl.
  induction p as [|p IH]; simpl; [done|]. rewrite Hg. apply IH. lia.
Qed.

Lemma sub_self_div (c : float) : F64.div (F64.sub c c) (F64.sub c c) = S754_nan.
Proof.
  unfold F64.div, F64.sub, F64.prec, F64.emax.
  destruct c as [[]|[]| |s m e]; try done.
  cbn [SFsub]. rewrite Z.sub_diag. done.
Qed.

Lemma minmax_scaled_constant (c : float) (p : nat) :
  1 <= p -> minmax_scaled (replicate p c) = replicate p S754_nan.
Proof.
  intros Hp. unfold minmax_scaled.
  rewrite (fold1_constant F64.minimum c p (minimum_same c) Hp).
  rewrite (fold1_constant F64.maximum c p (maximum_same c) Hp).
  rewrite fmap_replicate. now rewrite sub_self_div.
Qed.

(** X16. An observable that keeps one value over the whole time grid is
    normalised to NaN at every time point: its maximum and minimum
    coincide, and the scaling divides zero by zero (for an infinite or
    NaN value the difference itself is NaN). *)
Theorem normalize_constant_row n p (out : matrix float) r (c : float) :
  is_matrix n p out -> 1 <= p -> 1 <= r ->
  out !! r = Some (replicate p c) ->
  exists outlistnorm,
    normalize out = Ok outlistnorm
    /\ outlistnorm !! r = Some (replicate p S754_nan).
Proof.
  intros HM Hp Hr Hrow.
  assert (Hn : 1 <= n) by (apply lookup_lt_Some in Hrow; destruct HM; lia).
  destruct (normalize_rows n p out HM Hn Hp) as (N & Hrun & _ & _ & Hrows).
  exists N. split; [done|].
  rewrite <- (minmax_scaled_constant c p Hp). now apply Hrows.
Qed.

Lemma normalize_constant_row_witness :
  exists outlistnorm,
    normalize ones_simdata = Ok outlistnorm
    /\ outlistnorm !! 1 = Some (replicate 4 S754_nan).
Proof.
  apply (normalize_constant_row 2 4 ones_simdata 1 F64.one); try lia; try reflexivity.
  split; [reflexivity|repeat constructor].
Defined.

(** ** The evaluator: the time grid of its solves *)

Section ParmevalMore.
Variable odeint : (list float -> float -> list float) -> list float -> list float -> matrix float.

Lemma odesolve_nsteps model tfinal params useparams tinit ic env :
  nsteps (odesolve odeint model tfinal params useparams tinit ic env).2 = nsteps env.
Proof.
  unfold odesolve, mbind, ST_bind.
  pose proof (write_params_same_but_p params useparams env) as Hsame.
  destruct (write_params params useparams env) as [[[]|e] env1];
    destruct Hsame as (_ & _ & Hn & _); simpl in Hn; [|done].
  destruct ic.
  - destruct (reset_ics_run (initial_conditions model) env1) as (yz' & Hreset & _).
    rewrite Hreset. destruct (assign_ics _ _) as [yz|e]; [|done].
    unfold get_env at 1, lift, mret, ST_ret.
    now destruct (foldR _ _ _).
  - unfold mret at 1, ST_ret at 1, get_env at 1, lift, mret, ST_ret.
    now destruct (foldR _ _ _).
Qed.

(** X17. [parmeval] hands [ic] to [odesolve] in the place of [tinit]:
    every solve of the evaluator runs over the time grid from [float(ic)]
    to [time] (from 1.0 with the default [ic=True]), and the initial
    conditions are put back before every solve whether [ic] is true or
    not. *)
Theorem parmeval_solve_grid model time ic useparams row env sol env' :
  solve_row odeint model time ic useparams row env = (Ok sol, env') ->
  xout sol = linspace (float_of_bool ic) time (nsteps env)
  /\ assign_ics (initial_conditions model) (yzero env) = Ok (yzero env').
Proof.
  unfold solve_row. intros Hrun.
  destruct (odesolve_integrates odeint _ _ _ _ _ _ _ _ _ Hrun) as (Hx & _ & _).
  pose proof (odesolve_nsteps model time row useparams (float_of_bool ic) true env) as Hn.
  rewrite Hrun in Hn. simpl in Hn. rewrite Hn in Hx. split; [done|].
  exact (odesolve_yzero odeint _ _ _ _ _ _ _ _ _ Hrun).
Qed.

End ParmevalMore.

Lemma parmeval_solve_grid_witness :
  xout decay_solution = linspace F64.one (F64.of_Z 4) 5
  /\ assign_ics (initial_conditions decay_model) (yzero decay_env)
     = Ok (yzero decay_env_after).
Proof.
  apply (parmeval_solve_grid euler decay_model (F64.of_Z 4) true None decay_row decay_env
           decay_solution decay_env_after decay_solve_run).
Defined.

(** ** The evaluator with normalisation: one row, one objective *)

Lemma foldS_inv {A B : Type} (body : A -> B -> ST A) (a : A) (x : B) (xs : list B)
    (env env' : Env) (a' : A) :
  foldS body a (x :: xs) env = (Ok a', env') ->
  exists a1 env1, body a x env = (Ok a1, env1) /\ foldS body a1 xs env1 = (Ok a', env').
Proof.
  simpl. unfold mbind, ST_bind.
  destruct (body a x env) as [[a1|e] env1]; [|discriminate].
  intros H. now exists a1, env1.
Qed.

Section ParmevalRows.
Variable odeint : (list float -> float -> list float) -> list float -> list float -> matrix float.
Context {spline : Type}.
Variable splrep : list float -> list float -> res spline.
Variable splev : list float -> spline -> res (list float).
Variables (model : Model) (time : float) (xpdata : matrix float)
  (xspairlist : list (nat * nat)) (ic vardata : bool) (useparams : option (list nat)).
Variables (p : nat) (env : Env).

#[local] Abbreviation solve := (solve_row odeint model time ic useparams).
#[local] Abbreviation objective :=
  (body_norm odeint splrep splev model time xpdata xspairlist ic vardata useparams).
#[local] Abbreviation nobs := (length (observable_patterns model)).

#[local] Abbreviation solves_alike := (solves_alike odeint model time ic useparams p env).

Lemma solves_alike_step (e e' : Env) (row : list float) (sol : Solution) :
  solves_alike e -> length row = p -> solve row e = (Ok sol, e') -> solves_alike e'.
Proof.
  intros He Hrow Hrun row' Hrow'. rewrite <- (He row' Hrow').
  unfold solve_row in *.
  apply (odesolve_after_solve odeint model time (float_of_bool ic) time row row' useparams
           (float_of_bool ic) true e sol e'); [lia|done].
Qed.

Lemma objective_alike (e : Env) (row : list float) :
  solves_alike e -> length row = p ->
  (objective row e).1 = (objective row env).1
  /\ forall r e', objective row e = (Ok r, e') -> solves_alike e'.
Proof.
  intros He Hrow. unfold body_norm, mbind, ST_bind. rewrite <- (He row Hrow).
  split; [done|].
  destruct (solve row e) as [[sol|err] e1] eqn:Hsolve; [|discriminate].
  unfold lift. destruct (normalize (xyobs sol)) as [on|err]; [|discriminate].
  destruct (compare_data _ _ _ _ _) as [y|err]; [|discriminate].
  intros r e' Heq. inversion Heq; subst r e'. now apply (solves_alike_step e e1 row sol).
Qed.

(** The rows [k], [k+1], ... of a design matrix, one after the other. *)
Lemma rows_loop_from (raw : option (matrix float) -> list float -> ST (list float))
    (mtx : matrix float) (n k : nat) (acc acc' : matrix float * option (matrix float))
    (e e' : Env) :
  Forall (fun row => length row = p) mtx ->
  solves_alike e ->
  foldS (rows_body odeint splrep splev model time xpdata xspairlist ic vardata useparams
           true raw nobs mtx) acc (seq k n) e = (Ok acc', e') ->
  solves_alike e'
  /\ length acc'.1 = length acc.1
  /\ (forall j, j < k -> acc'.1 !! j = acc.1 !! j)
  /\ forall i row, k <= i < k + n -> mtx !! i = Some row ->
       exists on y, (objective row env).1 = Ok (on, y)
                    /\ acc'.1 !! i = Some (fit nobs y).
Proof.
  intros Hmtx. revert k acc e. induction n as [|n IH]; intros k acc e He Hrun.
  - simpl in Hrun. inversion Hrun; subst acc' e'. repeat split; [done|]. intros i row Hi. lia.
  - simpl in Hrun. apply foldS_inv in Hrun as (acc1 & e1 & Hstep & Hrest).
    unfold rows_body in Hstep. unfold mbind at 1, ST_bind at 1, lift at 1 in Hstep.
    destruct (index mtx k) as [row|err] eqn:Hrow; [|discriminate].
    assert (Hk : mtx !! k = Some row).
    { unfold index in Hrow. destruct (mtx !! k); [now inversion Hrow|discriminate]. }
    assert (Hlen : length row = p).
    { rewrite Forall_lookup in Hmtx. apply (Hmtx k row Hk). }
    unfold mbind at 1, ST_bind at 1 in Hstep.
    destruct (objective row e) as [[r|err] e2] eqn:Hobj; [|discriminate].
    destruct (objective_alike e row He Hlen) as [Hsame Hnext].
    rewrite Hobj in Hsame. simpl in Hsame.
    specialize (Hnext r e2 Hobj).
    unfold mbind, ST_bind, lift, mret, ST_ret in Hstep.
    destruct (Np.setrow nobs acc.1 k r.2) as [y1|err] eqn:Hset; [|discriminate].
    inversion Hstep; subst acc1 e1. clear Hstep.
    apply setrow_inv in Hset as [Hkacc ->].
    destruct (IH (S k) _ e2 Hnext Hrest) as (He' & Hlen' & Hframe & Hrows).
    simpl in Hlen', Hframe, Hrows. rewrite length_insert in Hlen'.
    split; [done|]. split; [done|]. split.
    + intros j Hj. rewrite Hframe by lia. apply list_lookup_insert_ne. lia.
    + intros i row' Hi Hi'. destruct (decide (i = k)) as [->|Hne].
      * rewrite Hk in Hi'. inversion Hi'; subst row'.
        destruct r as [on y]. exists on, y. split; [now symmetry|].
        rewrite Hframe by lia. now apply list_lookup_insert_eq.
      * apply Hrows; [lia|done].
Qed.

Lemma rows_loop_rows (raw : option (matrix float) -> list float -> ST (list float))
    (mtx : matrix float) (acc acc' : matrix float * option (matrix float)) (e e' : Env) :
  Forall (fun row => length row = p) mtx ->
  solves_alike e ->
  rows_loop odeint splrep splev model time xpdata xspairlist ic vardata useparams
    true raw nobs mtx acc e = (Ok acc', e') ->
  solves_alike e'
  /\ length acc'.1 = length acc.1
  /\ forall i row, mtx !! i = Some row ->
       exists on y, (objective row env).1 = Ok (on, y)
                    /\ acc'.1 !! i = Some (fit nobs y).
Proof.
  intros Hmtx He Hrun. unfold rows_loop in Hrun.
  destruct (rows_loop_from raw mtx _ 0 acc acc' e e' Hmtx He Hrun) as (H1 & H2 & _ & H3).
  split; [done|]. split; [done|]. intros i row Hi. apply H3; [|done].
  apply lookup_lt_Some in Hi. unfold nrows. lia.
Qed.

(** The C matrices [k], [k+1], ... *)
Lemma C_loop_from (sobmtxC : list (matrix float)) (n k : nat)
    (acc acc' : list (matrix float) * option (matrix float)) (e e' : Env) :
  Forall (Forall (fun row => length row = p)) sobmtxC ->
  solves_alike e ->
  foldS (fun (acc : list (matrix float) * option (matrix float)) i =>
           Ci ← lift (index sobmtxC i);
           yCi ← lift (index acc.1 i);
           r ← rows_loop odeint splrep splev model time xpdata xspairlist ic vardata useparams
                 true (body_raw_BC odeint splrep splev model time xpdata xspairlist ic vardata
                         useparams) nobs Ci (yCi, acc.2);
           mret (<[i := r.1]> acc.1, r.2))
        acc (seq k n) e = (Ok acc', e') ->
  (forall j, j < k -> acc'.1 !! j = acc.1 !! j)
  /\ forall i Ci j row, k <= i < k + n -> sobmtxC !! i = Some Ci -> Ci !! j = Some row ->
       exists on y, (objective row env).1 = Ok (on, y)
                    /\ acc'.1 !! i ≫= (fun yCi => yCi !! j) = Some (fit nobs y).
Proof.
  intros HC. revert k acc e. induction n as [|n IH]; intros k acc e He Hrun.
  - simpl in Hrun. inversion Hrun; subst acc' e'. split; [done|]. intros i Ci j row Hi. lia.
  - change (seq k (S n)) with (k :: seq (S k) n) in Hrun.
    apply foldS_inv in Hrun as (acc1 & e1 & Hstep & Hrest).
    unfold mbind at 1, ST_bind at 1, lift at 1 in Hstep.
    destruct (index sobmtxC k) as [Ck|err] eqn:HCk; [|discriminate].
    assert (Hk : sobmtxC !! k = Some Ck).
    { unfold index in HCk. destruct (sobmtxC !! k); [now inversion HCk|discriminate]. }
    unfold mbind at 1, ST_bind at 1, lift at 1 in Hstep.
    destruct (index acc.1 k) as [yCk|err] eqn:HyCk; [|discriminate].
    assert (Hkacc : k < length acc.1).
    { unfold index in HyCk. destruct (acc.1 !! k) eqn:Hl; [|discriminate].
      now apply lookup_lt_Some in Hl. }
    unfold mbind at 1, ST_bind at 1 in Hstep.
    destruct (rows_loop _ _ _ _ _ _ _ _ _ _ _ _ _ _ _ e) as [[r|err] e2] eqn:Hloop;
      [|discriminate].
    unfold mret, ST_ret in Hstep. inversion Hstep; subst acc1 e1. clear Hstep.
    assert (HCk' : Forall (fun row => length row = p) Ck).
    { rewrite Forall_lookup in HC. apply (HC k Ck Hk). }
    destruct (rows_loop_rows _ Ck _ r e e2 HCk' He Hloop) as (He2 & _ & Hrows).
    destruct (IH (S k) _ e2 He2 Hrest) as (Hframe & Hlater).
    simpl in Hframe, Hlater. split.
    + intros j Hj. rewrite Hframe by lia. apply list_lookup_insert_ne. lia.
    + intros i Ci j row Hi HCi Hj. destruct (decide (i = k)) as [->|Hne].
      * rewrite Hk in HCi. inversion HCi; subst Ci.
        destruct (Hrows j row Hj) as (on & y & Hobj & Hy). exists on, y. split; [done|].
        rewrite Hframe by lia. rewrite list_lookup_insert_eq by done. exact Hy.
      * apply (Hlater i Ci j row); [lia|done..].
Qed.
End ParmevalRows.

Lemma bind_Ok_inv {A B : Type} (m : ST A) (k : A -> ST B) (env env' : Env) (b : B) :
  (m ≫= k) env = (Ok b, env') ->
  exists a env1, m env = (Ok a, env1) /\ k a env1 = (Ok b, env').
Proof.
  unfold mbind, ST_bind. destruct (m env) as [[a|e] env1]; [|discriminate].
  intros H. now exists a, env1.
Qed.

Section ParmevalNorm.
Variable odeint : (list float -> float -> list float) -> list float -> list float -> matrix float.
Context {spline : Type}.
Variable splrep : list float -> list float -> res spline.
Variable splev : list float -> spline -> res (list float).

(** X19. With [norm] true every stored objective is the objective of its
    own row alone.  When all rows of the three designs have the same
    length and [parmeval] returns, [yA[i]], [yB[i]] and [yC[k][j]] hold
    what solving, normalising and comparing the row [sobmtxA[i]],
    [sobmtxB[i]], [sobmtxC[k][j]] gives from the environment of the call:
    no row sees the parameters written for the rows before it. *)
Theorem parmeval_norm_rows model time xpdata xspairlist ic vardata useparams (p : nat)
    sobmtxA sobmtxB sobmtxC env yA yB yC env' :
  Forall (fun row => length row = p) sobmtxA ->
  Forall (fun row => length row = p) sobmtxB ->
  Forall (Forall (fun row => length row = p)) sobmtxC ->
  parmeval odeint splrep splev model time xpdata xspairlist ic vardata useparams
    sobmtxA sobmtxB sobmtxC true false env = (Ok (yA, yB, yC), env') ->
  let nobs := length (observable_patterns model) in
  let objective :=
    fun row => (body_norm odeint splrep splev model time xpdata xspairlist ic vardata useparams
                  row env).1 in
  (forall i row, sobmtxA !! i = Some row ->
     exists on y, objective row = Ok (on, y) /\ yA !! i = Some (fit nobs y))
  /\ (forall i row, sobmtxB !! i = Some row ->
        exists on y, objective row = Ok (on, y) /\ yB !! i = Some (fit nobs y))
  /\ (forall k Ck j row, sobmtxC !! k = Some Ck -> Ck !! j = Some row ->
        exists on y, objective row = Ok (on, y)
                     /\ yC !! k ≫= (fun yCk => yCk !! j) = Some (fit nobs y)).
Proof.
  intros HA HB HC Hrun nobs objective. unfold parmeval in Hrun.
  apply bind_Ok_inv in Hrun as (a & e1 & Ha & Hrun).
  apply bind_Ok_inv in Hrun as (b & e2 & Hb & Hrun).
  apply bind_Ok_inv in Hrun as (c & e3 & Hc & Hrun).
  unfold mbind, ST_bind, mret, ST_ret in Hrun. inversion Hrun; subst yA yB yC env'.
  clear Hrun.
  assert (He : solves_alike odeint model time ic useparams p env env) by (intros row _; done).
  destruct (rows_loop_rows odeint splrep splev model time xpdata xspairlist ic vardata useparams
              p env _ sobmtxA _ a env e1 HA He Ha) as (He1 & _ & HrowsA).
  destruct (rows_loop_rows odeint splrep splev model time xpdata xspairlist ic vardata useparams
              p env _ sobmtxB _ b e1 e2 HB He1 Hb) as (He2 & _ & HrowsB).
  destruct (C_loop_from odeint splrep splev model time xpdata xspairlist ic vardata useparams
              p env sobmtxC _ 0 _ c e2 e3 HC He2 Hc) as (_ & HrowsC).
  split; [exact HrowsA|]. split; [exact HrowsB|].
  intros k Ck j row Hk Hj. apply (HrowsC k Ck j row); [|done..].
  apply lookup_lt_Some in Hk. lia.
Qed.
End ParmevalNorm.

Lemma parmeval_norm_rows_witness :
  exists on y,
    (body_norm euler knots_splrep knots_splev decay_model (F64.of_Z 4) zero_xpdata [(1, 1)] true false None
       [F64.tenth; F64.two] decay_env).1 = Ok (on, y)
    /\ decay_yA !! 1 = Some (fit 1 y).
Proof.
  destruct (parmeval_norm_rows euler knots_splrep knots_splev decay_model (F64.of_Z 4) zero_xpdata [(1, 1)]
              true false None 2 [decay_row; [F64.tenth; F64.two]] [decay_row] [[decay_row]]
              decay_env decay_yA decay_yB decay_yC decay_parmeval.2) as (HA & _ & _).
  - repeat constructor.
  - repeat constructor.
  - repeat constructor.
  - vm_compute. reflexivity.
  - apply (HA 1 [F64.tenth; F64.two]). reflexivity.
Defined.

(** ** The value blocks of the log *)

Lemma flat_map_pairs {A B : Type} (g h : A -> B) (l : list A) :
  length (flat_map (fun x => [g x; h x]) l) = 2 * length l
  /\ forall i, flat_map (fun x => [g x; h x]) l !! (2 * i) = g <$> l !! i
               /\ flat_map (fun x => [g x; h x]) l !! (2 * i + 1) = h <$> l !! i.
Proof.
  induction l as [|x l [IHlen IH]].
  - split; [done|]. intros i. simpl. now rewrite !lookup_nil.
  - split; [simpl in *; lia|]. intros [|i]; [done|].
    replace (2 * S i) with (S (S (2 * i))) by lia. exact (IH i).
Qed.

Section WriteValuesContent.
Context {V : Type}.
Variable fmt : V -> string.

(** X20. A value block of the log holds every value once and in order:
    [write_values] writes two strings per value, the formatted value and
    then one separator, which is a line break or a comma with a blank and
    is a line break after the last value, so that a block never ends in
    the middle of a line. *)
Theorem write_values_content (k : nat) (vals : list V) :
  length (write_values fmt k vals) = 2 * length vals
  /\ forall i v, vals !! i = Some v ->
       write_values fmt k vals !! (2 * i) = Some (fmt v)
       /\ exists sep,
            write_values fmt k vals !! (2 * i + 1) = Some sep
            /\ (sep = nl \/ sep = ", "%string)
            /\ (i = length vals - 1 -> sep = nl).
Proof.
  unfold write_values.
  destruct (flat_map_pairs
              (fun iv : nat * V => fmt iv.2)
              (fun iv : nat * V =>
                 if (negb (iv.1 =? 0) && (iv.1 mod k =? 0)) || (iv.1 =? length vals - 1)
                 then nl else ", "%string)
              (imap pair vals)) as [Hlen Hlook].
  split; [now rewrite Hlen, length_imap|].
  intros i v Hi. destruct (Hlook i) as [Hval Hsep].
  rewrite Hval, Hsep, list_lookup_imap, Hi. simpl. split; [done|].
  eexists. split; [reflexivity|]. split.
  - destruct (_ || _); auto.
  - intros ->. rewrite Nat.eqb_refl. now rewrite orb_true_r.
Qed.
End WriteValuesContent.

Lemma write_values_content_witness :
  write_values (fun s : string => s) 5 ["a"; "b"]%string !! 2 = Some "b"%string.
Proof.
  exact (proj1 (proj2 (write_values_content (fun s : string => s) 5 ["a"; "b"]%string)
                  1 "b"%string eq_refl)).
Defined.

Lemma getlog_usemag_missing_witness :
  getlog pow_table (Arr1 [F64.zero]) [F64.one] 1 [0] None = Raise TypeError.
Proof.
  apply (proj2 (getlog_usemag_missing pow_table (Arr1 [F64.zero]) [F64.one] 1 [0])).
  exists 0. split; [simpl; lia|apply list_elem_of_here].
Defined.

Lemma getlin_useCV_missing_witness :
  getlin (Arr1 [F64.zero]) [F64.one] (F64.lit 25 2) [0] None = Raise TypeError.
Proof.
  apply (proj2 (getlin_useCV_missing [F64.one] (F64.lit 25 2) [0] (Arr1 [F64.zero]))).
  exists 0. split; [simpl; lia|apply list_elem_of_here].
Defined.

(** ** A solve with the nominal parameters *)

Lemma stores_positional (vals p : list float) :
  length vals <= length p ->
  stores (zip (seq 0 (length vals)) vals) p = map c_float vals ++ drop (length vals) p.
Proof.
  intros Hlen. apply list_eq. intros j.
  rewrite stores_seq_lookup by done.
  destruct (decide (j < length vals)) as [Hj|Hj].
  - rewrite lookup_app_l by (rewrite length_map; lia). now rewrite list_lookup_fmap.
  - rewrite lookup_app_r by (rewrite length_map; lia).
    rewrite length_map, lookup_drop. f_equal. lia.
Qed.

Lemma set_yzero_id env : set_yzero (yzero env) env = env.
Proof. now destruct env. Qed.

Section OdesolveNominal.
Variable odeint : (list float -> float -> list float) -> list float -> list float -> matrix float.

(** X21. A solve with the parameter array that [odeinit] returned
    changes nothing: whether [odesolve] returns or raises, and whatever
    [ic] is, it leaves the environment exactly as [odeinit] made it. *)
Theorem odesolve_nominal_keeps_env model reltol abstol steps env paramarray tfinal tinit ic :
  odeinit model reltol abstol steps = Ok (env, paramarray) ->
  (odesolve odeint model tfinal paramarray None tinit ic env).2 = env.
Proof.
  intros Hinit.
  destruct (odeinit_buffer _ _ _ _ _ _ Hinit) as [Hp ->].
  assert (Hyz : exists yz0, yzero env = inserts (ic_values (initial_conditions model)) yz0
                /\ Forall (fun ic : nat * Param => ic.1 < length yz0)
                          (initial_conditions model)).
  { unfold odeinit in Hinit.
    destruct (assign_ics _ _) as [yz|e] eqn:Hics; simpl in Hinit; [|discriminate].
    apply assign_ics_inv in Hics as [-> Hall]. inversion Hinit. simpl. eauto. }
  destruct Hyz as (yz0 & Hyz & Hrange).
  assert (Hwrite : write_params (map value (parameters model)) None env = (Ok tt, env)).
  { unfold write_params.
    rewrite (write_all_run _ (length (map value (parameters model))) 0 env)
      by (rewrite ?Hp, !length_map; simpl; lia).
    rewrite drop_0, stores_positional by (rewrite Hp, !length_map; lia).
    rewrite drop_ge by (rewrite Hp, !length_map; lia).
    rewrite app_nil_r, map_map, <- Hp. now rewrite set_data_p_id. }
  unfold odesolve. rewrite (bind_Ok_run _ _ _ _ _ Hwrite).
  assert (Hics : (if ic then reset_ics (initial_conditions model) else mret tt) env
                 = (Ok tt, env)).
  { destruct ic; [|done]. rewrite reset_ics_ok.
    - assert (Hidem : inserts (ic_values (initial_conditions model)) (yzero env) = yzero env)
        by (rewrite Hyz; now apply inserts_twice).
      now rewrite Hidem, set_yzero_id.
    - rewrite Hyz, inserts_length. exact Hrange. }
  rewrite (bind_Ok_run _ _ _ _ _ Hics).
  unfold mbind, ST_bind, get_env, lift, mret, ST_ret.
  now destruct (foldR _ _ _).
Qed.
End OdesolveNominal.

Lemma odesolve_nominal_keeps_env_witness :
  (odesolve euler decay_model (F64.of_Z 4) [F64.tenth; F64.one] None F64.zero true decay_env).2
  = decay_env.
Proof.
  apply (odesolve_nominal_keeps_env euler decay_model (F64.lit 1 3) (F64.lit 1 3) 5 decay_env
           [F64.tenth; F64.one] (F64.of_Z 4) F64.zero true decay_env_init).
Defined.

(** ** The evaluator: pairings and observable patterns *)

Lemma setrow_Ok_length {A : Type} (w : nat) (M M' : matrix A) (i : nat) (row : list A) :
  Np.setrow w M i row = Ok M' -> length row = w \/ length row = 1.
Proof.
  unfold Np.setrow. destruct (index M i) as [r|]; simpl; [|discriminate].
  destruct (decide (length row = w)) as [Hw|_]; [auto|].
  destruct row as [|x [|x' row]]; try discriminate. auto.
Qed.

Section ParmevalPairings.
Variable odeint : (list float -> float -> list float) -> list float -> list float -> matrix float.
Context {spline : Type}.
Variable splrep : list float -> list float -> res spline.
Variable splev : list float -> spline -> res (list float).

(** X22. The objective vector of a row has one entry per pairing and is
    stored in a row of [yA] that has one entry per observable pattern:
    [parmeval] with at least one row in [sobmtxA] returns only if the
    number of pairings is the number of observable patterns of the model,
    or one (the single objective is then copied to every entry). *)
Theorem parmeval_pairings_match model time xpdata xspairlist ic vardata useparams
    sobmtxA sobmtxB sobmtxC norm fileobj env r env' :
  1 <= nrows sobmtxA ->
  parmeval odeint splrep splev model time xpdata xspairlist ic vardata useparams
    sobmtxA sobmtxB sobmtxC norm fileobj env = (Ok r, env') ->
  length xspairlist = length (observable_patterns model) \/ length xspairlist = 1.
Proof.
  intros HA Hrun. unfold parmeval in Hrun.
  apply bind_Ok_inv in Hrun as (a & e1 & Ha & _).
  unfold rows_loop in Ha. destruct sobmtxA as [|row0 rest]; [simpl in HA; lia|].
  change (seq 0 (nrows (row0 :: rest))) with (0 :: seq 1 (nrows rest)) in Ha.
  apply foldS_inv in Ha as (acc1 & e2 & Hstep & _).
  unfold rows_body in Hstep.
  unfold mbind at 1, ST_bind at 1, lift at 1 in Hstep.
  change (index (row0 :: rest) 0) with (@Ok (list float) row0) in Hstep.
  cbv beta iota in Hstep.
  assert (Hcmp : forall on y M' M'',
            compare_data splrep splev xpdata on xspairlist vardata = Ok y ->
            Np.setrow (length (observable_patterns model)) M' 0 y = Ok M'' ->
            length xspairlist = length (observable_patterns model) \/ length xspairlist = 1).
  { intros on y M' M'' Hy Hset. apply mapR_length in Hy. rewrite <- Hy.
    now apply setrow_Ok_length in Hset. }
  destruct norm.
  - unfold mbind at 1, ST_bind at 1 in Hstep.
    destruct (body_norm _ _ _ _ _ _ _ _ _ _ _ env) as [[[on y]|err] e3] eqn:Hbody;
      [|discriminate].
    unfold body_norm, mbind, ST_bind, lift, mret, ST_ret in Hbody.
    destruct (solve_row _ _ _ _ _ _ env) as [[sol|err] e4]; [|discriminate].
    destruct (normalize (xyobs sol)) as [on'|err]; [|discriminate].
    destruct (compare_data splrep splev xpdata on' xspairlist vardata) as [y'|err] eqn:Hy;
      [|discriminate].
    inversion Hbody; subst on y e3.
    unfold mbind, ST_bind, lift, mret, ST_ret in Hstep. simpl in Hstep.
    destruct (Np.setrow _ _ 0 y') as [M''|err] eqn:Hset; [|discriminate].
    apply (Hcmp on' y' _ M'' Hy Hset).
  - unfold mbind at 1, ST_bind at 1 in Hstep.
    destruct (body_raw_A _ _ _ _ _ _ _ _ _ _ _ env) as [[y|err] e3] eqn:Hbody; [|discriminate].
    unfold body_raw_A, mbind, ST_bind, lift in Hbody.
    destruct (solve_row _ _ _ _ _ _ env) as [[sol|err] e4]; [|discriminate].
    destruct (compare_data splrep splev xpdata (xyobs sol) xspairlist vardata) as [y'|err] eqn:Hy;
      [|discriminate].
    inversion Hbody; subst y e3.
    unfold mbind, ST_bind, lift, mret, ST_ret in Hstep. simpl in Hstep.
    destruct (Np.setrow _ _ 0 y') as [M''|err] eqn:Hset; [|discriminate].
    apply (Hcmp _ y' _ M'' Hy Hset).
Qed.
End ParmevalPairings.

Lemma parmeval_pairings_match_witness :
  length [(1, 1)] = length (observable_patterns decay_model) \/ length [(1, 1)] = 1.
Proof.
  apply (parmeval_pairings_match euler knots_splrep knots_splev decay_model (F64.of_Z 4) zero_xpdata [(1, 1)]
           true false None [decay_row; [F64.tenth; F64.two]] [decay_row] [[decay_row]]
           true false decay_env (decay_yA, decay_yB, decay_yC) decay_parmeval.2).
  - simpl. lia.
  - vm_compute. reflexivity.
Defined.
